(** * vibe-git-diff-tui: the list/tree browsing engine of [src/ui/App.tsx]

    A shallow embedding of the pure parts of the terminal dashboard
    (tree builder, tree flattener, row list, scroll window, selection
    toggles and the path-entry input mode), followed by the properties
    proved about them.

    Conventions.
    - JavaScript numbers that index rows or characters are [Z]; the code
      never leaves the integers on them ([Math.floor] of a non-negative
      quotient is [Z.div]).
    - JavaScript strings are [string]: sequences of code units, restricted
      here to the code units below 256.
    - [Set<string>] is [gset string]; the [Map] of [buildFileTree], whose
      iteration order is insertion order, is an association list.
    - React state is passed explicitly: a handler reads the state of the
      render it closes over and returns the state after its setters ran. *)

From Stdlib Require Import ZArith Ascii String List Lia.
From stdpp Require Import gmap strings list.

Local Open Scope Z_scope.
#[local] Set Warnings "-clear-no-such-hyp".

(** ** JavaScript primitives used by the program *)

Module JS.

(** [s.length] *)
Definition length (s : string) : Z := Z.of_nat (String.length s).

(** Truthiness of a string: [""] is the only falsy one. *)
Definition truthy (s : string) : bool :=
  match s with EmptyString => false | String _ _ => true end.

(** Relative index of [String.prototype.slice]: a negative index counts
    from the end, and the result is clamped to [0, len]. *)
Definition rel_index (len i : Z) : Z :=
  if i <? 0 then Z.max (len + i) 0 else Z.min i len.

(** [s.slice(from, to)] *)
Definition slice (s : string) (from to : Z) : string :=
  let len := length s in
  let a := rel_index len from in
  let b := rel_index len to in
  String.substring (Z.to_nat a) (Z.to_nat (Z.max (b - a) 0)) s.

(** [s.slice(from)] *)
Definition slice_from (s : string) (from : Z) : string :=
  slice s from (length s).

(** [s.split(sep)] for a one-character separator. *)
Fixpoint split (sep : ascii) (s : string) : list string :=
  match s with
  | EmptyString => [EmptyString]
  | String c s' =>
      if Ascii.eqb c sep then EmptyString :: split sep s'
      else match split sep s' with
           | [] => [String c EmptyString]
           | p :: ps => String c p :: ps
           end
  end.

(** [s.includes(c)] for a one-character needle. *)
Fixpoint includes (c : ascii) (s : string) : bool :=
  match s with
  | EmptyString => false
  | String d s' => Ascii.eqb d c || includes c s'
  end.

(** White space and line terminators removed by [trim], among the code
    units below 256: TAB, LF, VT, FF, CR, SP and NBSP. *)
Definition is_space (c : ascii) : bool :=
  let n := nat_of_ascii c in
  ((9 <=? n)%nat && (n <=? 13)%nat) || (n =? 32)%nat || (n =? 160)%nat.

Fixpoint trimStart (s : string) : string :=
  match s with
  | EmptyString => EmptyString
  | String c s' => if is_space c then trimStart s' else s
  end.

(** Drops the trailing white space: a character is kept when something
    other than white space follows it or when it is not white space. *)
Fixpoint trimEnd (s : string) : string :=
  match s with
  | EmptyString => EmptyString
  | String c s' =>
      match trimEnd s' with
      | EmptyString => if is_space c then EmptyString else String c EmptyString
      | String d t => String c (String d t)
      end
  end.

(** [s.trim()] *)
Definition trim (s : string) : string := trimEnd (trimStart s).

(** [s.replace(/[\r\n]+/g, '')]: every CR and LF is removed. *)
Fixpoint strip_newlines (s : string) : string :=
  match s with
  | EmptyString => EmptyString
  | String c s' =>
      if (nat_of_ascii c =? 13)%nat || (nat_of_ascii c =? 10)%nat
      then strip_newlines s'
      else String c (strip_newlines s')
  end.

(** [s.padStart(n, '0')] *)
Definition padStart0 (n : nat) (s : string) : string :=
  String.string_of_list_ascii (repeat "0"%char (n - String.length s))
    +:+ s.

Definition digit (d : nat) : ascii := ascii_of_nat (48 + d).

(** [String(n)] for a non-negative integer, most significant digit first;
    [fuel] bounds the number of digits. *)
Fixpoint digits_of (fuel n : nat) (acc : string) : string :=
  match fuel with
  | O => acc
  | S fuel' =>
      let acc' := String (digit (n mod 10)) acc in
      if (n / 10 =? 0)%nat then acc' else digits_of fuel' (n / 10) acc'
  end.

Definition of_nat (n : nat) : string := digits_of (S n) n EmptyString.

End JS.

(** ** Data model *)

(** [GitChange] of [src/git/types.ts]. *)
Record GitChange := mkGitChange {
  path : string;
  statusCode : string;
  status : string;
  oldPath : option string
}.

Global Instance GitChange_eq_dec : EqDecision GitChange.
Proof. solve_decision. Defined.

(** ['unstaged' | 'staged'] *)
Inductive Group := unstaged | staged.

Global Instance Group_eq_dec : EqDecision Group.
Proof. solve_decision. Defined.

(** ['directory' | 'file'] *)
Inductive NodeType := directory | file.

Global Instance NodeType_eq_dec : EqDecision NodeType.
Proof. solve_decision. Defined.

(** [TreeNode]: [children], [file] and [group] are optional properties. *)
Unset Elimination Schemes.
Inductive TreeNode := mkTreeNode {
  tn_name : string;
  tn_path : string;
  tn_type : NodeType;
  tn_children : option (list TreeNode);
  tn_file : option GitChange;
  tn_group : option Group;
  tn_depth : nat
}.
Set Elimination Schemes.

(** ['flat' | 'tree'] *)
Inductive ViewMode := flat | tree.

(** ['files' | 'commits'] *)
Inductive FocusPane := files | commits.

(** [ListItem]. In tree mode the [file] and [group] of a row are read off
    the node with a non-null assertion, which checks nothing at run time,
    so both are optional here. *)
Inductive ListItem :=
| item_group (label : string) (count : nat)
| item_file (f : option GitChange) (g : option Group) (node : option TreeNode)
| item_directory (node : TreeNode).

(** ** Tree builder ([buildFileTree])

    The builder keeps every node object in the [Map] called [root], keyed
    by its path, and later pushes children onto the [children] array of an
    object that is already in the map (and possibly already in the array of
    its own parent). The embedding keeps that sharing: [root] is a store of
    node objects in insertion order, and a [children] array holds
    references to objects. An object is created only under a key the map
    does not have yet and is never replaced, so its key identifies it and
    serves as the reference. *)

Record NodeObj := mkNodeObj {
  o_name : string;
  o_path : string;
  o_type : NodeType;
  o_children : option (list string);
  o_file : option GitChange;
  o_group : option Group;
  o_depth : nat
}.

(** The map [root], in insertion order. *)
Definition RootMap := list (string * NodeObj).

(** [root.has(k)] *)
Definition root_has (k : string) (root : RootMap) : bool :=
  bool_decide (k ∈ map fst root).

(** [root.get(k)] *)
Fixpoint root_get (k : string) (root : RootMap) : option NodeObj :=
  match root with
  | [] => None
  | (k', o) :: rest => if decide (k' = k) then Some o else root_get k rest
  end.

(** Replaces the object stored under [k], keeping its position. *)
Fixpoint root_update (k : string) (f : NodeObj -> NodeObj) (root : RootMap)
  : RootMap :=
  match root with
  | [] => []
  | (k', o) :: rest =>
      if decide (k' = k) then (k', f o) :: rest
      else (k', o) :: root_update k f rest
  end.

(** [root.set(k, o)]: a new key goes last, an existing one keeps its
    position. *)
Definition root_set (k : string) (o : NodeObj) (root : RootMap) : RootMap :=
  if root_has k root then root_update k (fun _ => o) root
  else root ++ [(k, o)].

(** [parent.children.push(node)] on the object stored under [k]. *)
Definition push_child (child : string) (o : NodeObj) : NodeObj :=
  match o_children o with
  | Some cs =>
      mkNodeObj (o_name o) (o_path o) (o_type o) (Some (cs ++ [child]))
        (o_file o) (o_group o) (o_depth o)
  | None => o
  end.

(** [file.path.split('/').filter(p => p.length > 0)] *)
Definition path_parts (p : string) : list string :=
  filter (fun s => s ≠ EmptyString) (JS.split "/"%char p).

(** [currentPath ? `${currentPath}/${part}` : part] *)
Definition join_path (currentPath part : string) : string :=
  if JS.truthy currentPath then currentPath +:+ "/" +:+ part else part.

(** The body of the [for] loop at index [i]: [len] is [parts.length]. *)
Definition visit_part (f : GitChange) (g : Group) (len i : nat)
    (part parentPath : string) (root : RootMap) : RootMap :=
  let currentPath := join_path parentPath part in
  let isFile := bool_decide (i = (len - 1)%nat) in
  if root_has currentPath root then root
  else
    let node :=
      mkNodeObj part currentPath (if isFile then file else directory)
        (if isFile then None else Some [])
        (if isFile then Some f else None)
        (if isFile then Some g else None)
        i in
    let root1 := root_set currentPath node root in
    if JS.truthy parentPath && root_has parentPath root1 then
      match root_get parentPath root1 with
      | Some parent =>
          match o_children parent with
          | Some _ => root_update parentPath (push_child currentPath) root1
          | None => root1
          end
      | None => root1
      end
    else root1.

(** The [for] loop over [parts] from index [i] on, carrying [currentPath]. *)
Fixpoint walk_parts (f : GitChange) (g : Group) (len i : nat)
    (parts : list string) (currentPath : string) (root : RootMap) : RootMap :=
  match parts with
  | [] => root
  | part :: rest =>
      if JS.truthy part then
        walk_parts f g len (S i) rest (join_path currentPath part)
          (visit_part f g len i part currentPath root)
      else walk_parts f g len (S i) rest currentPath root
  end.

(** The callback of [files.forEach]. *)
Definition add_file (g : Group) (root : RootMap) (f : GitChange) : RootMap :=
  let parts := path_parts (path f) in
  walk_parts f g (List.length parts) 0 parts EmptyString root.

(** The map after [files.forEach]. *)
Definition build_root (files : list GitChange) (g : Group) : RootMap :=
  fold_left (add_file g) files [].

(** The objects of the store as tree values. A child is created after its
    parent's key is in the map, so a reference always points further down
    the store and the store can be read back from its end. *)
Fixpoint tbl_get (k : string) (tbl : list (string * TreeNode))
  : option TreeNode :=
  match tbl with
  | [] => None
  | (k', n) :: rest => if decide (k' = k) then Some n else tbl_get k rest
  end.

Definition reify_obj (tbl : list (string * TreeNode)) (o : NodeObj)
  : TreeNode :=
  mkTreeNode (o_name o) (o_path o) (o_type o)
    (option_map (omap (fun r => tbl_get r tbl)) (o_children o))
    (o_file o) (o_group o) (o_depth o).

Fixpoint reify (root : RootMap) : list (string * TreeNode) :=
  match root with
  | [] => []
  | (k, o) :: rest =>
      let tbl := reify rest in (k, reify_obj tbl o) :: tbl
  end.

(** [Array.from(root.values())] *)
Definition root_values (root : RootMap) : list TreeNode :=
  map snd (reify root).

(** [buildFileTree(files, group)] *)
Definition buildFileTree (files : list GitChange) (g : Group)
  : list TreeNode :=
  filter (fun node => JS.includes "/"%char (tn_path node) = false)
    (root_values (build_root files g)).

(** ** Tree flattener ([flattenTree]) *)

(** The callback of [nodes.forEach] inside [traverse]: the node is pushed,
    then its children are traversed when it is a directory that is not
    collapsed and has a [children] array. *)
Fixpoint traverse_node (collapsed : gset string) (node : TreeNode)
  : list TreeNode :=
  match node with
  | mkTreeNode _ p ty ch _ _ _ =>
      node ::
      match ty, ch with
      | directory, Some cs =>
          if bool_decide (p ∈ collapsed) then []
          else flat_map (traverse_node collapsed) cs
      | _, _ => []
      end
  end.

(** [flattenTree(nodes, collapsed)] *)
Definition flattenTree (nodes : list TreeNode) (collapsed : gset string)
  : list TreeNode :=
  flat_map (traverse_node collapsed) nodes.

(** ** Row list ([allItems]) *)

(** The callback of [flatTree.map] in tree mode. *)
Definition node_item (node : TreeNode) : ListItem :=
  match tn_type node with
  | file => item_file (tn_file node) (tn_group node) (Some node)
  | directory => item_directory node
  end.

(** [items.push(...)] of one group, guarded by [files.length > 0]. *)
Definition push_group (viewMode : ViewMode) (collapsedDirs : gset string)
    (label : string) (g : Group) (groupFiles : list GitChange)
    (items : list ListItem) : list ListItem :=
  if (0 <? List.length groupFiles)%nat then
    let items := items ++ [item_group label (List.length groupFiles)] in
    match viewMode with
    | flat =>
        fold_left (fun items f => items ++ [item_file (Some f) (Some g) None])
          groupFiles items
    | tree =>
        let tree := buildFileTree groupFiles g in
        let flatTree := flattenTree tree collapsedDirs in
        items ++ map node_item flatTree
    end
  else items.

(** The [useMemo] that computes [allItems]. *)
Definition allItems (unstagedFiles stagedFiles : list GitChange)
    (viewMode : ViewMode) (collapsedDirs : gset string) : list ListItem :=
  let items := [] in
  let items :=
    push_group viewMode collapsedDirs "Changes" unstaged unstagedFiles items in
  let items :=
    push_group viewMode collapsedDirs "Staged Changes" staged stagedFiles
      items in
  items.

(** ** Scroll window of the files pane *)

(** The state the scroll window reads: the terminal height reported by
    [useWindowSize], [allItems.length], and the two pieces of React state.
    [isWarp] is [process.env.TERM_PROGRAM === 'WarpTerminal']. *)
Record Pane := mkPane {
  rows : Z;
  total : Z;
  selectedIndex : Z;
  listScrollTop : Z
}.

(** [x || 24] on a number: [0] is falsy. *)
Definition or24 (x : Z) : Z := if x =? 0 then 24 else x.

Definition adjustedRows (isWarp : bool) (rows : Z) : Z :=
  if isWarp then Z.max 10 (or24 rows - 1) else or24 rows.

Definition mainAreaHeight (isWarp : bool) (rows : Z) : Z :=
  Z.max 3 (adjustedRows isWarp rows - 8).

(** [Math.floor(mainAreaHeight * 2 / 4)] *)
Definition filesPaneHeight (isWarp : bool) (rows : Z) : Z :=
  (mainAreaHeight isWarp rows * 2) / 4.

(** The effect that keeps [selectedIndex] valid; its dependencies are
    [allItems.length], [selectedIndex] and [mainAreaHeight]. *)
Definition reclampEffect (isWarp : bool) (s : Pane) : Pane :=
  if selectedIndex s >=? total s then
    let lastIndex := Z.max 0 (total s - 1) in
    mkPane (rows s) (total s) lastIndex
      (Z.max 0 (lastIndex - mainAreaHeight isWarp (rows s) + 1))
  else if total s =? 0 then mkPane (rows s) (total s) 0 0
  else s.

(** Up arrow or [k] with the files pane focused (the handler computes the
    pane height but does not use it). *)
Definition keyUp (s : Pane) : Pane :=
  let prev := selectedIndex s in
  let nextIndex := Z.max (prev - 1) 0 in
  mkPane (rows s) (total s) nextIndex
    (if nextIndex <? listScrollTop s then nextIndex else listScrollTop s).

(** Down arrow or [j] with the files pane focused. *)
Definition keyDown (isWarp : bool) (s : Pane) : Pane :=
  let prev := selectedIndex s in
  let nextIndex := Z.min (prev + 1) (total s - 1) in
  let filesPaneHeight := filesPaneHeight isWarp (rows s) in
  mkPane (rows s) (total s) nextIndex
    (if nextIndex >=? listScrollTop s + filesPaneHeight
     then nextIndex - filesPaneHeight + 1 else listScrollTop s).

(** What can happen to the pane: a navigation key, a change of the row
    list (refresh, collapse, view mode) to [n] rows, or a terminal resize
    to [r] rows. *)
Inductive PaneEvent :=
| KeyUp
| KeyDown
| Rebuild (n : Z)
| Resize (r : Z).

(** One event followed by the render and the effect it triggers. *)
Definition pane_step (isWarp : bool) (s : Pane) (e : PaneEvent) : Pane :=
  reclampEffect isWarp
    match e with
    | KeyUp => keyUp s
    | KeyDown => keyDown isWarp s
    | Rebuild n => mkPane (rows s) n (selectedIndex s) (listScrollTop s)
    | Resize r => mkPane r (total s) (selectedIndex s) (listScrollTop s)
    end.

(** The window the renderer slices:
    [allItems.slice(listScrollTop, listScrollTop + filesPaneHeight)]. *)
Definition focus_in_window (isWarp : bool) (s : Pane) : Prop :=
  0 <= listScrollTop s /\
  listScrollTop s <= selectedIndex s /\
  selectedIndex s <= listScrollTop s + filesPaneHeight isWarp (rows s) - 1.

(** The update rule of the specification's [clamp]. *)
Definition clamp_rule (focusIndex scrollTop viewportHeight : Z) : Z :=
  if focusIndex <? scrollTop then focusIndex
  else if focusIndex >=? scrollTop + viewportHeight
       then focusIndex - viewportHeight + 1
       else scrollTop.

(** ** Selection ([selectedPaths]) *)

(** [groupFiles.every(f => newSet.has(f.path))] *)
Definition allSelected (groupFiles : list GitChange) (sel : gset string)
  : bool :=
  forallb (fun f => bool_decide (path f ∈ sel)) groupFiles.

(** The group branch of the space key: the files are those of the state
    variable picked by the header's label. *)
Definition toggleGroup (groupFiles : list GitChange) (selectedPaths : gset string)
  : gset string :=
  let newSet := selectedPaths in
  if allSelected groupFiles newSet then
    fold_left (fun newSet f => newSet ∖ {[path f]}) groupFiles newSet
  else
    fold_left (fun newSet f => newSet ∪ {[path f]}) groupFiles newSet.

(** The file branch of the space key. *)
Definition toggleFile (p : string) (selectedPaths : gset string) : gset string :=
  if bool_decide (p ∈ selectedPaths) then selectedPaths ∖ {[p]}
  else selectedPaths ∪ {[p]}.

(** The state the space key reads in the files pane. *)
Record Browser := mkBrowser {
  unstagedFiles : list GitChange;
  stagedFiles : list GitChange;
  viewMode : ViewMode;
  collapsedDirs : gset string;
  focusIndex : nat;
  selectedPaths : gset string
}.

Definition browser_items (b : Browser) : list ListItem :=
  allItems (unstagedFiles b) (stagedFiles b) (viewMode b) (collapsedDirs b).

(** Space with the files pane focused: the new [selectedPaths]. On a file
    row whose [file] is missing the handler throws before any setter runs;
    such a row is never built (see [node_item]) and the selection is then
    left as it is. *)
Definition pressSpace (b : Browser) : gset string :=
  match browser_items b !! focusIndex b with
  | Some (item_group label _) =>
      let isStaged := bool_decide (label = "Staged Changes") in
      let groupFiles := if isStaged then stagedFiles b else unstagedFiles b in
      toggleGroup groupFiles (selectedPaths b)
  | Some (item_file (Some f) _ _) => toggleFile (path f) (selectedPaths b)
  | _ => selectedPaths b
  end.

(** Enter on a directory row in tree mode: the new [collapsedDirs]. *)
Definition toggleCollapsed (dirPath : string) (collapsedDirs : gset string)
  : gset string :=
  if bool_decide (dirPath ∈ collapsedDirs) then collapsedDirs ∖ {[dirPath]}
  else collapsedDirs ∪ {[dirPath]}.

(** ** Input modes ([useInput]) *)

(** ['normal' | 'export-path' | 'export-overview' | 'export-code-dump'] *)
Inductive InputMode := normal | export_path | export_overview | export_code_dump.

Global Instance InputMode_eq_dec : EqDecision InputMode.
Proof. solve_decision. Defined.

(** ['tree' | 'flat'] of the code dump. *)
Inductive DumpMode := dump_tree | dump_flat.

(** The [key] argument of the [useInput] callback. *)
Record Key := mkKey {
  k_upArrow : bool;
  k_downArrow : bool;
  k_leftArrow : bool;
  k_rightArrow : bool;
  k_pageDown : bool;
  k_pageUp : bool;
  k_return : bool;
  k_escape : bool;
  k_ctrl : bool;
  k_shift : bool;
  k_tab : bool;
  k_backspace : bool;
  k_delete : bool;
  k_meta : bool;
  k_home : bool;
  k_end : bool
}.

(** The fields of [new Date()] the file names use; [month] is
    [getMonth()], which starts at 0. *)
Record Date := mkDate {
  year : nat;
  month : nat;
  day : nat;
  hours : nat;
  minutes : nat;
  seconds : nat
}.

Definition pad2 (n : nat) : string := JS.padStart0 2 (JS.of_nat n).

(** [getTimestampedFileName(prefix)] *)
Definition getTimestampedFileName (now : Date) (pfx : string) : string :=
  pfx +:+ "_" +:+ JS.of_nat (year now) +:+ pad2 (month now + 1)
    +:+ pad2 (day now) +:+ "_" +:+ pad2 (hours now) +:+ pad2 (minutes now)
    +:+ pad2 (seconds now) +:+ ".txt".

(** [getCommitFileName(commitHash)] *)
Definition getCommitFileName (now : Date) (commitHash : string) : string :=
  let date := JS.of_nat (year now) +:+ pad2 (month now + 1) +:+ pad2 (day now) in
  let time := pad2 (hours now) +:+ pad2 (minutes now) +:+ pad2 (seconds now) in
  "diff_" +:+ commitHash +:+ "_" +:+ date +:+ "_" +:+ time +:+ ".txt".

(** What a key press reads besides the input state: the focused pane, the
    hash of [commits[commitFocusIndex]] if there is one, [selectedPaths.size],
    the clock, and what [getClipboardContent] resolves to ([None] when it
    throws). *)
Record Env := mkEnv {
  focusPane : FocusPane;
  currentCommit : option string;
  selectedCount : nat;
  now : Date;
  clipboard : option string
}.

Record InputState := mkInput {
  inputMode : InputMode;
  pathInput : string;
  cursorPosition : Z;
  dumpMode : DumpMode
}.

(** The export routine the Enter key calls, with its arguments. *)
Inductive ExportCall :=
| handleExportCommits (outputPath : string)
| handleExportSingle
| handleExportMultiple (outputPath : string)
| handleExportOverview (outputPath : string)
| handleExportCodeDump (outputPath : string) (mode : DumpMode).

(** The Enter branch of the path-input mode: the routine that is called. *)
Definition confirmExport (env : Env) (st : InputState) : option ExportCall :=
  match inputMode st with
  | export_path =>
      match focusPane env with
      | commits =>
          let finalPath := JS.trim (pathInput st) in
          let finalPath :=
            if decide (finalPath = "") then
              match currentCommit env with
              | Some hash => "./" +:+ getCommitFileName (now env) hash
              | None => "./" +:+ getTimestampedFileName (now env) "commit"
              end
            else finalPath in
          Some (handleExportCommits finalPath)
      | files =>
          let finalPath :=
            if decide (JS.trim (pathInput st) = "")
            then "./" +:+ getTimestampedFileName (now env) "diff"
            else pathInput st in
          if (selectedCount env =? 0)%nat then Some handleExportSingle
          else Some (handleExportMultiple finalPath)
      end
  | export_overview =>
      let finalPath :=
        if decide (JS.trim (pathInput st) = "")
        then "./" +:+ getTimestampedFileName (now env) "files_overview"
        else pathInput st in
      Some (handleExportOverview finalPath)
  | export_code_dump =>
      let finalPath := JS.trim (pathInput st) in
      Some (handleExportCodeDump finalPath (dumpMode st))
  | normal => None
  end.

(** Text inserted at the cursor (a typed character or a paste). *)
Definition insertAtCursor (text : string) (st : InputState) : InputState :=
  let newPath :=
    JS.slice (pathInput st) 0 (cursorPosition st) +:+ text
      +:+ JS.slice_from (pathInput st) (cursorPosition st) in
  mkInput (inputMode st) newPath (cursorPosition st + JS.length text)
    (dumpMode st).

(** The path-input branch of [useInput]. The paste completes asynchronously
    with the buffer and cursor of the render that started it; here it
    completes before the next key. *)
Definition pathModeInput (env : Env) (input : string) (key : Key)
    (st : InputState) : InputState * option ExportCall :=
  if k_escape key then (mkInput normal "" 0 (dumpMode st), None)
  else if k_tab key && bool_decide (inputMode st = export_code_dump) then
    (mkInput (inputMode st) (pathInput st) (cursorPosition st)
       match dumpMode st with dump_flat => dump_tree | dump_tree => dump_flat end,
     None)
  else if k_return key then
    (mkInput normal "" 0 (dumpMode st), confirmExport env st)
  else if k_backspace key || k_delete key then
    (if cursorPosition st >? 0 then
       let newPath :=
         JS.slice (pathInput st) 0 (cursorPosition st - 1)
           +:+ JS.slice_from (pathInput st) (cursorPosition st) in
       mkInput (inputMode st) newPath (cursorPosition st - 1) (dumpMode st)
     else st, None)
  else if k_ctrl key && bool_decide (input = "v") then
    (match clipboard env with
     | Some clipboardContent =>
         insertAtCursor (JS.strip_newlines clipboardContent) st
     | None => st
     end, None)
  else if k_ctrl key && bool_decide (input = "u") then
    (mkInput (inputMode st) "" 0 (dumpMode st), None)
  else if k_leftArrow key then
    (mkInput (inputMode st) (pathInput st)
       (Z.max 0 (cursorPosition st - 1)) (dumpMode st), None)
  else if k_rightArrow key then
    (mkInput (inputMode st) (pathInput st)
       (Z.min (JS.length (pathInput st)) (cursorPosition st + 1))
       (dumpMode st), None)
  else if k_home key then
    (mkInput (inputMode st) (pathInput st) 0 (dumpMode st), None)
  else if k_end key then
    (mkInput (inputMode st) (pathInput st) (JS.length (pathInput st))
       (dumpMode st), None)
  else if JS.truthy input && negb (k_ctrl key) && negb (k_meta key) then
    (insertAtCursor input st, None)
  else (st, None).

(** The normal branch of [useInput], as far as it touches the input state:
    the keys handled before [E], [F] and [D] return without touching it. *)
Definition normalModeInput (env : Env) (input : string) (key : Key)
    (st : InputState) : InputState :=
  if bool_decide (input = "q") then st
  else if k_tab key then st
  else if k_leftArrow key then st
  else if k_rightArrow key then st
  else if bool_decide (input = "/") then st
  else if k_upArrow key || bool_decide (input = "k") then st
  else if k_downArrow key || bool_decide (input = "j") then st
  else if bool_decide (input = " ") then st
  else if bool_decide (input = "E") then
    match focusPane env with
    | commits => mkInput export_path "" 0 (dumpMode st)
    | files =>
        if (selectedCount env =? 0)%nat then st
        else mkInput export_path "" 0 (dumpMode st)
    end
  else if bool_decide (input = "f") then st
  else if bool_decide (input = "F") then
    mkInput export_overview "" 0 (dumpMode st)
  else if bool_decide (input = "D") then
    mkInput export_code_dump "" 0 dump_tree
  else st.

(** One key press. *)
Definition useInput (st : InputState) (ev : Env * string * Key) : InputState :=
  let '(env, input, key) := ev in
  match inputMode st with
  | normal => normalModeInput env input key st
  | _ => fst (pathModeInput env input key st)
  end.

(** The input state of the first render. *)
Definition initialInput : InputState := mkInput normal "./diff.txt" 0 dump_tree.

(** ** Vocabulary of the properties: tree builder *)

(** The keys of the map, in insertion order. *)
Definition root_keys (root : RootMap) : list string := map fst root.

(** The pairs (parent path, running path) the [for] loop goes through for
    one record, in order. *)
Fixpoint steps_of_parts (currentPath : string) (parts : list string)
  : list (string * string) :=
  match parts with
  | [] => []
  | part :: rest =>
      if JS.truthy part then
        (currentPath, join_path currentPath part)
          :: steps_of_parts (join_path currentPath part) rest
      else steps_of_parts currentPath rest
  end.

Definition file_steps (f : GitChange) : list (string * string) :=
  steps_of_parts "" (path_parts (path f)).

(** Every running path of every record, in input order. *)
Definition all_steps (files : list GitChange) : list (string * string) :=
  flat_map file_steps files.

(** First-seen order: a step is kept when its running path has not occurred
    before. *)
Definition see (acc : list (string * string)) (s : string * string)
  : list (string * string) :=
  if bool_decide (snd s ∈ map snd acc) then acc else acc ++ [s].

Definition first_seen (steps : list (string * string))
  : list (string * string) :=
  fold_left see steps [].

(** The paths directly below [dir], in first-seen order. *)
Definition children_in_order (files : list GitChange) (dir : string)
  : list string :=
  map snd (List.filter (fun s => bool_decide (fst s = dir))
             (first_seen (all_steps files))).

(** The full path the loop reaches for a record. *)
Definition final_path (f : GitChange) : string :=
  fold_left join_path (path_parts (path f)) "".

(** The file objects of the map. *)
Definition file_objs (root : RootMap) : list (string * NodeObj) :=
  List.filter (fun e => bool_decide (o_type (snd e) = file)) root.

Definition no_slash (n : TreeNode) : Prop :=
  JS.includes "/"%char (tn_path n) = false.

(** The object the loop creates at index [i] for [part] under
    [parentPath]. *)
Definition created (f : GitChange) (g : Group) (len i : nat)
    (part parentPath : string) : NodeObj :=
  let isFile := bool_decide (i = (len - 1)%nat) in
  mkNodeObj part (join_path parentPath part)
    (if isFile then file else directory)
    (if isFile then None else Some [])
    (if isFile then Some f else None)
    (if isFile then Some g else None)
    i.

(** What the builder maintains, after the steps [S] have been processed:
    the keys are the running paths in first-seen order; an object is stored
    under its path; a [children] array lists, in first-seen order, the
    paths first seen directly under the object's path; a parent path is
    seen before the paths under it; no key is empty; and the objects with a
    [children] array are the directories. *)
Record store_inv (root : RootMap) (S : list (string * string)) : Prop := {
  inv_keys : root_keys root = map snd (first_seen S);
  inv_path : ∀ k o, (k, o) ∈ root → o_path o = k;
  inv_children : ∀ k o cs,
    (k, o) ∈ root → o_children o = Some cs →
    cs = map snd (List.filter (fun s => bool_decide (fst s = k))
                    (first_seen S));
  inv_order : ∀ pre s post,
    first_seen S = pre ++ s :: post → fst s = "" ∨ fst s ∈ map snd pre;
  inv_nonempty : "" ∉ root_keys root;
  inv_kind : ∀ k o,
    (k, o) ∈ root → (o_type o = directory ↔ is_Some (o_children o))
}.

(** The references held by the [children] arrays of the map, in order. *)
Definition refs_of (root : RootMap) : list string :=
  flat_map (fun e => default [] (o_children (snd e))) root.

(** The nodes of the map that no [children] array refers to. *)
Definition unreferenced (root : RootMap) : list TreeNode :=
  map snd (filter (fun e => fst e ∉ refs_of root) (reify root)).

(** The shape of the object graph the builder leaves: distinct keys, every
    object under its own path, references pointing further down the map,
    no object referred to twice, and [children] arrays on directories
    only. *)
Record shaped (root : RootMap) : Prop := {
  shape_keys : NoDup (root_keys root);
  shape_path : ∀ k o, (k, o) ∈ root → o_path o = k;
  shape_forward : ∀ pre k o post,
    root = pre ++ (k, o) :: post →
    ∀ r, r ∈ default [] (o_children o) → r ∈ root_keys post;
  shape_refs : NoDup (refs_of root);
  shape_kind : ∀ k o,
    (k, o) ∈ root → is_Some (o_children o) → o_type o = directory
}.

(** ** Vocabulary of the properties: tree flattener *)

(** [node.children], read as empty when the property is missing. *)
Definition node_children (n : TreeNode) : list TreeNode :=
  default [] (tn_children n).

(** Every node of a tree, whether shown or not, parents first. *)
Fixpoint all_nodes (n : TreeNode) : list TreeNode :=
  match n with
  | mkTreeNode _ _ _ ch _ _ _ =>
      n :: match ch with
           | Some cs => flat_map all_nodes cs
           | None => []
           end
  end.

Definition forest_nodes (nodes : list TreeNode) : list TreeNode :=
  flat_map all_nodes nodes.

(** The nodes strictly below a node. *)
Definition descendant_count (n : TreeNode) : nat :=
  List.length (forest_nodes (node_children n)).

(** Every node of a tree together with its chain of ancestors, nearest
    first. *)
Fixpoint with_ancestors (anc : list TreeNode) (n : TreeNode)
  : list (list TreeNode * TreeNode) :=
  match n with
  | mkTreeNode _ _ _ ch _ _ _ =>
      (anc, n) :: match ch with
                  | Some cs => flat_map (with_ancestors (n :: anc)) cs
                  | None => []
                  end
  end.

(** No ancestor of the chain is collapsed. *)
Definition chain_uncollapsed (c : gset string) (anc : list TreeNode) : bool :=
  forallb (fun a => negb (bool_decide (tn_path a ∈ c))) anc.

(** The number of nodes whose full ancestor chain is uncollapsed. *)
Definition visible_count (c : gset string) (nodes : list TreeNode) : nat :=
  List.length
    (List.filter (fun e => chain_uncollapsed c (fst e))
       (flat_map (with_ancestors []) nodes)).

(** The data model gives children to directories only. *)
Fixpoint wf_node (n : TreeNode) : bool :=
  match n with
  | mkTreeNode _ _ ty ch _ _ _ =>
      match ch with
      | Some cs => bool_decide (ty = directory) && forallb wf_node cs
      | None => true
      end
  end.

(** A directory whose path is not in the collapsed set. *)
Definition expanded (c : gset string) (n : TreeNode) : bool :=
  bool_decide (tn_type n = directory) && negb (bool_decide (tn_path n ∈ c)).

(** ** Vocabulary of the properties: row list and selection *)

(** The row list in the words of the specification: a group contributes its
    header followed by its rows, and nothing when it has no record. *)
Definition group_rows (label : string) (records : list GitChange)
    (rows : list ListItem) : list ListItem :=
  match records with
  | [] => []
  | _ :: _ => item_group label (List.length records) :: rows
  end.

(** The File row of a record in flat mode. *)
Definition file_row (g : Group) (f : GitChange) : ListItem :=
  item_file (Some f) (Some g) None.

(** A row stands for a node of the flattened tree: a Directory row for a
    directory node, a File row (carrying the node's record and group) for a
    file node. *)
Definition row_of_node (node : TreeNode) (row : ListItem) : Prop :=
  match tn_type node with
  | directory => row = item_directory node
  | file => row = item_file (tn_file node) (tn_group node) (Some node)
  end.

Definition group_label (g : Group) : string :=
  match g with unstaged => "Changes" | staged => "Staged Changes" end.

Definition group_files (g : Group) (b : Browser) : list GitChange :=
  match g with unstaged => unstagedFiles b | staged => stagedFiles b end.

(** The state after a space press that changed the selection only. *)
Definition afterSpace (b : Browser) : Browser :=
  mkBrowser (unstagedFiles b) (stagedFiles b) (viewMode b) (collapsedDirs b)
    (focusIndex b) (pressSpace b).

(** The paths of a list of records, as a set. *)
Definition paths_of (G : list GitChange) : gset string :=
  list_to_set (path <$> G).

(** ** Vocabulary of the properties: path entry *)

(** Key presses with a single flag set, as the terminal reports them. *)
Definition key_plain : Key :=
  mkKey false false false false false false false false false false false
    false false false false false.
Definition key_left : Key :=
  mkKey false false true false false false false false false false false
    false false false false false.
Definition key_right : Key :=
  mkKey false false false true false false false false false false false
    false false false false false.
Definition key_home : Key :=
  mkKey false false false false false false false false false false false
    false false false true false.
Definition key_end : Key :=
  mkKey false false false false false false false false false false false
    false false false false true.
Definition key_backspace : Key :=
  mkKey false false false false false false false false false false false
    true false false false false.
Definition key_ctrl : Key :=
  mkKey false false false false false false false false true false false
    false false false false false.
Definition key_return : Key :=
  mkKey false false false false false false true false false false false
    false false false false false.

(** The cursor is a position of the buffer. *)
Definition cursor_in_bounds (st : InputState) : Prop :=
  0 <= cursorPosition st <= JS.length (pathInput st).

(** The state on entry to a path-input mode. *)
Definition entryInput (mode : InputMode) (d : DumpMode) : InputState :=
  mkInput mode "" 0 d.

(** A string of exactly [n] decimal digits. *)
Definition is_digit (c : ascii) : bool :=
  let k := nat_of_ascii c in (48 <=? k)%nat && (k <=? 57)%nat.

Fixpoint all_digits (s : string) : bool :=
  match s with
  | EmptyString => true
  | String c s' => is_digit c && all_digits s'
  end.

Definition digits (n : nat) (s : string) : Prop :=
  String.length s = n ∧ all_digits s = true.

(** The pattern [<prefix>_YYYYMMDD_HHMMSS.txt]. *)
Definition timestamp_pattern (pfx s : string) : Prop :=
  ∃ ymd hms, digits 8 ymd ∧ digits 6 hms ∧
             s = pfx +:+ "_" +:+ ymd +:+ "_" +:+ hms +:+ ".txt".

(** A clock reading with a four-digit year. *)
Definition four_digit_year (now : Date) : Prop :=
  (10 * 100 <= year now < 100 * 100)%nat ∧ (month now < 12)%nat ∧
  (day now <= 31)%nat ∧ (hours now < 24)%nat ∧
  (minutes now < 60)%nat ∧ (seconds now < 60)%nat.

(** ** Scenarios *)

(** The records of the scenarios. *)
Definition f_a := mkGitChange "src/a.ts" " M" "M" None.
Definition f_b := mkGitChange "src/b.ts" "??" "??" None.
Definition f_c := mkGitChange "src/c.ts" "M " "M" None.
Definition f_a_again := mkGitChange "src/a.ts" "D " "D" None.
Definition f_z := mkGitChange "src/a.ts/z" "??" "??" None.

(** The nodes of the scenario [src/a.ts], [src/b.ts]. *)
Definition node_a : TreeNode :=
  mkTreeNode "a.ts" "src/a.ts" file None (Some f_a) (Some unstaged) 1.
Definition node_b : TreeNode :=
  mkTreeNode "b.ts" "src/b.ts" file None (Some f_b) (Some unstaged) 1.
Definition node_src : TreeNode :=
  mkTreeNode "src" "src" directory (Some [node_a; node_b]) None None 0.

(** [lib/x/y.ts] under two nested directories. *)
Definition f_y := mkGitChange "lib/x/y.ts" "??" "??" None.
Definition node_y : TreeNode :=
  mkTreeNode "y.ts" "lib/x/y.ts" file None (Some f_y) (Some unstaged) 2.
Definition node_x : TreeNode :=
  mkTreeNode "x" "lib/x" directory (Some [node_y]) None None 1.
Definition node_lib : TreeNode :=
  mkTreeNode "lib" "lib" directory (Some [node_x]) None None 0.

Definition scenario_browser : Browser :=
  mkBrowser [f_a; f_b] [] flat ∅ 0 {["src/a.ts"]}.

(** Two states that differ in the collapsed set (and hence in the index of
    the "Staged Changes" header). *)
Definition expanded_browser : Browser :=
  mkBrowser [f_a; f_b] [f_c] tree ∅ 4 {["src/a.ts"]}.

Definition collapsed_browser : Browser :=
  mkBrowser [f_a; f_b] [f_c] tree {["src"]} 2 {["src/a.ts"]}.

Definition sample_date : Date := mkDate 2025 11 28 21 29 45.

(** A multi-file export confirmed with a leading blank in the buffer. *)
Definition blank_led_env : Env := mkEnv files None 1 sample_date None.
Definition blank_led_input : InputState :=
  mkInput export_path " out.txt" 8 dump_tree.

(** ** Commits pane and diff pane *)

(** [arr.slice(from, to)] on an array. *)
Definition array_slice {A} (l : list A) (from to : Z) : list A :=
  let len := Z.of_nat (List.length l) in
  let a := JS.rel_index len from in
  let b := JS.rel_index len to in
  take (Z.to_nat (Z.max (b - a) 0)) (drop (Z.to_nat a) l).

(** The state the commits pane reads: the terminal height,
    [commits.length], [commitFocusIndex] and [commitScrollOffset]. *)
Record CommitPane := mkCommitPane {
  cp_rows : Z;
  cp_count : Z;
  commitFocusIndex : Z;
  commitScrollOffset : Z
}.

(** [Math.floor(mainAreaHeight / 4)] *)
Definition commitPaneHeight (isWarp : bool) (rows : Z) : Z :=
  mainAreaHeight isWarp rows / 4.

(** Up arrow or [k] with the commits pane focused. *)
Definition commitUp (s : CommitPane) : CommitPane :=
  let prev := commitFocusIndex s in
  let nextIndex := Z.max (prev - 1) 0 in
  mkCommitPane (cp_rows s) (cp_count s) nextIndex
    (if nextIndex <? commitScrollOffset s then nextIndex
     else commitScrollOffset s).

(** Down arrow or [j] with the commits pane focused. *)
Definition commitDown (isWarp : bool) (s : CommitPane) : CommitPane :=
  let prev := commitFocusIndex s in
  let nextIndex := Z.min (prev + 1) (cp_count s - 1) in
  let commitPaneHeight := commitPaneHeight isWarp (cp_rows s) in
  mkCommitPane (cp_rows s) (cp_count s) nextIndex
    (if nextIndex >=? commitScrollOffset s + commitPaneHeight
     then nextIndex - commitPaneHeight + 1 else commitScrollOffset s).

(** The window of the commits pane around the focus. *)
Definition commit_in_window (isWarp : bool) (s : CommitPane) : Prop :=
  0 <= commitScrollOffset s /\
  commitScrollOffset s <= commitFocusIndex s /\
  commitFocusIndex s
    <= commitScrollOffset s + commitPaneHeight isWarp (cp_rows s) - 1.

Definition SCROLL_LINES : Z := 15.

(** [diffContent.split('\n')] *)
Definition diffLines (diffContent : string) : list string :=
  JS.split "010"%char diffContent.

(** The largest offset page-down allows. *)
Definition maxScroll (isWarp : bool) (rows : Z) (diffContent : string) : Z :=
  Z.max 0 (Z.of_nat (List.length (diffLines diffContent))
           - mainAreaHeight isWarp rows).

(** Page-down: the new [diffScrollTop]. *)
Definition pageDown (isWarp : bool) (rows : Z) (diffContent : string)
    (prev : Z) : Z :=
  Z.min (prev + SCROLL_LINES) (maxScroll isWarp rows diffContent).

(** Page-up: the new [diffScrollTop]. *)
Definition pageUp (prev : Z) : Z := Z.max 0 (prev - SCROLL_LINES).

Inductive PageKey := PageDown | PageUp.

Definition page_step (isWarp : bool) (rows : Z) (diffContent : string)
    (prev : Z) (k : PageKey) : Z :=
  match k with
  | PageDown => pageDown isWarp rows diffContent prev
  | PageUp => pageUp prev
  end.

(** The lines the diff pane shows:
    [diffLines.slice(diffScrollTop, diffScrollTop + mainAreaHeight)]. *)
Definition visibleDiff (isWarp : bool) (rows : Z) (diffContent : string)
    (diffScrollTop : Z) : list string :=
  array_slice (diffLines diffContent) diffScrollTop
    (diffScrollTop + mainAreaHeight isWarp rows).

(** The rows the files pane shows:
    [allItems.slice(listScrollTop, listScrollTop + filesPaneHeight)]. *)
Definition visibleItems (isWarp : bool) (rows : Z) (items : list ListItem)
    (listScrollTop : Z) : list ListItem :=
  array_slice items listScrollTop
    (listScrollTop + filesPaneHeight isWarp rows).

(** ** Select-all key and multi-file export *)

(** The records of a list of rows' [file] properties; reading [f.path] of a
    missing one throws. *)
Fixpoint all_present {A} (l : list (option A)) : option (list A) :=
  match l with
  | [] => Some []
  | Some x :: l' => option_map (cons x) (all_present l')
  | None :: _ => None
  end.

(** [allItems.filter(item => item.type === 'file' && keep(item.group))
      .map(item => item.file)] *)
Definition row_files (keep : option Group -> bool) (items : list ListItem)
  : list (option GitChange) :=
  flat_map (fun item =>
              match item with
              | item_file f g _ => if keep g then [f] else []
              | _ => []
              end) items.

(** The [a] key: the new [selectedPaths]. On a file row the rows of the
    same group are toggled together, elsewhere all file rows are. The
    handler works on a copy of the set and calls the setter last, so when
    reading a path throws the selection is left as it is. *)
Definition pressA (b : Browser) : gset string :=
  let items := browser_items b in
  let picked :=
    match items !! focusIndex b with
    | Some (item_file _ targetGroup _) =>
        row_files (fun g => bool_decide (g = targetGroup)) items
    | _ => row_files (fun _ => true) items
    end in
  match all_present picked with
  | Some groupFiles => toggleGroup groupFiles (selectedPaths b)
  | None => selectedPaths b
  end.

(** An element of the [paths] argument of [exportMultipleDiffs]. *)
Record DiffTarget := mkTarget {
  t_path : string;
  t_staged : bool;
  t_status : string
}.

(** [filesToExport] of [handleExportMultiple]: the selected file rows, in
    row order. It is computed inside the [try]: [None] stands for the
    failure message that replaces the export when reading a path throws. *)
Fixpoint filesToExport_of (sel : gset string) (items : list ListItem)
  : option (list DiffTarget) :=
  match items with
  | [] => Some []
  | item_file None _ _ :: _ => None
  | item_file (Some f) g _ :: rest =>
      if bool_decide (path f ∈ sel) then
        option_map (cons (mkTarget (path f) (bool_decide (g = Some staged))
                            (status f)))
          (filesToExport_of sel rest)
      else filesToExport_of sel rest
  | _ :: rest => filesToExport_of sel rest
  end.

Definition filesToExport (b : Browser) : option (list DiffTarget) :=
  filesToExport_of (selectedPaths b) (browser_items b).

(** The export target of a record of a group. *)
Definition target_of (g : Group) (f : GitChange) : DiffTarget :=
  mkTarget (path f) (bool_decide (g = staged)) (status f).

(** The selected records of a list. *)
Definition selected_of (sel : gset string) (fs : list GitChange)
  : list GitChange :=
  List.filter (fun f => bool_decide (path f ∈ sel)) fs.

(** ** Git service ([GitService]) *)

(** [statusCode[0] === 'R' || statusCode[1] === 'R'] *)
Definition is_rename (statusCode : string) : bool :=
  match String.get 0 statusCode with
  | Some x => Ascii.eqb x "R"
  | None => false
  end
  || match String.get 1 statusCode with
     | Some y => Ascii.eqb y "R"
     | None => false
     end.

(** The [for] loop of [parsePorcelainZ] over [entries]; a rename takes the
    entry after it as the old path, and is pushed only when there is one. *)
Fixpoint parse_entries (entries : list string) : list GitChange :=
  match entries with
  | [] => []
  | entry :: rest =>
      if negb (JS.truthy entry) || (JS.length entry <? 3) then
        parse_entries rest
      else
        let statusCode := JS.slice entry 0 2 in
        let path := JS.slice_from entry 3 in
        if is_rename statusCode then
          match rest with
          | oldPath :: rest' =>
              if JS.truthy oldPath then
                mkGitChange path statusCode "R" (Some oldPath)
                  :: parse_entries rest'
              else parse_entries rest'
          | [] => []
          end
        else
          mkGitChange path statusCode (JS.trim statusCode) None
            :: parse_entries rest
  end.

(** [parsePorcelainZ(output)] *)
Definition parsePorcelainZ (output : string) : list GitChange :=
  if JS.truthy output then
    parse_entries
      (List.filter JS.truthy (JS.split "000"%char output))
  else [].

(** [arr.join(sep)] *)
Fixpoint array_join (sep : string) (l : list string) : string :=
  match l with
  | [] => ""
  | [s] => s
  | s :: rest => s +:+ sep +:+ array_join sep rest
  end.

Record CommitItem := mkCommit {
  hash : string;
  author : string;
  message : string;
  date : string
}.

(** The callback of [lines.map] in [getCommitHistory]: the first four
    fields of [line.split('|')], a missing one read as ['']. *)
Definition commit_of_line (line : string) : CommitItem :=
  let fields := JS.split "|"%char line in
  mkCommit (default "" (fields !! 0%nat)) (default "" (fields !! 1%nat))
    (default "" (fields !! 2%nat)) (default "" (fields !! 3%nat)).

(** [getCommitHistory] on what [git log] printed; [None] when the call
    throws, which is caught. *)
Definition getCommitHistory (output : option string) : list CommitItem :=
  match output with
  | Some output =>
      if negb (JS.truthy (JS.trim output)) then []
      else map commit_of_line (JS.split "010"%char (JS.trim output))
  | None => []
  end.

(** [p.status === '??' || p.status === '?'] *)
Definition is_untracked (p : DiffTarget) : bool :=
  bool_decide (t_status p = "??") || bool_decide (t_status p = "?").

(** The argument lists of the [git] invocations of [exportMultipleDiffs],
    in the order they are issued; [nullPath] is ['NUL'] on Windows and
    ['/dev/null'] elsewhere. *)
Definition exportMultipleDiffs_calls (nullPath : string)
    (paths : list DiffTarget) : list (list string) :=
  if (List.length paths =? 0)%nat then []
  else
    let untrackedPaths := List.filter is_untracked paths in
    let trackedPaths := List.filter (fun p => negb (is_untracked p)) paths in
    let stagedPaths := map t_path (List.filter t_staged trackedPaths) in
    let unstagedPaths :=
      map t_path (List.filter (fun p => negb (t_staged p)) trackedPaths) in
    (if (0 <? List.length unstagedPaths)%nat
     then [["diff"; "--no-color"; "--"] ++ unstagedPaths] else [])
    ++ (if (0 <? List.length stagedPaths)%nat
        then [["diff"; "--no-color"; "--cached"; "--"] ++ stagedPaths]
        else [])
    ++ map (fun p => ["diff"; "--no-color"; "--no-index"; "--"; nullPath;
                      t_path p])
         untrackedPaths.

(** Enter in normal mode: the new [collapsedDirs]. Only tree mode reacts,
    and only on a Directory row. *)
Definition pressEnter (b : Browser) : gset string :=
  match viewMode b with
  | tree =>
      match browser_items b !! focusIndex b with
      | Some (item_directory node) =>
          let dirPath := tn_path node in
          toggleCollapsed dirPath (collapsedDirs b)
      | _ => collapsedDirs b
      end
  | flat => collapsedDirs b
  end.

(** ** Code dump ([generateMergedCodebase])

    The functions of Node's [path] module the dump uses are an interface
    here; the properties hold for any implementation of it. *)
Class PathModule := {
  extname : string -> string;
  dirname : string -> string;
  basename : string -> string;
  (** [path.basename(p, ext)] *)
  basename_without : string -> string -> string;
  toLowerCase : string -> string
}.

Definition HEADER_EXTENSIONS : list string := [".h"; ".hpp"; ".hxx"; ".hh"].
Definition SOURCE_EXTENSIONS : list string := [".cpp"; ".cxx"; ".cc"; ".c"].

(** [includes] on an array of strings. *)
Definition array_includes (l : list string) (s : string) : bool :=
  bool_decide (s ∈ l).

Record FilePair := mkFilePair {
  baseName : string;
  dirPath : string;
  header : option string;
  source : option string
}.

(** An insertion-ordered [Map] with string keys: [set] on an existing key
    replaces the value where it is. *)
Fixpoint map_has {V} (k : string) (m : list (string * V)) : bool :=
  match m with
  | [] => false
  | (k', _) :: rest => if decide (k' = k) then true else map_has k rest
  end.

Fixpoint map_update {V} (k : string) (f : V -> V) (m : list (string * V))
  : list (string * V) :=
  match m with
  | [] => []
  | (k', v) :: rest =>
      if decide (k' = k) then (k', f v) :: rest
      else (k', v) :: map_update k f rest
  end.

Definition map_set {V} (k : string) (v : V) (m : list (string * V))
  : list (string * V) :=
  if map_has k m then map_update k (fun _ => v) m else m ++ [(k, v)].

Section MergedCodebase.

Context `{PathModule}.

(** The three lists the first loop fills. *)
Definition is_header (file : string) : bool :=
  array_includes HEADER_EXTENSIONS (toLowerCase (extname file)).

Definition is_source (file : string) : bool :=
  negb (is_header file)
  && array_includes SOURCE_EXTENSIONS (toLowerCase (extname file)).

Definition is_other (file : string) : bool :=
  negb (is_header file)
  && negb (array_includes SOURCE_EXTENSIONS (toLowerCase (extname file))).

(** [`${dir}|${baseName}`] *)
Definition pair_key (file : string) : string :=
  dirname file +:+ "|" +:+ basename_without file (extname file).

(** The body of the loop over [headers]. *)
Definition add_header (pairMap : list (string * FilePair))
    (headerPath : string) : list (string * FilePair) :=
  let dir := dirname headerPath in
  let baseName := basename_without headerPath (extname headerPath) in
  let key := dir +:+ "|" +:+ baseName in
  if map_has key pairMap then pairMap
  else map_set key (mkFilePair baseName dir (Some headerPath) None) pairMap.

(** The body of the loop over [sources], on [pairMap] and
    [unmatchedSources]. *)
Definition add_source (acc : list (string * FilePair) * list string)
    (sourcePath : string) : list (string * FilePair) * list string :=
  let '(pairMap, unmatchedSources) := acc in
  let key := pair_key sourcePath in
  if map_has key pairMap then
    (map_update key
       (fun pair => mkFilePair (baseName pair) (dirPath pair) (header pair)
                      (Some sourcePath)) pairMap,
     unmatchedSources)
  else (pairMap, unmatchedSources ++ [sourcePath]).

(** [dirPath.replace(/[/\\]/g, '_')] *)
Fixpoint replace_separators (s : string) : string :=
  match s with
  | EmptyString => EmptyString
  | String c s' =>
      String (if Ascii.eqb c "/" || Ascii.eqb c "\" then "_"%char else c)
        (replace_separators s')
  end.

(** [`${dir === '.' ? '' : dir.replace(/[/\\]/g, '_') + '_'}`] *)
Definition flat_prefix (dir : string) : string :=
  if decide (dir = ".") then "" else replace_separators dir +:+ "_".

(** What an output file is made of; its text is the contents of these
    files under a banner. *)
Inductive DumpEntry :=
| merged_pair (pair : FilePair)
| standalone_source (sourcePath : string)
| other_file (filePath : string).

Definition pair_output_name (mode : DumpMode) (pair : FilePair) : string :=
  match mode with
  | dump_flat =>
      flat_prefix (dirPath pair) +:+ baseName pair +:+ "_merged.cpp"
  | dump_tree => dirPath pair +:+ "/" +:+ baseName pair +:+ "_merged.cpp"
  end.

Definition file_output_name (mode : DumpMode) (file : string) : string :=
  match mode with
  | dump_flat => flat_prefix (dirname file) +:+ basename file
  | dump_tree => dirname file +:+ "/" +:+ basename file
  end.

(** The output entries in the order they are set: the pairs, the sources
    without a header, the other files. *)
Definition dump_entries (mode : DumpMode) (allFiles : list string)
  : list (string * DumpEntry) :=
  let headers := List.filter is_header allFiles in
  let sources := List.filter is_source allFiles in
  let otherFiles := List.filter is_other allFiles in
  let pairMap := fold_left add_header headers [] in
  let '(pairMap, unmatchedSources) :=
    fold_left add_source sources (pairMap, []) in
  map (fun e => (pair_output_name mode (snd e), merged_pair (snd e))) pairMap
  ++ map (fun s => (file_output_name mode s, standalone_source s))
       unmatchedSources
  ++ map (fun f => (file_output_name mode f, other_file f)) otherFiles.

(** [generateMergedCodebase(mode)] on the result of [git.getAllFiles()]:
    the map [outputFiles]. *)
Definition generateMergedCodebase (mode : DumpMode) (allFiles : list string)
  : list (string * DumpEntry) :=
  fold_left (fun outputFiles e => map_set (fst e) (snd e) outputFiles)
    (dump_entries mode allFiles) [].

End MergedCodebase.

(** ** Vocabulary of the further properties *)

(** The focus is a row of the list (row 0 of an empty list) and the window
    does not start below it. *)
Definition pane_ok (s : Pane) : Prop :=
  0 <= total s /\ 0 <= listScrollTop s /\
  listScrollTop s <= selectedIndex s /\
  selectedIndex s <= Z.max 0 (total s - 1).

(** A rebuild gives the list a length. *)
Definition event_ok (e : PaneEvent) : Prop :=
  match e with Rebuild n => 0 <= n | _ => True end.

(** What a node object of group [g] built from the records [fs] carries: a
    file object has one of the records and the group, a directory has
    neither. *)
Definition labelled (g : Group) (fs : list GitChange) (o : NodeObj) : Prop :=
  match o_type o with
  | file => ∃ f, f ∈ fs ∧ o_file o = Some f ∧ o_group o = Some g
  | directory => o_file o = None ∧ o_group o = None
  end.

(** A row is the File row of a record [f] of group [g]. *)
Definition is_file_row (row : ListItem) (g : Group) (f : GitChange) : Prop :=
  ∃ node, row = item_file (Some f) (Some g) node.

(** The state after an [a] press. *)
Definition afterA (b : Browser) : Browser :=
  mkBrowser (unstagedFiles b) (stagedFiles b) (viewMode b) (collapsedDirs b)
    (focusIndex b) (pressA b).

(** The records of the File rows whose group passes [keep], in row order. *)
Definition row_records (keep : option Group -> bool) (items : list ListItem)
  : list GitChange :=
  flat_map (fun item =>
              match item with
              | item_file (Some f) g _ => if keep g then [f] else []
              | _ => []
              end) items.

(** The groups the [a] key acts on: the group of the focused File row, and
    every group when the focus is elsewhere. *)
Definition a_scope (b : Browser) : option Group -> bool :=
  match browser_items b !! focusIndex b with
  | Some (item_file _ targetGroup _) => fun g => bool_decide (g = targetGroup)
  | _ => fun _ => true
  end.

(** The export targets of the selected File rows, in row order. *)
Definition row_targets (sel : gset string) (items : list ListItem)
  : list DiffTarget :=
  flat_map (fun item =>
              match item with
              | item_file (Some f) g _ =>
                  if bool_decide (path f ∈ sel)
                  then [mkTarget (path f) (bool_decide (g = Some staged))
                          (status f)]
                  else []
              | _ => []
              end) items.

(** Every File row has a record. *)
Definition rows_present (items : list ListItem) : Prop :=
  ∀ f g node, item_file f g node ∈ items → is_Some f.

(** The text [git status --porcelain -z] prints for a record: the two
    status letters, a blank, the path and a NUL, followed for a rename by
    the old path and a NUL. *)
Definition NUL : string := String "000"%char "".

Definition porcelain_entries (r : GitChange) : list string :=
  (statusCode r +:+ " " +:+ path r)
    :: match oldPath r with Some o => [o] | None => [] end.

Definition porcelain (rs : list GitChange) : string :=
  fold_right (fun e acc => e +:+ NUL +:+ acc) ""
    (flat_map porcelain_entries rs).

Definition nul_free (s : string) : Prop := JS.includes "000"%char s = false.

(** A record as the parser builds it: two status letters; for a rename the
    status [R] and a non-empty old path, otherwise the trimmed letters and
    no old path; no NUL inside a field. *)
Definition status_record (r : GitChange) : Prop :=
  String.length (statusCode r) = 2%nat ∧ nul_free (statusCode r) ∧
  nul_free (path r) ∧
  if is_rename (statusCode r)
  then status r = "R" ∧ ∃ o, oldPath r = Some o ∧ o ≠ "" ∧ nul_free o
  else status r = JS.trim (statusCode r) ∧ oldPath r = None.

(** A renamed record of the scenarios. *)
Definition f_renamed := mkGitChange "src/new.ts" "R " "R" (Some "src/old.ts").

(** The text [git log --pretty=format:%h|%an|%s|%ad] prints: one line per
    commit, the lines joined by line feeds. *)
Definition LF : string := String "010"%char "".

Definition log_line (c : CommitItem) : string :=
  hash c +:+ "|" +:+ author c +:+ "|" +:+ message c +:+ "|" +:+ date c.

Definition log_output (cs : list CommitItem) : string :=
  array_join LF (map log_line cs).

Definition bar_free (s : string) : Prop := JS.includes "|"%char s = false.
Definition line_free (s : string) : Prop := JS.includes "010"%char s = false.

Fixpoint no_space (s : string) : bool :=
  match s with
  | EmptyString => true
  | String c s' => negb (JS.is_space c) && no_space s'
  end.

(** A non-empty field without white space, as an abbreviated hash or a
    short date is. *)
Definition solid (s : string) : Prop := s ≠ "" ∧ no_space s = true.

(** A commit whose fields can be told apart in the log line. *)
Definition log_record (c : CommitItem) : Prop :=
  solid (hash c) ∧ solid (date c) ∧
  Forall (fun s => bar_free s ∧ line_free s)
    [hash c; author c; message c; date c].

Definition commit_1 := mkCommit "a1b2c3d" "Ada L" "Fix the scroll window" "2025-11-28".
Definition commit_2 := mkCommit "e4f5a6b" "Bo" "" "2025-11-27".

(** The paths a [git] invocation of [exportMultipleDiffs] is given: the
    arguments after [--], the null device apart. *)
Definition paths_of_call (args : list string) : list string :=
  match args with
  | _ :: _ :: "--no-index" :: _ :: _ :: ps => ps
  | _ :: _ :: "--cached" :: _ :: ps => ps
  | _ :: _ :: "--" :: ps => ps
  | _ => []
  end.

(** The number a string of decimal digits denotes. *)
Fixpoint number_from (acc : nat) (s : string) : nat :=
  match s with
  | EmptyString => acc
  | String c s' => number_from (10 * acc + (nat_of_ascii c - 48)) s'
  end.

Definition number_of (s : string) : nat := number_from 0 s.

(** The clock one second after [sample_date]. *)
Definition sample_date_later : Date := mkDate 2025 11 28 21 29 46.

(** The export routine a key press calls from the path prompt. *)
Definition prompt_call (st : InputState) (ev : Env * string * Key)
  : option ExportCall :=
  let '(env, input, key) := ev in
  match inputMode st with
  | normal => None
  | _ => snd (pathModeInput env input key st)
  end.

(** The routines called from the prompt along a run of key presses. *)
Fixpoint prompt_calls (st : InputState) (evs : list (Env * string * Key))
  : list ExportCall :=
  match evs with
  | [] => []
  | ev :: rest =>
      match prompt_call st ev with Some call => [call] | None => [] end
      ++ prompt_calls (useInput st ev) rest
  end.

(** Two key presses see the same focused pane and the same number of
    selected paths. *)
Definition same_view (e1 e2 : Env) : Prop :=
  focusPane e1 = focusPane e2 ∧ selectedCount e1 = selectedCount e2.

(** A run in which the focused pane and the selection stay as they are
    while the prompt is open: the only setters of [focusPane] and
    [selectedPaths] are in key handlers of the normal mode, which the path
    mode returns before, and the key that opens the prompt sets neither. *)
Fixpoint prompt_coherent (st : InputState) (evs : list (Env * string * Key))
  : Prop :=
  match evs with
  | [] => True
  | ev :: rest =>
      match rest with
      | ev' :: _ =>
          inputMode (useInput st ev) ≠ normal →
          same_view (fst (fst ev)) (fst (fst ev'))
      | [] => True
      end ∧ prompt_coherent (useInput st ev) rest
  end.

(** What the Enter branch of the files pane relies on when the prompt is
    open on [export_path]. *)
Definition prompt_guard (st : InputState) (env : Env) : Prop :=
  inputMode st = export_path → focusPane env = files →
  selectedCount env ≠ 0%nat.

(** [E], a typed character and Enter with one path selected. *)
Definition sample_session : list (Env * string * Key) :=
  [(blank_led_env, "E", key_plain);
   (blank_led_env, "x", key_plain);
   (blank_led_env, "", key_return)].

(** The state after Enter. *)
Definition afterEnter (b : Browser) : Browser :=
  mkBrowser (unstagedFiles b) (stagedFiles b) (viewMode b) (pressEnter b)
    (focusIndex b) (selectedPaths b).

(** Two collapsed sets that differ at most at [p]. *)
Definition agree_except (p : string) (c c' : gset string) : Prop :=
  ∀ q, q ≠ p → (q ∈ c ↔ q ∈ c').

(** A directory node, and a Directory row, of path [p]. *)
Definition dir_node (p : string) (x : TreeNode) : Prop :=
  tn_type x = directory ∧ tn_path x = p.

Definition dir_row (p : string) (row : ListItem) : Prop :=
  ∃ x, row = item_directory x ∧ tn_path x = p.

(** No element before index [i] satisfies [shown]. *)
Definition first_at {X} (shown : X → Prop) (l : list X) (i : nat) : Prop :=
  ∀ j x, (j < i)%nat → l !! j = Some x → ¬ shown x.

(** The focus on the unstaged [src] row of the three-record scenario. *)
Definition on_unstaged_src : Browser :=
  mkBrowser [f_a; f_b] [f_c] tree ∅ 1 {["src/a.ts"]}.

(** The same state with the focus on the staged [src] row, which has the
    unstaged [src] row before it. *)
Definition on_staged_src : Browser :=
  mkBrowser [f_a; f_b] [f_c] tree ∅ 5 {["src/a.ts"]}.

(** Records whose paths do not get in each other's way: every path has a
    non-empty part, no two records reach the same full path, and no
    record's full path is a directory on the way to another. *)
Definition conflict_free (files : list GitChange) : Prop :=
  Forall (fun f => path_parts (path f) ≠ []) files ∧
  NoDup (map final_path files) ∧
  ∀ f s, f ∈ files → s ∈ all_steps files → fst s ≠ final_path f.

(** The file objects of the map with the record and group they carry. *)
Definition store_files (root : RootMap)
  : list (string * option GitChange * option Group) :=
  map (fun e => (fst e, o_file (snd e), o_group (snd e))) (file_objs root).

(** The record and group of a File row. *)
Definition row_pair (row : ListItem) : list (GitChange * option Group) :=
  match row with
  | item_file (Some f) g _ => [(f, g)]
  | _ => []
  end.

(** The records and groups of the file objects that carry a record. *)
Definition store_pairs (root : RootMap) : list (GitChange * option Group) :=
  flat_map (fun e => match e with
                     | (_, Some f, g) => [(f, g)]
                     | _ => []
                     end) (store_files root).

(** Two records of the scenarios in different directories. *)
Definition conflict_free_sample : list GitChange := [f_a; f_y].

(** A run of typed inputs in a path prompt, none of them a special key. *)
Definition type_inputs (env : Env) (inputs : list string) (st : InputState)
  : InputState :=
  fold_left (fun st input => useInput st (env, input, key_plain)) inputs st.

(** [a].concat of the typed inputs. *)
Definition typed_text (inputs : list string) : string :=
  fold_right String.append "" inputs.

(** A prompt with the cursor inside the buffer. *)
Definition mid_buffer_input : InputState :=
  mkInput export_path "out.txt" 3 dump_tree.

(** The files an output entry is made of. *)
Definition entry_files (e : DumpEntry) : list string :=
  match e with
  | merged_pair fp => option_list (header fp) ++ option_list (source fp)
  | standalone_source s => [s]
  | other_file f => [f]
  end.

(** The files the pairs of a map are made of. *)
Definition pair_files (pairMap : list (string * FilePair)) : list string :=
  flat_map (fun e => entry_files (merged_pair (snd e))) pairMap.

(** The pair a header opens. *)
Definition header_pair `{PathModule} (h : string) : FilePair :=
  mkFilePair (basename_without h (extname h)) (dirname h) (Some h) None.

(** A pair as the dump builds it from the files [allFiles]: it has a
    header of the list, named after it, and its source, if any, is a source
    file of the list with the header's directory and base name. *)
Definition pair_built `{PathModule} (allFiles : list string)
    (pair : FilePair) : Prop :=
  ∃ h, header pair = Some h ∧ h ∈ allFiles ∧ is_header h = true ∧
       dirPath pair = dirname h ∧
       baseName pair = basename_without h (extname h) ∧
       ∀ s, source pair = Some s →
            s ∈ allFiles ∧ is_source s = true ∧ pair_key s = pair_key h.

(** What the loops maintain: every pair is built from a header of the
    list and stored under the header's key. *)
Definition pairs_built `{PathModule} (allFiles : list string)
    (pairMap : list (string * FilePair)) : Prop :=
  ∀ k fp, (k, fp) ∈ pairMap →
          pair_built allFiles fp ∧ ∃ h, header fp = Some h ∧ k = pair_key h.

Definition entry_built `{PathModule} (allFiles : list string)
    (e : string * DumpEntry) : Prop :=
  match snd e with
  | merged_pair fp => pair_built allFiles fp
  | standalone_source s => s ∈ allFiles ∧ is_source s = true
  | other_file f => f ∈ allFiles ∧ is_other f = true
  end.

(** An implementation of the interface for relative paths with [/] as the
    separator and no trailing separator, for the examples. *)
Fixpoint last_index (c : ascii) (s : string) : option nat :=
  match s with
  | EmptyString => None
  | String d s' =>
      match last_index c s' with
      | Some i => Some (S i)
      | None => if Ascii.eqb d c then Some 0%nat else None
      end
  end.

Definition simple_basename (p : string) : string :=
  match last_index "/" p with
  | Some i => String.substring (S i) (String.length p - S i) p
  | None => p
  end.

Definition simple_dirname (p : string) : string :=
  match last_index "/" p with
  | Some i => String.substring 0 i p
  | None => "."
  end.

Definition simple_extname (p : string) : string :=
  let b := simple_basename p in
  match last_index "." b with
  | Some (S i) => String.substring (S i) (String.length b - S i) b
  | _ => ""
  end.

Definition simple_basename_without (p ext : string) : string :=
  let b := simple_basename p in
  let n := (String.length b - String.length ext)%nat in
  if decide (ext ≠ "" ∧ String.substring n (String.length ext) b = ext
             ∧ b ≠ ext)
  then String.substring 0 n b else b.

Definition lower_ascii (c : ascii) : ascii :=
  let n := nat_of_ascii c in
  if (65 <=? n)%nat && (n <=? 90)%nat then ascii_of_nat (n + 32) else c.

Fixpoint simple_lower (s : string) : string :=
  match s with
  | EmptyString => EmptyString
  | String c s' => String (lower_ascii c) (simple_lower s')
  end.

#[local] Instance simple_paths : PathModule := {
  extname := simple_extname;
  dirname := simple_dirname;
  basename := simple_basename;
  basename_without := simple_basename_without;
  toLowerCase := simple_lower
}.

(** A small C++ tree with a header and source pair, a source on its own
    and a text file. *)
Definition sample_tree_files : list string :=
  ["README.md"; "src/app.cpp"; "src/app.h"; "src/main.cpp"].

(** The scenario with the focus on the row of [src/a.ts]. *)
Definition file_row_browser : Browser :=
  mkBrowser [f_a; f_b] [] flat ∅ 1 {["src/a.ts"]}.

(** A commits pane of a 24-row terminal with five commits. *)
Definition sample_commit_pane : CommitPane := mkCommitPane 24 5 3 0.

(** A commits pane before any commit is loaded. *)
Definition empty_commit_pane : CommitPane := mkCommitPane 24 0 0 0.

(** * Properties *)

(** ** Selection *)

Section Selection.

Implicit Types (G : list GitChange) (S : gset string).

Lemma allSelected_spec G S :
  allSelected G S = true ↔ paths_of G ⊆ S.
Proof.
  unfold allSelected, paths_of. rewrite forallb_forall.
  split.
  - intros H p Hp. apply elem_of_list_to_set, list_elem_of_fmap in Hp.
    destruct Hp as (f & -> & Hf). apply list_elem_of_In in Hf.
    apply H in Hf. by apply bool_decide_eq_true in Hf.
  - intros H f Hf. apply bool_decide_eq_true, H.
    apply elem_of_list_to_set, list_elem_of_fmap.
    exists f. split; [done|]. by apply list_elem_of_In.
Qed.

Lemma fold_delete G S :
  fold_left (fun acc f => acc ∖ {[path f]}) G S = S ∖ paths_of G.
Proof.
  revert S. induction G as [|f G IH]; intros S; simpl.
  - unfold paths_of. simpl. set_solver.
  - rewrite IH. unfold paths_of. simpl. set_solver.
Qed.

Lemma fold_add G S :
  fold_left (fun acc f => acc ∪ {[path f]}) G S = S ∪ paths_of G.
Proof.
  revert S. induction G as [|f G IH]; intros S; simpl.
  - unfold paths_of. simpl. set_solver.
  - rewrite IH. unfold paths_of. simpl. set_solver.
Qed.

Lemma toggleGroup_spec G S :
  toggleGroup G S =
    if bool_decide (paths_of G ⊆ S) then S ∖ paths_of G else S ∪ paths_of G.
Proof.
  unfold toggleGroup. destruct (allSelected G S) eqn:E.
  - apply allSelected_spec in E. rewrite bool_decide_eq_true_2 by done.
    apply fold_delete.
  - rewrite bool_decide_eq_false_2; [apply fold_add|].
    intros H. apply allSelected_spec in H. congruence.
Qed.

Lemma pressSpace_header (b : Browser) (g : Group) (n : nat) :
  browser_items b !! focusIndex b = Some (item_group (group_label g) n) →
  pressSpace b = toggleGroup (group_files g b) (selectedPaths b).
Proof.
  intros H. unfold pressSpace. rewrite H. by destruct g.
Qed.

End Selection.

(** C2. Space on a group header removes every path of the group from the
    selection when all of them are selected, and adds all of them
    otherwise: membership in the new selection is stated path by path. *)
Theorem group_toggle_all_or_nothing (b : Browser) (g : Group) (n : nat) :
  browser_items b !! focusIndex b = Some (item_group (group_label g) n) →
  let G := group_files g b in
  let S := selectedPaths b in
  ((∀ f, f ∈ G → path f ∈ S) →
     ∀ p, p ∈ pressSpace b ↔ p ∈ S ∧ ¬ ∃ f, f ∈ G ∧ path f = p) ∧
  (¬ (∀ f, f ∈ G → path f ∈ S) →
     ∀ p, p ∈ pressSpace b ↔ p ∈ S ∨ ∃ f, f ∈ G ∧ path f = p).
Proof.
  intros H G S. rewrite (pressSpace_header b g n H), toggleGroup_spec.
  fold G S.
  assert (Hin : ∀ p, p ∈ paths_of G ↔ ∃ f, f ∈ G ∧ path f = p).
  { intros p. unfold paths_of. rewrite elem_of_list_to_set, list_elem_of_fmap.
    split; intros (f & ? & ?); exists f; split; congruence. }
  assert (Hsub : paths_of G ⊆ S ↔ ∀ f, f ∈ G → path f ∈ S).
  { split.
    - intros Hs f Hf. apply Hs, Hin. by exists f.
    - intros Hs p Hp. apply Hin in Hp as (f & Hf & <-). by apply Hs. }
  split; intros Hall p.
  - rewrite bool_decide_eq_true_2 by by apply Hsub.
    rewrite elem_of_difference, Hin. done.
  - rewrite bool_decide_eq_false_2 by by rewrite Hsub.
    rewrite elem_of_union, Hin. done.
Qed.

(** The scenario of C2: with [src/a.ts] selected out of the two unstaged
    files, one press on "Changes" selects both. *)
Lemma group_toggle_scenario :
  pressSpace scenario_browser = {["src/a.ts"; "src/b.ts"]}.
Proof.
  rewrite (pressSpace_header scenario_browser unstaged 2) by reflexivity.
  rewrite toggleGroup_spec. unfold paths_of, scenario_browser. simpl.
  case_bool_decide; set_solver.
Qed.

Lemma group_toggle_all_or_nothing_witness :
  browser_items scenario_browser !! focusIndex scenario_browser
    = Some (item_group (group_label unstaged) 2) ∧
  ∀ p, p ∈ pressSpace scenario_browser ↔
       p ∈ selectedPaths scenario_browser ∨
       ∃ f, f ∈ group_files unstaged scenario_browser ∧ path f = p.
Proof.
  split; [reflexivity|].
  apply (group_toggle_all_or_nothing scenario_browser unstaged 2);
    [reflexivity|].
  intros H. specialize (H f_b). simpl in H.
  assert (Hb : path f_b ∈ ({["src/a.ts"]} : gset string)).
  { apply H. set_solver. }
  apply elem_of_singleton in Hb. discriminate Hb.
Defined.

Lemma toggleGroup_twice (G : list GitChange) (S : gset string) :
  toggleGroup G (toggleGroup G S) = S ↔
  paths_of G ⊆ S ∨ paths_of G ## S.
Proof.
  rewrite !toggleGroup_spec.
  destruct (decide (paths_of G ⊆ S)) as [Hs|Hs].
  - rewrite (bool_decide_eq_true_2 _ Hs).
    split; [by left|intros _].
    case_bool_decide; set_unfold; intros p; specialize (Hs p);
      destruct (decide (p ∈ paths_of G)); set_solver.
  - rewrite (bool_decide_eq_false_2 _ Hs).
    rewrite bool_decide_eq_true_2 by set_solver.
    split.
    + intros H. right. set_solver.
    + intros [H|H]; [done|]. set_solver.
Qed.

(** C3, as stated, fails: from the partial selection of the scenario the
    first press selects the whole group and the second press empties it,
    which loses [src/a.ts]. *)
Lemma double_toggle_counterexample :
  browser_items scenario_browser !! focusIndex scenario_browser
    = Some (item_group (group_label unstaged) 2) ∧
  pressSpace (afterSpace scenario_browser) ≠ selectedPaths scenario_browser.
Proof.
  split; [reflexivity|].
  rewrite (pressSpace_header (afterSpace scenario_browser) unstaged 2)
    by reflexivity.
  simpl group_files. simpl selectedPaths.
  rewrite (pressSpace_header scenario_browser unstaged 2) by reflexivity.
  simpl group_files. simpl selectedPaths.
  intros H. apply toggleGroup_twice in H. unfold paths_of in H. simpl in H.
  destruct H as [H|H].
  - assert (Hb : "src/b.ts" ∈ ({["src/a.ts"]} : gset string)) by set_solver.
    apply elem_of_singleton in Hb. discriminate Hb.
  - set_solver.
Qed.

(** C3, amended. Two presses on a group header give back the selection
    exactly when the group was not partially selected: either every path of
    the group was selected, or none was. *)
Theorem double_toggle_restores (b : Browser) (g : Group) (n : nat) :
  browser_items b !! focusIndex b = Some (item_group (group_label g) n) →
  let G := group_files g b in
  let S := selectedPaths b in
  pressSpace (afterSpace b) = S ↔
    (∀ f, f ∈ G → path f ∈ S) ∨ (∀ f, f ∈ G → path f ∉ S).
Proof.
  intros H G S.
  rewrite (pressSpace_header (afterSpace b) g n) by exact H.
  assert (E : group_files g (afterSpace b) = G) by by destruct g.
  rewrite E. simpl selectedPaths.
  rewrite (pressSpace_header b g n H). fold G S.
  rewrite toggleGroup_twice.
  assert (Hin : ∀ p, p ∈ paths_of G ↔ ∃ f, f ∈ G ∧ path f = p).
  { intros p. unfold paths_of. rewrite elem_of_list_to_set, list_elem_of_fmap.
    split; intros (f & ? & ?); exists f; split; congruence. }
  split; (intros [Ha|Hn]; [left|right]).
  - intros f Hf. apply Ha, Hin. by exists f.
  - intros f Hf Hs. apply (Hn (path f)); [|done]. apply Hin. by exists f.
  - intros p Hp. apply Hin in Hp as (f & Hf & <-). by apply Ha.
  - intros p Hp Hs. apply Hin in Hp as (f & Hf & <-). by apply (Hn f).
Qed.

Lemma double_toggle_restores_witness :
  let b := mkBrowser [f_a; f_b] [] flat ∅ 0 ∅ in
  browser_items b !! focusIndex b = Some (item_group (group_label unstaged) 2) ∧
  pressSpace (afterSpace b) = selectedPaths b.
Proof.
  intros b. split; [reflexivity|].
  apply (double_toggle_restores b unstaged 2); [reflexivity|].
  right. intros f _. apply not_elem_of_empty.
Defined.

(** C10. Two states with the same file lists and the same selection, each
    focused on the header of the same group, get the same selection from a
    space press whatever their collapsed sets are; it is the toggle over the
    whole list of the group. *)
Theorem group_toggle_ignores_collapse (b1 b2 : Browser) (g : Group)
    (n1 n2 : nat) :
  unstagedFiles b1 = unstagedFiles b2 →
  stagedFiles b1 = stagedFiles b2 →
  selectedPaths b1 = selectedPaths b2 →
  browser_items b1 !! focusIndex b1 = Some (item_group (group_label g) n1) →
  browser_items b2 !! focusIndex b2 = Some (item_group (group_label g) n2) →
  pressSpace b1 = pressSpace b2 ∧
  pressSpace b1 = toggleGroup (group_files g b1) (selectedPaths b1).
Proof.
  intros Hu Hs Hsel H1 H2.
  rewrite (pressSpace_header b1 g n1 H1), (pressSpace_header b2 g n2 H2).
  split; [|done]. rewrite Hsel. f_equal. destruct g; simpl; congruence.
Qed.

Lemma group_toggle_ignores_collapse_witness :
  pressSpace expanded_browser = pressSpace collapsed_browser ∧
  pressSpace expanded_browser =
    toggleGroup (group_files staged expanded_browser)
      (selectedPaths expanded_browser).
Proof.
  apply (group_toggle_ignores_collapse expanded_browser collapsed_browser
           staged 1 1); reflexivity.
Defined.

(** ** Scroll window *)

Section ScrollWindow.

Variable isWarp : bool.

Lemma mainAreaHeight_ge_3 r : 3 <= mainAreaHeight isWarp r.
Proof. unfold mainAreaHeight. lia. Qed.

Lemma filesPaneHeight_pos r : 1 <= filesPaneHeight isWarp r.
Proof.
  unfold filesPaneHeight. pose proof (mainAreaHeight_ge_3 r) as H.
  change 1 with (6 / 4). apply Z.div_le_mono; lia.
Qed.

(** The first render, [selectedIndex = listScrollTop = 0], has the focus
    in the window. *)
Lemma initial_focus_in_window r n :
  focus_in_window isWarp (mkPane r n 0 0).
Proof.
  unfold focus_in_window. simpl. pose proof (filesPaneHeight_pos r). lia.
Qed.

(** The effect changes nothing when the focus is a valid index. *)
Lemma reclampEffect_in_range s :
  0 <= selectedIndex s < total s → reclampEffect isWarp s = s.
Proof.
  intros H. unfold reclampEffect.
  destruct (Z.geb_spec (selectedIndex s) (total s)); [lia|].
  destruct (Z.eqb_spec (total s) 0); [lia|done].
Qed.

Lemma reclampEffect_idempotent s :
  reclampEffect isWarp (reclampEffect isWarp s) = reclampEffect isWarp s.
Proof.
  pose proof (mainAreaHeight_ge_3 (rows s)).
  unfold reclampEffect.
  repeat (match goal with
          | |- context [?a >=? ?b] => destruct (Z.geb_spec a b)
          | |- context [?a =? ?b] => destruct (Z.eqb_spec a b)
          end; simpl in * );
    try done; try lia; f_equal; lia.
Qed.

(** An up or down key from a state with a valid focus inside the window. *)
Lemma nav_step_in_window s e :
  0 < total s → selectedIndex s < total s → focus_in_window isWarp s →
  e = KeyUp ∨ e = KeyDown →
  let s' := pane_step isWarp s e in
  focus_in_window isWarp s' ∧
  0 <= selectedIndex s' < total s' ∧
  listScrollTop s' =
    clamp_rule (selectedIndex s') (listScrollTop s)
      (filesPaneHeight isWarp (rows s)) ∧
  total s' = total s.
Proof.
  intros Htot Hsel (H0 & H1 & H2) He.
  pose proof (filesPaneHeight_pos (rows s)) as Hh.
  destruct He as [-> | ->]; cbv zeta; unfold pane_step.
  - rewrite reclampEffect_in_range by (simpl; lia).
    unfold focus_in_window, clamp_rule, keyUp. simpl.
    destruct (Z.ltb_spec (Z.max (selectedIndex s - 1) 0) (listScrollTop s));
      [lia|].
    destruct (Z.geb_spec (Z.max (selectedIndex s - 1) 0)
                (listScrollTop s + filesPaneHeight isWarp (rows s))); lia.
  - rewrite reclampEffect_in_range by (simpl; lia).
    unfold focus_in_window, clamp_rule, keyDown. simpl.
    destruct (Z.geb_spec (Z.min (selectedIndex s + 1) (total s - 1))
                (listScrollTop s + filesPaneHeight isWarp (rows s)));
      destruct (Z.ltb_spec (Z.min (selectedIndex s + 1) (total s - 1))
                  (listScrollTop s)); lia.
Qed.

(** Any run of up and down keys from the first render of a non-empty list
    keeps the focus valid and inside the window. *)
Lemma nav_run_in_window (keys : list PaneEvent) (r n : Z) :
  0 < n → Forall (fun e => e = KeyUp ∨ e = KeyDown) keys →
  let s := fold_left (pane_step isWarp) keys (mkPane r n 0 0) in
  focus_in_window isWarp s ∧ 0 <= selectedIndex s < total s.
Proof.
  intros Hn Hkeys. cbv zeta.
  assert (Hgen : ∀ s, 0 < total s → 0 <= selectedIndex s < total s →
                      focus_in_window isWarp s →
                      focus_in_window isWarp (fold_left (pane_step isWarp) keys s) ∧
                      0 <= selectedIndex (fold_left (pane_step isWarp) keys s)
                        < total (fold_left (pane_step isWarp) keys s)).
  { induction Hkeys as [|e keys He _ IH]; intros s Ht Hs Hw; simpl; [done|].
    destruct (nav_step_in_window s e Ht (proj2 Hs) Hw He) as (Hw' & Hs' & _ & Et).
    apply IH; [lia|done..]. }
  apply Hgen; simpl; [lia..|apply initial_focus_in_window].
Qed.

End ScrollWindow.

(** C1, as stated, fails: nothing moves [listScrollTop] when the terminal
    shrinks. With 24 terminal rows the files pane shows 8 rows and row 7 is
    the last one in the window; after a resize to 12 rows the pane shows 2
    rows, the effect finds the focus in range and leaves the offset at 0. *)
Lemma scroll_invariant_counterexample :
  let s := mkPane 24 20 7 0 in
  0 < total s ∧ focus_in_window false s ∧
  pane_step false s (Resize 12) = mkPane 12 20 7 0 ∧
  ¬ focus_in_window false (pane_step false s (Resize 12)).
Proof.
  simpl. split; [lia|].
  split; [unfold focus_in_window; simpl;
          change (filesPaneHeight false 24) with 8; lia|].
  split; [reflexivity|].
  change (pane_step false (mkPane 24 20 7 0) (Resize 12))
    with (mkPane 12 20 7 0).
  unfold focus_in_window. simpl.
  change (filesPaneHeight false 12) with 2. lia.
Qed.

(** The re-clamp after a shrinking rebuild computes the offset from
    [mainAreaHeight] (16 rows here), while the pane shows
    [filesPaneHeight] rows (8 here): the focus lands on row 19 with the
    window at rows 4 to 11. *)
Lemma reclamp_after_shrink_example :
  let s := mkPane 24 30 25 18 in
  focus_in_window false s ∧
  pane_step false s (Rebuild 20) = mkPane 24 20 19 4 ∧
  filesPaneHeight false 24 = 8 ∧
  ¬ focus_in_window false (pane_step false s (Rebuild 20)).
Proof.
  simpl.
  split; [unfold focus_in_window; simpl;
          change (filesPaneHeight false 24) with 8; lia|].
  split; [reflexivity|]. split; [reflexivity|].
  change (pane_step false (mkPane 24 30 25 18) (Rebuild 20))
    with (mkPane 24 20 19 4).
  unfold focus_in_window. simpl.
  change (filesPaneHeight false 24) with 8. lia.
Qed.

(** C1, amended. From a state with rows, a valid focus and the focus in the
    window: an up or down key keeps the focus valid and in the window, and
    the new offset is the one of the update rule applied to the new focus;
    a rebuild that leaves the focus below the new row count changes neither
    the focus nor the offset; a rebuild that shrinks the row count to the
    focus or below re-clamps the focus to [max(0, totalRows - 1)]. *)
Theorem scroll_window_navigation (isWarp : bool) (s : Pane) :
  0 < total s →
  selectedIndex s < total s →
  focus_in_window isWarp s →
  (∀ e, e = KeyUp ∨ e = KeyDown →
     let s' := pane_step isWarp s e in
     focus_in_window isWarp s' ∧
     0 <= selectedIndex s' < total s' ∧
     listScrollTop s' =
       clamp_rule (selectedIndex s') (listScrollTop s)
         (filesPaneHeight isWarp (rows s))) ∧
  (∀ n, selectedIndex s < n →
     let s' := pane_step isWarp s (Rebuild n) in
     selectedIndex s' = selectedIndex s ∧
     listScrollTop s' = listScrollTop s ∧
     focus_in_window isWarp s') ∧
  (∀ n, n <= selectedIndex s →
     selectedIndex (pane_step isWarp s (Rebuild n)) = Z.max 0 (n - 1)).
Proof.
  intros Htot Hsel Hwin. pose proof Hwin as (H0 & H1 & H2).
  split; [|split].
  - intros e He.
    destruct (nav_step_in_window isWarp s e Htot Hsel Hwin He)
      as (Hw & Hs & Hrule & _).
    done.
  - intros n Hn. cbv zeta. unfold pane_step.
    rewrite reclampEffect_in_range by (simpl; lia).
    unfold focus_in_window. simpl. lia.
  - intros n Hn. unfold pane_step, reclampEffect. simpl.
    destruct (Z.geb_spec (selectedIndex s) n); [reflexivity|lia].
Qed.

Lemma scroll_window_navigation_witness :
  let s := mkPane 24 20 7 0 in
  0 < total s ∧ selectedIndex s < total s ∧ focus_in_window false s ∧
  pane_step false s KeyDown = mkPane 24 20 8 1 ∧
  focus_in_window false (pane_step false s KeyDown).
Proof.
  intros s.
  assert (H0 : 0 < total s) by (simpl; lia).
  assert (H1 : selectedIndex s < total s) by (simpl; lia).
  assert (H2 : focus_in_window false s)
    by (unfold focus_in_window; simpl;
        change (filesPaneHeight false 24) with 8; lia).
  split; [exact H0|]. split; [exact H1|]. split; [exact H2|].
  split; [reflexivity|].
  exact (proj1 (proj1 (scroll_window_navigation false s H0 H1 H2)
                  KeyDown (or_intror eq_refl))).
Defined.

(** ** Path entry *)

Section StringLengths.

Lemma length_append (a b : string) :
  String.length (a +:+ b) = (String.length a + String.length b)%nat.
Proof. induction a as [|c a IH]; simpl; [done|]. by rewrite IH. Qed.

Lemma length_substring (s : string) : ∀ n m,
  String.length (String.substring n m s)
    = Nat.min m (String.length s - n).
Proof.
  induction s as [|c s IH]; intros [|n] [|m]; simpl; try done;
    rewrite IH; lia.
Qed.

Lemma JS_length_append (a b : string) :
  JS.length (a +:+ b) = JS.length a + JS.length b.
Proof. unfold JS.length. rewrite length_append. lia. Qed.

Lemma JS_length_nonneg (s : string) : 0 <= JS.length s.
Proof. unfold JS.length. lia. Qed.

(** [s.slice(0, c)] keeps the first [c] code units. *)
Lemma JS_length_slice_to (s : string) (c : Z) :
  0 <= c <= JS.length s → JS.length (JS.slice s 0 c) = c.
Proof.
  intros H. unfold JS.slice, JS.rel_index, JS.length in *.
  rewrite length_substring.
  destruct (Z.ltb_spec 0 0); [lia|].
  destruct (Z.ltb_spec c 0); lia.
Qed.

(** [s.slice(c)] keeps what follows them. *)
Lemma JS_length_slice_from (s : string) (c : Z) :
  0 <= c <= JS.length s →
  JS.length (JS.slice_from s c) = JS.length s - c.
Proof.
  intros H. unfold JS.slice_from, JS.slice, JS.rel_index, JS.length in *.
  rewrite length_substring.
  destruct (Z.ltb_spec c 0); [lia|].
  destruct (Z.ltb_spec (Z.of_nat (String.length s)) 0); lia.
Qed.

End StringLengths.

Section PathEntry.

Implicit Types (st : InputState) (env : Env) (key : Key).

Lemma entry_in_bounds mode d : cursor_in_bounds (entryInput mode d).
Proof. unfold cursor_in_bounds. simpl. unfold JS.length. simpl. lia. Qed.

Lemma insertAtCursor_length text st :
  cursor_in_bounds st →
  JS.length (pathInput (insertAtCursor text st))
    = JS.length (pathInput st) + JS.length text.
Proof.
  intros H. unfold insertAtCursor. simpl.
  rewrite !JS_length_append, JS_length_slice_to, JS_length_slice_from
    by exact H.
  lia.
Qed.

Lemma insertAtCursor_in_bounds text st :
  cursor_in_bounds st → cursor_in_bounds (insertAtCursor text st).
Proof.
  intros H. unfold cursor_in_bounds.
  rewrite insertAtCursor_length by exact H.
  unfold insertAtCursor. simpl. pose proof (JS_length_nonneg text).
  unfold cursor_in_bounds in H. lia.
Qed.

Lemma backspace_length st :
  cursor_in_bounds st → 0 < cursorPosition st →
  JS.length (JS.slice (pathInput st) 0 (cursorPosition st - 1)
             +:+ JS.slice_from (pathInput st) (cursorPosition st))
    = JS.length (pathInput st) - 1.
Proof.
  intros H Hc. unfold cursor_in_bounds in H.
  rewrite JS_length_append, JS_length_slice_to, JS_length_slice_from; lia.
Qed.

Lemma pathModeInput_in_bounds env input key st :
  cursor_in_bounds st →
  cursor_in_bounds (fst (pathModeInput env input key st)).
Proof.
  intros H. pose proof (entry_in_bounds normal (dumpMode st)) as He.
  pose proof (entry_in_bounds (inputMode st) (dumpMode st)) as Hc.
  unfold pathModeInput.
  repeat match goal with
         | |- context [if ?b then _ else _] => destruct b eqn:?
         | |- context [match clipboard ?e with _ => _ end] =>
             destruct (clipboard e)
         end; simpl fst; try assumption;
    try (apply insertAtCursor_in_bounds; assumption);
    try (match goal with E : (_ >? 0) = true |- _ => apply Z.gtb_lt in E end;
         unfold cursor_in_bounds; simpl;
         rewrite backspace_length by (done || lia);
         unfold cursor_in_bounds in H; lia);
    unfold cursor_in_bounds in *; simpl; lia.
Qed.

Lemma normalModeInput_in_bounds env input key st :
  cursor_in_bounds st → cursor_in_bounds (normalModeInput env input key st).
Proof.
  intros H. pose proof (entry_in_bounds export_path (dumpMode st)).
  pose proof (entry_in_bounds export_overview (dumpMode st)).
  pose proof (entry_in_bounds export_code_dump dump_tree).
  unfold normalModeInput.
  repeat match goal with
         | |- context [if ?b then _ else _] => destruct b eqn:?
         | |- context [match focusPane ?e with _ => _ end] =>
             destruct (focusPane e)
         end; assumption.
Qed.

Lemma useInput_in_bounds st ev :
  cursor_in_bounds st → cursor_in_bounds (useInput st ev).
Proof.
  intros H. destruct ev as [[env input] key]. unfold useInput.
  destruct (inputMode st);
    auto using normalModeInput_in_bounds, pathModeInput_in_bounds.
Qed.

Lemma run_in_bounds evs : ∀ st,
  cursor_in_bounds st → cursor_in_bounds (fold_left useInput evs st).
Proof.
  induction evs as [|ev evs IH]; intros st H; simpl; [done|].
  by apply IH, useInput_in_bounds.
Qed.

End PathEntry.

(** C7. Whatever keys follow the entry into a path-input mode (buffer
    empty, cursor 0), the cursor stays within [0, buffer.length]. In the
    state reached: left, right, home and end move the cursor to
    [max(0, c-1)], [min(length, c+1)], [0] and [length] and leave the buffer
    alone; backspace at [c > 0] removes one code unit and moves the cursor
    to [c-1], and at [c = 0] changes nothing; typed text and a paste
    lengthen the buffer and advance the cursor by the length inserted. *)
Theorem path_entry_cursor_in_bounds (mode : InputMode) (d : DumpMode)
    (evs : list (Env * string * Key)) :
  let st := fold_left useInput evs (entryInput mode d) in
  let c := cursorPosition st in
  let len := JS.length (pathInput st) in
  (0 <= c <= len) ∧
  ∀ env input,
    let press key inp := fst (pathModeInput env inp key st) in
    (pathInput (press key_left input) = pathInput st ∧
     cursorPosition (press key_left input) = Z.max 0 (c - 1)) ∧
    (pathInput (press key_right input) = pathInput st ∧
     cursorPosition (press key_right input) = Z.min len (c + 1)) ∧
    (pathInput (press key_home input) = pathInput st ∧
     cursorPosition (press key_home input) = 0) ∧
    (pathInput (press key_end input) = pathInput st ∧
     cursorPosition (press key_end input) = len) ∧
    (if c >? 0
     then JS.length (pathInput (press key_backspace input)) = len - 1 ∧
          cursorPosition (press key_backspace input) = c - 1
     else press key_backspace input = st) ∧
    (JS.truthy input = true →
     JS.length (pathInput (press key_plain input)) = len + JS.length input ∧
     cursorPosition (press key_plain input) = c + JS.length input) ∧
    (∀ text, clipboard env = Some text →
     JS.length (pathInput (press key_ctrl "v"))
       = len + JS.length (JS.strip_newlines text) ∧
     cursorPosition (press key_ctrl "v")
       = c + JS.length (JS.strip_newlines text)) ∧
    (0 <= cursorPosition (press key_left input)
       <= JS.length (pathInput (press key_left input))) ∧
    (0 <= cursorPosition (press key_right input)
       <= JS.length (pathInput (press key_right input))).
Proof.
  intros st c len.
  assert (Hb : cursor_in_bounds st) by apply run_in_bounds, entry_in_bounds.
  split; [exact Hb|]. intros env input press.
  repeat split; try reflexivity.
  - unfold press, pathModeInput. simpl. fold c.
    destruct (Z.gtb_spec c 0) as [Hc|Hc]; [|reflexivity].
    simpl. split; [|reflexivity]. apply backspace_length; [exact Hb|lia].
  - unfold press, pathModeInput. simpl. rewrite H. simpl.
    by apply insertAtCursor_length.
  - unfold press, pathModeInput. simpl. rewrite H. reflexivity.
  - unfold press, pathModeInput. simpl. rewrite H.
    by apply insertAtCursor_length.
  - unfold press, pathModeInput. simpl. rewrite H. reflexivity.
  - unfold press. simpl. lia.
  - unfold press. simpl. unfold cursor_in_bounds in Hb. fold c len in Hb. lia.
  - unfold press. simpl. unfold cursor_in_bounds in Hb. fold c len in Hb. lia.
  - unfold press. simpl. lia.
Qed.

(** ** Confirming a path *)

Section Confirm.

Lemma digits_app n m a b :
  digits n a → digits m b → digits (n + m) (a +:+ b).
Proof.
  intros [Ha1 Ha2] [Hb1 Hb2]. split.
  - rewrite length_append. lia.
  - clear Ha1. induction a as [|c a IH]; simpl in *; [done|].
    apply andb_true_iff in Ha2 as [-> Ha2]. simpl. by apply IH.
Qed.

Lemma pad2_digits n : (n < 100)%nat → digits 2 (pad2 n).
Proof.
  intros H.
  assert (A : forallb (fun k => bool_decide (String.length (pad2 k) = 2%nat)
                                && all_digits (pad2 k)) (seq 0 100) = true)
    by (vm_compute; reflexivity).
  rewrite forallb_forall in A. specialize (A n).
  destruct (andb_prop _ _ (A ltac:(apply in_seq; lia))) as [A1 A2].
  split; [by apply bool_decide_eq_true in A1|done].
Qed.

Lemma year_digits n : (10 * 100 <= n < 100 * 100)%nat → digits 4 (JS.of_nat n).
Proof.
  intros H.
  assert (A : forallb (fun k => bool_decide (String.length (JS.of_nat k) = 4%nat)
                                && all_digits (JS.of_nat k))
                (seq (10 * 100) (90 * 100)) = true)
    by (vm_compute; reflexivity).
  rewrite forallb_forall in A. specialize (A n).
  destruct (andb_prop _ _ (A ltac:(apply in_seq; lia))) as [A1 A2].
  split; [by apply bool_decide_eq_true in A1|done].
Qed.

Lemma append_assoc (a b c : string) : (a +:+ b) +:+ c = a +:+ b +:+ c.
Proof.
  induction a as [|x a IH]; [done|].
  change (String x ((a +:+ b) +:+ c) = String x (a +:+ b +:+ c)).
  by rewrite IH.
Qed.

(** [getTimestampedFileName(prefix)] has the shape
    [prefix_YYYYMMDD_HHMMSS.txt] while the year has four digits. *)
Lemma getTimestampedFileName_pattern now pfx :
  four_digit_year now →
  timestamp_pattern pfx (getTimestampedFileName now pfx).
Proof.
  intros (Hy & Hm & Hd & Hh & Hmi & Hs).
  exists (JS.of_nat (year now) +:+ pad2 (month now + 1) +:+ pad2 (day now)),
         (pad2 (hours now) +:+ pad2 (minutes now) +:+ pad2 (seconds now)).
  split; [|split].
  - apply (digits_app 4 4); [by apply year_digits|].
    apply (digits_app 2 2); apply pad2_digits; lia.
  - apply (digits_app 2 4); [apply pad2_digits; lia|].
    apply (digits_app 2 2); apply pad2_digits; lia.
  - unfold getTimestampedFileName. by rewrite !append_assoc.
Qed.

(** Enter leaves the path-input mode with an empty buffer and the cursor
    at 0, whatever routine it calls. *)
Lemma confirm_resets env input st :
  fst (pathModeInput env input key_return st)
    = mkInput normal "" 0 (dumpMode st).
Proof. reflexivity. Qed.

(** Enter always calls an export routine from a path-input mode. *)
Lemma confirm_calls env input st :
  inputMode st ≠ normal →
  ∃ call, snd (pathModeInput env input key_return st) = Some call.
Proof.
  intros H. unfold pathModeInput. simpl. unfold confirmExport.
  destruct (inputMode st); [done|..]; try by eexists.
  destruct (focusPane env); [|by eexists].
  destruct (selectedCount env =? 0)%nat; by eexists.
Qed.

(** An empty (or blank) buffer confirmed for a multi-file export: the
    routine gets [./diff_YYYYMMDD_HHMMSS.txt]. *)
Lemma confirm_empty_multi env input st :
  inputMode st = export_path → focusPane env = files →
  selectedCount env ≠ 0%nat → JS.trim (pathInput st) = "" →
  four_digit_year (now env) →
  ∃ name, snd (pathModeInput env input key_return st)
            = Some (handleExportMultiple ("./" +:+ name)) ∧
          timestamp_pattern "diff" name.
Proof.
  intros Hm Hp Hn Ht Hy. exists (getTimestampedFileName (now env) "diff").
  split; [|by apply getTimestampedFileName_pattern].
  unfold pathModeInput. simpl. unfold confirmExport.
  rewrite Hm, Hp, Ht. simpl.
  destruct (Nat.eqb_spec (selectedCount env) 0); [done|reflexivity].
Qed.

(** With the commits pane focused the routine gets the trimmed buffer. *)
Lemma confirm_commits_trimmed env input st :
  inputMode st = export_path → focusPane env = commits →
  JS.trim (pathInput st) ≠ "" →
  snd (pathModeInput env input key_return st)
    = Some (handleExportCommits (JS.trim (pathInput st))).
Proof.
  intros Hm Hp Ht. unfold pathModeInput. simpl. unfold confirmExport.
  rewrite Hm, Hp. by destruct (decide (JS.trim (pathInput st) = "")).
Qed.

End Confirm.

(** C8 at a buffer with a leading blank. The state returns to normal with
    the buffer and cursor reset, but the multi-file export routine receives
    the buffer as typed, not its trimmed form: [trim] is only used to test
    for emptiness on this branch. *)
Theorem confirm_passes_untrimmed_path :
  pathModeInput blank_led_env "" key_return blank_led_input
    = (mkInput normal "" 0 dump_tree, Some (handleExportMultiple " out.txt")) ∧
  JS.trim (pathInput blank_led_input) = "out.txt" ∧
  (∀ env input st,
     inputMode st = export_path → focusPane env = files →
     selectedCount env ≠ 0%nat → JS.trim (pathInput st) ≠ "" →
     snd (pathModeInput env input key_return st)
       = Some (handleExportMultiple (pathInput st))).
Proof.
  split; [reflexivity|]. split; [reflexivity|].
  intros env input st Hm Hp Hn Ht. unfold pathModeInput. simpl.
  unfold confirmExport. rewrite Hm, Hp.
  destruct (decide (JS.trim (pathInput st) = "")); [done|].
  destruct (Nat.eqb_spec (selectedCount env) 0); [done|reflexivity].
Qed.

(** ** Row list *)

Section Rows.

Lemma fold_push_rows (g : Group) (records : list GitChange) :
  ∀ items,
    fold_left (fun items f => items ++ [item_file (Some f) (Some g) None])
      records items
    = items ++ map (file_row g) records.
Proof.
  induction records as [|f records IH]; intros items; simpl.
  - by rewrite app_nil_r.
  - rewrite IH. by rewrite <- app_assoc.
Qed.

Lemma push_group_flat c label g records items :
  push_group flat c label g records items
    = items ++ group_rows label records (map (file_row g) records).
Proof.
  unfold push_group. destruct records as [|f records].
  - simpl. by rewrite app_nil_r.
  - change (0 <? List.length (f :: records))%nat with true. cbv iota.
    rewrite fold_push_rows. by rewrite <- app_assoc.
Qed.

Lemma push_group_tree c label g records items :
  push_group tree c label g records items
    = items ++ group_rows label records
                 (map node_item (flattenTree (buildFileTree records g) c)).
Proof.
  unfold push_group. destruct records as [|f records].
  - simpl. by rewrite app_nil_r.
  - change (0 <? List.length (f :: records))%nat with true. cbv iota.
    by rewrite <- app_assoc.
Qed.

Lemma node_item_rows (nodes : list TreeNode) :
  Forall2 row_of_node nodes (map node_item nodes).
Proof.
  induction nodes as [|n nodes IH]; constructor; [|done].
  unfold row_of_node, node_item. by destruct (tn_type n).
Qed.

End Rows.

(** C5. In flat mode the rows are the "Changes" header and one File row
    per unstaged record, then the "Staged Changes" header and one File row
    per staged record, a group with no record contributing nothing. In tree
    mode each group with records contributes its header and, for every node
    of its flattened tree and in that order, a Directory row or a File row.
    The scenario with [src/a.ts] and [src/b.ts] gives the four rows of the
    specification, and two rows once [src] is collapsed. *)
Theorem rows_by_view_mode :
  (∀ (u s : list GitChange) (c : gset string),
     allItems u s flat c
       = group_rows "Changes" u (map (file_row unstaged) u)
         ++ group_rows "Staged Changes" s (map (file_row staged) s) ∧
     ∃ rows_u rows_s,
       allItems u s tree c
         = group_rows "Changes" u rows_u
           ++ group_rows "Staged Changes" s rows_s ∧
       Forall2 row_of_node (flattenTree (buildFileTree u unstaged) c) rows_u ∧
       Forall2 row_of_node (flattenTree (buildFileTree s staged) c) rows_s) ∧
  allItems [f_a; f_b] [] tree ∅
    = [item_group "Changes" 2; item_directory node_src;
       item_file (Some f_a) (Some unstaged) (Some node_a);
       item_file (Some f_b) (Some unstaged) (Some node_b)] ∧
  allItems [f_a; f_b] [] tree {["src"]}
    = [item_group "Changes" 2; item_directory node_src].
Proof.
  split; [|split; reflexivity].
  intros u s c. split.
  - unfold allItems. by rewrite !push_group_flat.
  - exists (map node_item (flattenTree (buildFileTree u unstaged) c)),
           (map node_item (flattenTree (buildFileTree s staged) c)).
    split; [|split; apply node_item_rows].
    unfold allItems. by rewrite !push_group_tree.
Qed.

(** ** Tree flattener *)

Section TreeInduction.

Variable P : TreeNode → Prop.
Hypothesis step : ∀ n, Forall P (node_children n) → P n.

(** Induction on a node with the property known for its children. *)
Lemma TreeNode_children_ind : ∀ n, P n.
Proof.
  fix IH 1. intros [nm p ty ch f g d]. apply step.
  unfold node_children. simpl. destruct ch as [cs|]; simpl.
  - induction cs as [|x cs IHcs].
    + apply Forall_nil_2.
    + apply Forall_cons_2; [apply IH|exact IHcs].
  - apply Forall_nil_2.
Qed.

End TreeInduction.

Section Flatten.

Implicit Types (n d : TreeNode) (nodes : list TreeNode) (c : gset string).

Lemma traverse_node_eq c n :
  traverse_node c n
    = n :: (if expanded c n then flattenTree (node_children n) c else []).
Proof.
  destruct n as [nm p ty ch f g dep]. unfold expanded, node_children. simpl.
  f_equal. destruct ty, ch as [cs|]; simpl; try done.
  - by destruct (bool_decide (p ∈ c)).
  - by destruct (bool_decide (p ∈ c)).
Qed.

Lemma flattenTree_cons c n nodes :
  flattenTree (n :: nodes) c
    = n :: (if expanded c n then flattenTree (node_children n) c else [])
        ++ flattenTree nodes c.
Proof. unfold flattenTree at 1. simpl. by rewrite traverse_node_eq. Qed.

Lemma all_nodes_eq n : all_nodes n = n :: forest_nodes (node_children n).
Proof. by destruct n as [nm p ty [cs|] f g dep]. Qed.

Lemma with_ancestors_eq anc n :
  with_ancestors anc n
    = (anc, n) :: flat_map (with_ancestors (n :: anc)) (node_children n).
Proof. by destruct n as [nm p ty [cs|] f g dep]. Qed.

Lemma wf_node_eq n :
  wf_node n = true →
  (tn_type n = file → node_children n = []) ∧
  Forall (fun x => wf_node x = true) (node_children n).
Proof.
  destruct n as [nm p ty [cs|] f g dep]; simpl; [|done].
  intros H. apply andb_true_iff in H as [Hd Hc].
  apply bool_decide_eq_true in Hd. subst ty. split; [done|].
  apply Forall_forall. intros x Hx. rewrite forallb_forall in Hc.
  by apply Hc, list_elem_of_In.
Qed.

Lemma elem_of_flat_map {A B} (f : A → list B) (l : list A) (x : B) :
  x ∈ flat_map f l ↔ ∃ y, y ∈ l ∧ x ∈ f y.
Proof.
  rewrite list_elem_of_In, in_flat_map.
  split; intros (y & Hy & Hx); exists y; split; by apply list_elem_of_In.
Qed.

Lemma elem_of_map_2 {A B} (f : A → B) (l : list A) (x : A) :
  x ∈ l → f x ∈ map f l.
Proof. rewrite !list_elem_of_In. apply in_map. Qed.

(** What is shown is part of the tree. *)
Lemma traverse_subset c n : ∀ x, x ∈ traverse_node c n → x ∈ all_nodes n.
Proof.
  induction n as [n IH] using TreeNode_children_ind. intros x.
  rewrite traverse_node_eq, all_nodes_eq, !elem_of_cons.
  intros [->|Hx]; [by left|right].
  destruct (expanded c n); [|by apply elem_of_nil in Hx].
  unfold flattenTree in Hx. unfold forest_nodes.
  apply elem_of_flat_map in Hx as (y & Hy & Hx).
  apply elem_of_flat_map. exists y. split; [done|].
  rewrite Forall_forall in IH. by apply IH.
Qed.

Lemma flatten_subset c nodes :
  ∀ x, x ∈ flattenTree nodes c → x ∈ forest_nodes nodes.
Proof.
  intros x Hx. apply elem_of_flat_map in Hx as (y & Hy & Hx).
  apply elem_of_flat_map. exists y. split; [done|].
  by apply traverse_subset in Hx.
Qed.

End Flatten.

Section FlattenCount.

Implicit Types (n d : TreeNode) (nodes : list TreeNode) (c : gset string).

Lemma flat_map_ext_Forall {A B} (f g : A → list B) (l : list A) :
  Forall (fun y => f y = g y) l → flat_map f l = flat_map g l.
Proof. induction 1 as [|y l Hy _ IH]; simpl; [done|]. by rewrite Hy, IH. Qed.

Lemma forest_nodes_cons n nodes :
  forest_nodes (n :: nodes) = all_nodes n ++ forest_nodes nodes.
Proof. reflexivity. Qed.

Lemma flattenTree_app_cons c n nodes :
  flattenTree (n :: nodes) c = traverse_node c n ++ flattenTree nodes c.
Proof. reflexivity. Qed.

(** Adding a path no node bears changes nothing. *)
Lemma traverse_add_absent c p n :
  (∀ x, x ∈ all_nodes n → tn_path x ≠ p) →
  traverse_node (c ∪ {[p]}) n = traverse_node c n.
Proof.
  induction n as [n IH] using TreeNode_children_ind. intros Hp.
  rewrite !traverse_node_eq. f_equal.
  assert (E : expanded (c ∪ {[p]}) n = expanded c n).
  { unfold expanded. f_equal. f_equal.
    assert (tn_path n ≠ p) by (apply Hp; rewrite all_nodes_eq; by left).
    apply bool_decide_ext. set_solver. }
  rewrite E. destruct (expanded c n); [|done].
  apply flat_map_ext_Forall. rewrite Forall_forall in IH |- *.
  intros y Hy. apply IH; [done|]. intros x Hx. apply Hp.
  rewrite all_nodes_eq. right. apply elem_of_flat_map. by exists y.
Qed.

Lemma flatten_add_absent c p nodes :
  (∀ x, x ∈ forest_nodes nodes → tn_path x ≠ p) →
  flattenTree nodes (c ∪ {[p]}) = flattenTree nodes c.
Proof.
  intros Hp. apply flat_map_ext_Forall, Forall_forall. intros y Hy.
  apply traverse_add_absent. intros x Hx. apply Hp.
  apply elem_of_flat_map. by exists y.
Qed.

(** With nothing collapsed below, a well-formed forest is shown whole. *)
Lemma traverse_all c n :
  wf_node n = true →
  (∀ x, x ∈ all_nodes n → tn_path x ∉ c) →
  traverse_node c n = all_nodes n.
Proof.
  induction n as [n IH] using TreeNode_children_ind. intros Hwf Hc.
  rewrite traverse_node_eq, all_nodes_eq. f_equal.
  destruct (wf_node_eq n Hwf) as [Hfile Hch].
  assert (Hrec : flattenTree (node_children n) c
                 = forest_nodes (node_children n)).
  { apply flat_map_ext_Forall. rewrite Forall_forall in IH, Hch |- *.
    intros y Hy. apply IH; [done|by apply Hch|]. intros x Hx. apply Hc.
    rewrite all_nodes_eq. right. apply elem_of_flat_map. by exists y. }
  unfold expanded. destruct (tn_type n) eqn:Ety.
  - rewrite bool_decide_eq_true_2 by done.
    rewrite bool_decide_eq_false_2; [done|].
    apply Hc. rewrite all_nodes_eq. by left.
  - rewrite bool_decide_eq_false_2 by done. simpl.
    by rewrite (Hfile eq_refl).
Qed.

Lemma flatten_all c nodes :
  Forall (fun x => wf_node x = true) nodes →
  (∀ x, x ∈ forest_nodes nodes → tn_path x ∉ c) →
  flattenTree nodes c = forest_nodes nodes.
Proof.
  intros Hwf Hc. apply flat_map_ext_Forall.
  rewrite Forall_forall in Hwf |- *. intros y Hy.
  apply traverse_all; [by apply Hwf|]. intros x Hx. apply Hc.
  apply elem_of_flat_map. by exists y.
Qed.

(** Below a collapsed ancestor nothing counts as visible. *)
Lemma blocked_chain c n : ∀ anc,
  chain_uncollapsed c anc = false →
  List.filter (fun e => chain_uncollapsed c (fst e)) (with_ancestors anc n)
    = [].
Proof.
  induction n as [n IH] using TreeNode_children_ind. intros anc Hb.
  rewrite with_ancestors_eq. simpl. rewrite Hb.
  assert (Hb' : chain_uncollapsed c (n :: anc) = false)
    by (simpl; rewrite Hb; apply andb_false_r).
  induction IH as [|y ys Hy _ IHys]; simpl; [done|].
  by rewrite List.filter_app, (Hy _ Hb'), IHys.
Qed.

Lemma visible_node c n : ∀ anc,
  wf_node n = true →
  chain_uncollapsed c anc = true →
  List.length (traverse_node c n)
    = List.length
        (List.filter (fun e => chain_uncollapsed c (fst e))
           (with_ancestors anc n)).
Proof.
  induction n as [n IH] using TreeNode_children_ind. intros anc Hwf Hanc.
  rewrite traverse_node_eq, with_ancestors_eq. simpl. rewrite Hanc. simpl.
  f_equal. destruct (wf_node_eq n Hwf) as [Hfile Hch].
  unfold expanded. destruct (tn_type n) eqn:Ety.
  - rewrite bool_decide_eq_true_2 by done. simpl.
    destruct (bool_decide (tn_path n ∈ c)) eqn:Ec; simpl.
    + assert (Hb : chain_uncollapsed c (n :: anc) = false)
        by (simpl; by rewrite Ec).
      clear IH Hch Hfile. induction (node_children n) as [|y ys IHys]; simpl; [done|].
      rewrite List.filter_app, (blocked_chain c y _ Hb). exact IHys.
    + assert (Hb : chain_uncollapsed c (n :: anc) = true)
        by (simpl; by rewrite Ec).
      unfold flattenTree. clear Hfile.
      induction IH as [|y ys Hy _ IHys]; simpl; [done|].
      apply Forall_cons in Hch as [Hwy Hwys].
      rewrite List.filter_app, !length_app, (Hy _ Hwy Hb). f_equal.
      by apply IHys.
  - rewrite bool_decide_eq_false_2 by done. simpl.
    by rewrite (Hfile eq_refl).
Qed.

(** The length of the output is the number of visible nodes. *)
Lemma flatten_length_visible c nodes :
  Forall (fun x => wf_node x = true) nodes →
  List.length (flattenTree nodes c) = visible_count c nodes.
Proof.
  unfold visible_count, flattenTree.
  induction 1 as [|y ys Hy _ IH]; simpl; [done|].
  rewrite List.filter_app, !length_app, IH. f_equal.
  by apply visible_node.
Qed.

End FlattenCount.

Section Collapse.

Variables (c : gset string) (p : string) (d : TreeNode).
Hypothesis d_dir : tn_type d = directory.
Hypothesis d_path : tn_path d = p.
Hypothesis p_open : p ∉ c.

(** [removes before after]: [after] is [before] without what the
    directory [d] shows below itself. *)
Abbreviation removes before after :=
  (List.length before
   = (List.length after + List.length (flattenTree (node_children d) c))%nat)
  (only parsing).

Lemma collapse_removes_forest_aux (l : list TreeNode) :
  Forall (fun y => NoDup (map tn_path (all_nodes y)) →
                   d ∈ traverse_node c y →
                   removes (traverse_node c y) (traverse_node (c ∪ {[p]}) y)) l →
  NoDup (map tn_path (forest_nodes l)) →
  d ∈ flattenTree l c →
  removes (flattenTree l c) (flattenTree l (c ∪ {[p]})).
Proof.
  induction 1 as [|y ys Hy _ IH]; intros Hnd Hd.
  - by apply elem_of_nil in Hd.
  - rewrite forest_nodes_cons, map_app in Hnd.
    apply NoDup_app in Hnd as (Hnd1 & Hdisj & Hnd2).
    rewrite !flattenTree_app_cons, !length_app.
    rewrite flattenTree_app_cons in Hd. apply elem_of_app in Hd as [Hd|Hd].
    + assert (Hin : p ∈ map tn_path (all_nodes y)).
      { rewrite <- d_path. apply elem_of_map_2.
        by apply (traverse_subset c). }
      rewrite (flatten_add_absent c p ys).
      * rewrite (Hy Hnd1 Hd). lia.
      * intros x Hx E. apply (Hdisj p Hin). rewrite <- E.
        by apply elem_of_map_2.
    + assert (Hin : p ∈ map tn_path (forest_nodes ys)).
      { rewrite <- d_path. apply elem_of_map_2.
        by apply (flatten_subset c). }
      rewrite (traverse_add_absent c p y).
      * rewrite (IH Hnd2 Hd). lia.
      * intros x Hx E. apply (Hdisj p); [|done]. rewrite <- E.
        by apply elem_of_map_2.
Qed.

Lemma collapse_removes_node (n : TreeNode) :
  NoDup (map tn_path (all_nodes n)) →
  d ∈ traverse_node c n →
  removes (traverse_node c n) (traverse_node (c ∪ {[p]}) n).
Proof.
  induction n as [n IH] using TreeNode_children_ind. intros Hnd Hd.
  rewrite !traverse_node_eq in *.
  apply elem_of_cons in Hd as [->|Hd].
  - assert (E1 : expanded c n = true).
    { unfold expanded. rewrite bool_decide_eq_true_2 by done.
      rewrite bool_decide_eq_false_2; [done|]. by rewrite d_path. }
    assert (E2 : expanded (c ∪ {[p]}) n = false).
    { unfold expanded. rewrite (bool_decide_eq_true_2 (tn_path n ∈ _)).
      - apply andb_false_r.
      - rewrite d_path. set_solver. }
    rewrite E1, E2. simpl. lia.
  - destruct (expanded c n) eqn:E1; [|by apply elem_of_nil in Hd].
    rewrite all_nodes_eq in Hnd. simpl in Hnd.
    apply NoDup_cons in Hnd as [Hn Hnd].
    assert (Hne : tn_path n ≠ p).
    { intros E. apply Hn. rewrite E, <- d_path.
      apply elem_of_map_2. by apply (flatten_subset c). }
    assert (E2 : expanded (c ∪ {[p]}) n = true).
    { unfold expanded in *. apply andb_true_iff in E1 as [-> E1]. simpl.
      apply negb_true_iff, bool_decide_eq_false in E1.
      apply negb_true_iff, bool_decide_eq_false. set_solver. }
    rewrite E2. simpl.
    pose proof (collapse_removes_forest_aux _ IH Hnd Hd) as H.
    lia.
Qed.

(** Collapsing a shown, expanded directory whose path no other node bears
    removes what it showed below itself. *)
Lemma collapse_removes_forest (nodes : list TreeNode) :
  NoDup (map tn_path (forest_nodes nodes)) →
  d ∈ flattenTree nodes c →
  List.length (flattenTree nodes c)
    = (List.length (flattenTree nodes (c ∪ {[p]}))
       + List.length (flattenTree (node_children d) c))%nat.
Proof.
  intros Hnd Hd.
  apply (collapse_removes_forest_aux nodes); [|done..].
  apply Forall_forall. intros y _. apply collapse_removes_node.
Qed.

End Collapse.

Lemma toggleCollapsed_twice (p : string) (c : gset string) :
  toggleCollapsed p (toggleCollapsed p c) = c.
Proof.
  unfold toggleCollapsed. destruct (decide (p ∈ c)) as [H|H].
  - rewrite (bool_decide_eq_true_2 _ H).
    rewrite bool_decide_eq_false_2 by set_solver.
    apply set_eq. intros x. destruct (decide (x = p)); set_solver.
  - rewrite (bool_decide_eq_false_2 _ H).
    rewrite bool_decide_eq_true_2 by set_solver. set_solver.
Qed.

Lemma wf_forest (nodes : list TreeNode) :
  Forall (fun x => wf_node x = true) nodes →
  ∀ x, x ∈ forest_nodes nodes → wf_node x = true.
Proof.
  intros Hwf x Hx. apply elem_of_flat_map in Hx as (y & Hy & Hx).
  rewrite Forall_forall in Hwf. specialize (Hwf y Hy). clear Hy nodes.
  revert x Hx Hwf. induction y as [y IH] using TreeNode_children_ind.
  intros x Hx Hwf. rewrite all_nodes_eq in Hx.
  apply elem_of_cons in Hx as [->|Hx]; [done|].
  apply elem_of_flat_map in Hx as (z & Hz & Hx).
  destruct (wf_node_eq y Hwf) as [_ Hch].
  rewrite Forall_forall in IH, Hch. by apply (IH z Hz x Hx), Hch.
Qed.

(** C4, as stated, fails on the count: with [lib/x] already collapsed the
    directory [lib] shows one node below itself although it has two
    descendants, so collapsing [lib] removes one row, not two. *)
Lemma collapse_count_counterexample :
  let c : gset string := {["lib/x"]} in
  buildFileTree [f_y] unstaged = [node_lib] ∧
  node_lib ∈ flattenTree [node_lib] c ∧
  (tn_path node_lib ∉ c) ∧
  descendant_count node_lib = 2%nat ∧
  flattenTree [node_lib] c = [node_lib; node_x] ∧
  flattenTree [node_lib] (c ∪ {[tn_path node_lib]}) = [node_lib] ∧
  List.length (flattenTree [node_lib] (c ∪ {[tn_path node_lib]}))
    ≠ (List.length (flattenTree [node_lib] c) - descendant_count node_lib)%nat.
Proof.
  assert (E1 : flattenTree [node_lib] {["lib/x"]} = [node_lib; node_x])
    by reflexivity.
  assert (E2 : flattenTree [node_lib] ({["lib/x"]} ∪ {[tn_path node_lib]})
               = [node_lib]) by reflexivity.
  cbv zeta. rewrite E1, E2. split; [reflexivity|].
  split; [by left|]. split; [|repeat split; done].
  intros H. apply elem_of_singleton in H. discriminate H.
Qed.

(** C4, amended. For a forest of the data model (children on directories
    only, one node per path): flattening is the pre-order traversal that
    enters a directory exactly when its path is not collapsed; the length of
    the output is the number of nodes whose whole ancestor chain is
    uncollapsed; collapsing a directory that is shown and expanded removes
    from the output the nodes it showed below itself, which are all its
    descendants when none of them is collapsed; and expanding it again gives
    the same output. *)
Theorem flatten_collapse_roundtrip (nodes : list TreeNode) (c : gset string) :
  Forall (fun x => wf_node x = true) nodes →
  NoDup (map tn_path (forest_nodes nodes)) →
  (∀ n rest,
     flattenTree (n :: rest) c
       = n :: (if expanded c n then flattenTree (node_children n) c else [])
           ++ flattenTree rest c) ∧
  List.length (flattenTree nodes c) = visible_count c nodes ∧
  ∀ d, d ∈ flattenTree nodes c → tn_type d = directory → tn_path d ∉ c →
    let c' := toggleCollapsed (tn_path d) c in
    c' = c ∪ {[tn_path d]} ∧
    List.length (flattenTree nodes c')
      = (List.length (flattenTree nodes c)
         - visible_count c (node_children d))%nat ∧
    visible_count c (node_children d)
      = List.length (flattenTree (node_children d) c) ∧
    ((∀ x, x ∈ forest_nodes (node_children d) → tn_path x ∉ c) →
     visible_count c (node_children d) = descendant_count d) ∧
    flattenTree nodes (toggleCollapsed (tn_path d) c') = flattenTree nodes c.
Proof.
  intros Hwf Hnd. split; [intros n rest; apply flattenTree_cons|].
  split; [by apply flatten_length_visible|].
  intros d Hd Hdir Hopen c'.
  assert (Hwd : Forall (fun x => wf_node x = true) (node_children d)).
  { apply wf_node_eq, (wf_forest nodes Hwf), (flatten_subset c), Hd. }
  assert (Ec : c' = c ∪ {[tn_path d]}).
  { unfold c', toggleCollapsed. by rewrite bool_decide_eq_false_2. }
  assert (Ev : visible_count c (node_children d)
               = List.length (flattenTree (node_children d) c))
    by (symmetry; by apply flatten_length_visible).
  split; [exact Ec|]. split; [|split; [exact Ev|split]].
  - rewrite Ec, Ev.
    rewrite (collapse_removes_forest c (tn_path d) d Hdir eq_refl Hopen nodes
               Hnd Hd).
    lia.
  - intros Hnone. rewrite Ev. unfold descendant_count.
    by rewrite flatten_all.
  - unfold c'. by rewrite toggleCollapsed_twice.
Qed.

Lemma flatten_collapse_roundtrip_witness :
  Forall (fun x => wf_node x = true) [node_lib] ∧
  NoDup (map tn_path (forest_nodes [node_lib])) ∧
  List.length (flattenTree [node_lib] ∅) = visible_count ∅ [node_lib] ∧
  List.length (flattenTree [node_lib] (toggleCollapsed "lib/x" ∅)) = 2%nat.
Proof.
  assert (Hwf : Forall (fun x => wf_node x = true) [node_lib])
    by (repeat constructor).
  assert (Hnd : NoDup (map tn_path (forest_nodes [node_lib])))
    by (simpl; repeat constructor; set_solver).
  split; [exact Hwf|]. split; [exact Hnd|].
  destruct (flatten_collapse_roundtrip [node_lib] ∅ Hwf Hnd) as (_ & Hlen & Hc).
  split; [exact Hlen|].
  assert (Hx : node_x ∈ flattenTree [node_lib] ∅) by (right; left).
  destruct (Hc node_x Hx eq_refl (not_elem_of_empty _)) as (_ & H & _).
  simpl tn_path in H. rewrite H. reflexivity.
Defined.

(** ** Tree builder *)

Section RootMapFacts.

Implicit Types (root : RootMap) (k : string) (o : NodeObj).

Lemma root_has_true k root : root_has k root = true ↔ k ∈ root_keys root.
Proof. unfold root_has. apply bool_decide_eq_true. Qed.

Lemma root_has_false k root : root_has k root = false ↔ k ∉ root_keys root.
Proof. unfold root_has. apply bool_decide_eq_false. Qed.

Lemma root_keys_app root1 root2 :
  root_keys (root1 ++ root2) = root_keys root1 ++ root_keys root2.
Proof. apply map_app. Qed.

Lemma root_update_keys k f root :
  root_keys (root_update k f root) = root_keys root.
Proof.
  induction root as [|[k' o] root IH]; simpl; [done|].
  destruct (decide (k' = k)); simpl; [done|]. by rewrite IH.
Qed.

Lemma root_update_app k f root1 root2 :
  k ∈ root_keys root1 →
  root_update k f (root1 ++ root2) = root_update k f root1 ++ root2.
Proof.
  induction root1 as [|[k' o] root1 IH]; simpl; intros Hk.
  - by apply elem_of_nil in Hk.
  - destruct (decide (k' = k)); [done|]. simpl. f_equal. apply IH.
    apply elem_of_cons in Hk as [Hk|Hk]; [congruence|done].
Qed.

Lemma root_update_absent k f root :
  k ∉ root_keys root → root_update k f root = root.
Proof.
  induction root as [|[k' o] root IH]; simpl; intros Hk; [done|].
  destruct (decide (k' = k)) as [->|Hne].
  - exfalso. apply Hk. by left.
  - f_equal. apply IH. intros H. apply Hk. by right.
Qed.

(** Updating with a function that leaves the stored object alone. *)
Lemma root_update_id k f root :
  (∀ o, root_get k root = Some o → f o = o) → root_update k f root = root.
Proof.
  induction root as [|[k' o] root IH]; simpl; intros Hf; [done|].
  destruct (decide (k' = k)).
  - by rewrite Hf.
  - f_equal. by apply IH.
Qed.

Lemma root_get_Some k root o :
  root_get k root = Some o → (k, o) ∈ root.
Proof.
  induction root as [|[k' o'] root IH]; simpl; [done|].
  destruct (decide (k' = k)) as [->|Hne].
  - intros [= ->]. by left.
  - intros H. right. by apply IH.
Qed.

Lemma root_get_None k root : root_get k root = None ↔ k ∉ root_keys root.
Proof.
  induction root as [|[k' o'] root IH]; simpl.
  - split; [intros _ H; by apply elem_of_nil in H|done].
  - destruct (decide (k' = k)) as [->|Hne].
    + split; [done|]. intros H. exfalso. apply H. by left.
    + rewrite IH. split; intros H.
      * intros Hk. apply elem_of_cons in Hk as [Hk|Hk]; [congruence|done].
      * intros Hk. apply H. by right.
Qed.

(** With distinct keys an entry is what [get] returns. *)
Lemma root_get_elem k o root :
  NoDup (root_keys root) → (k, o) ∈ root → root_get k root = Some o.
Proof.
  induction root as [|[k' o'] root IH]; simpl; intros Hnd Hin.
  - by apply elem_of_nil in Hin.
  - apply NoDup_cons in Hnd as [Hk Hnd].
    apply elem_of_cons in Hin as [Heq|Hin].
    + injection Heq as <- <-. by destruct (decide (k = k)).
    + destruct (decide (k' = k)) as [->|Hne]; [|by apply IH].
      exfalso. apply Hk. by apply (elem_of_map_2 fst _ (k, o)).
Qed.

(** The entries after an update, with distinct keys. *)
Lemma root_update_elem k f root k' o' :
  NoDup (root_keys root) →
  (k', o') ∈ root_update k f root ↔
  (k' ≠ k ∧ (k', o') ∈ root) ∨ (k' = k ∧ ∃ o, (k, o) ∈ root ∧ o' = f o).
Proof.
  induction root as [|[k0 o0] root IH]; simpl; intros Hnd.
  - split; [intros H; by apply elem_of_nil in H|].
    intros [[_ H]|[_ (o & H & _)]]; by apply elem_of_nil in H.
  - apply NoDup_cons in Hnd as [Hk Hnd].
    assert (Hfresh : ∀ o, (k0, o) ∉ root).
    { intros o H. apply Hk. by apply (elem_of_map_2 fst _ (k0, o)). }
    destruct (decide (k0 = k)) as [->|Hne].
    + rewrite !elem_of_cons. split.
      * intros [Heq|H].
        -- injection Heq as -> ->. right. split; [done|].
           exists o0. split; [by left|done].
        -- left. split; [|by right]. intros ->. by apply (Hfresh o').
      * intros [[Hne [Heq|H]]|[-> (o & H & ->)]].
        -- by injection Heq as -> ->.
        -- by right.
        -- apply elem_of_cons in H as [Heq|H].
           ++ injection Heq as ->. by left.
           ++ by apply Hfresh in H.
    + rewrite !elem_of_cons, (IH Hnd). split.
      * intros [Heq|[[Hk' H]|[-> (o & H & ->)]]].
        -- injection Heq as -> ->. left. split; [done|by left].
        -- left. split; [done|by right].
        -- right. split; [done|]. exists o. split; [by right|done].
      * intros [[Hk' [Heq|H]]|[-> (o & H & ->)]].
        -- by left.
        -- right. left. by split.
        -- right. right. split; [done|].
           apply elem_of_cons in H as [Heq|H].
           ++ injection Heq as E _. congruence.
           ++ by exists o.
Qed.

End RootMapFacts.

Section FirstSeen.

Implicit Types (S : list (string * string)) (s : string * string).

Lemma first_seen_snoc S s : first_seen (S ++ [s]) = see (first_seen S) s.
Proof. unfold first_seen. by rewrite fold_left_app. Qed.

Lemma first_seen_NoDup S : NoDup (map snd (first_seen S)).
Proof.
  induction S as [|s S IH] using rev_ind; [constructor|].
  rewrite first_seen_snoc. unfold see. case_bool_decide as Hs; [done|].
  rewrite map_app. apply NoDup_app. split; [done|]. split.
  - intros x Hx Hx'. simpl in Hx'. apply list_elem_of_singleton in Hx'.
    by subst x.
  - simpl. apply NoDup_singleton.
Qed.

Lemma first_seen_subset S s : s ∈ first_seen S → s ∈ S.
Proof.
  induction S as [|s' S IH] using rev_ind; [done|].
  rewrite first_seen_snoc. unfold see. rewrite elem_of_app.
  case_bool_decide as Hc; [by left; apply IH|].
  rewrite elem_of_app. intros [Hs|Hs]; [left; by apply IH|by right].
Qed.

End FirstSeen.

Section StoreInvariant.

Implicit Types (root : RootMap) (S : list (string * string)).

Lemma join_path_truthy par part :
  JS.truthy part = true → JS.truthy (join_path par part) = true.
Proof.
  intros H. unfold join_path. destruct par as [|c par]; simpl; [done|].
  reflexivity.
Qed.

Lemma truthy_false s : JS.truthy s = false ↔ s = "".
Proof. by destruct s. Qed.

Lemma store_inv_NoDup root S : store_inv root S → NoDup (root_keys root).
Proof. intros H. rewrite (inv_keys _ _ H). apply first_seen_NoDup. Qed.

Lemma store_inv_parent root S s :
  store_inv root S → s ∈ first_seen S → fst s = "" ∨ fst s ∈ root_keys root.
Proof.
  intros H Hs. apply list_elem_of_split in Hs as (pre & post & E).
  destruct (inv_order _ _ H pre s post E) as [H0|H0]; [by left|right].
  rewrite (inv_keys _ _ H), E, map_app. apply elem_of_app. by left.
Qed.

Lemma store_inv_empty : store_inv [] [].
Proof.
  split; simpl; try done.
  - intros k o H. by apply elem_of_nil in H.
  - intros k o cs H. by apply elem_of_nil in H.
  - intros pre s post H. by destruct pre.
  - intros H. by apply elem_of_nil in H.
  - intros k o H. by apply elem_of_nil in H.
Qed.

Lemma visit_part_old f g len i part par root :
  join_path par part ∈ root_keys root →
  visit_part f g len i part par root = root.
Proof.
  intros H. unfold visit_part. by rewrite (proj2 (root_has_true _ _) H).
Qed.

Lemma root_get_app_l k root1 root2 :
  k ∈ root_keys root1 → root_get k (root1 ++ root2) = root_get k root1.
Proof.
  induction root1 as [|[k' o] root1 IH]; simpl; intros Hk.
  - by apply elem_of_nil in Hk.
  - destruct (decide (k' = k)); [done|]. apply IH.
    apply elem_of_cons in Hk as [Hk|Hk]; [congruence|done].
Qed.

(** The map after a step that creates an object: the parent, when there is
    one, gets the new reference, and the object goes last. *)
Lemma visit_part_new f g len i part par root :
  join_path par part ∉ root_keys root →
  "" ∉ root_keys root →
  par = "" ∨ par ∈ root_keys root →
  visit_part f g len i part par root
    = root_update par (push_child (join_path par part)) root
      ++ [(join_path par part, created f g len i part par)].
Proof.
  intros Hcur Hne Hpar. unfold visit_part.
  rewrite (proj2 (root_has_false _ _) Hcur).
  unfold root_set. rewrite (proj2 (root_has_false _ _) Hcur).
  fold (created f g len i part par).
  destruct Hpar as [->|Hpar].
  - simpl. by rewrite root_update_absent.
  - assert (Ht : JS.truthy par = true).
    { destruct par; [|done]. by exfalso. }
    rewrite Ht. simpl.
    assert (Hh : root_has par
                   (root ++ [(join_path par part, created f g len i part par)])
                 = true).
    { apply root_has_true. rewrite root_keys_app. apply elem_of_app. by left. }
    rewrite Hh, root_get_app_l by done.
    destruct (root_get par root) as [parent|] eqn:Eg.
    + destruct (o_children parent) as [cs|] eqn:Ec.
      * by apply root_update_app.
      * rewrite root_update_id; [done|]. intros o Ho.
        assert (o = parent) by congruence. subst o.
        unfold push_child. by rewrite Ec.
    + apply root_get_None in Eg. done.
Qed.

End StoreInvariant.

Section StoreStep.

Implicit Types (root : RootMap) (S : list (string * string)).

Lemma filter_none {A} (f : A → bool) (l : list A) :
  (∀ x, x ∈ l → f x = false) → List.filter f l = [].
Proof.
  induction l as [|x l IH]; simpl; intros H; [done|].
  rewrite (H x) by by left. apply IH. intros y Hy. apply H. by right.
Qed.

Lemma snoc_split {A} (l pre post : list A) (x y : A) :
  l ++ [x] = pre ++ y :: post →
  (post = [] ∧ l = pre ∧ x = y) ∨
  (∃ post', post = post' ++ [x] ∧ l = pre ++ y :: post').
Proof.
  destruct post as [|z post _] using rev_ind; intros E.
  - left. apply app_inj_tail in E as [-> ->]. done.
  - right. exists post.
    change (l ++ [x] = pre ++ (y :: post) ++ [z]) in E.
    rewrite app_assoc in E. apply app_inj_tail in E as [-> ->]. done.
Qed.

Lemma push_child_path r o : o_path (push_child r o) = o_path o.
Proof. unfold push_child. by destruct (o_children o). Qed.

Lemma push_child_type r o : o_type (push_child r o) = o_type o.
Proof. unfold push_child. by destruct (o_children o). Qed.

Lemma push_child_children r o :
  o_children (push_child r o) = (fun cs => cs ++ [r]) <$> o_children o.
Proof. unfold push_child. by destruct (o_children o) eqn:E; simpl; rewrite ?E. Qed.

Lemma visit_part_inv f g len i part par root S :
  store_inv root S →
  JS.truthy part = true →
  par = "" ∨ par ∈ root_keys root →
  store_inv (visit_part f g len i part par root)
    (S ++ [(par, join_path par part)]).
Proof.
  intros H Hpart Hpar. set (cur := join_path par part).
  pose proof (store_inv_NoDup _ _ H) as Hnd.
  assert (Hcur0 : cur ≠ "").
  { intros E. pose proof (join_path_truthy par part Hpart) as Ht.
    fold cur in Ht. by rewrite E in Ht. }
  destruct (decide (cur ∈ root_keys root)) as [Hin|Hnew].
  - (* the path is known: nothing is created *)
    rewrite visit_part_old by done.
    assert (E : first_seen (S ++ [(par, cur)]) = first_seen S).
    { rewrite first_seen_snoc. unfold see. simpl.
      rewrite bool_decide_eq_true_2; [done|]. by rewrite <- (inv_keys _ _ H). }
    destruct H as [H1 H2 H3 H4 H5 H6].
    split; rewrite ?E; done.
  - (* a new object, stored last and linked to its parent *)
    rewrite visit_part_new by (done || apply (inv_nonempty _ _ H)).
    fold cur.
    assert (E : first_seen (S ++ [(par, cur)]) = first_seen S ++ [(par, cur)]).
    { rewrite first_seen_snoc. unfold see. simpl.
      rewrite bool_decide_eq_false_2; [done|]. by rewrite <- (inv_keys _ _ H). }
    assert (Hparcur : par ≠ cur).
    { intros Epc. destruct Hpar as [Hp|Hp]; [congruence|]. by rewrite Epc in Hp. }
    assert (Helem : ∀ k o,
      (k, o) ∈ root_update par (push_child cur) root
                 ++ [(cur, created f g len i part par)] →
      (k ≠ par ∧ k ≠ cur ∧ (k, o) ∈ root) ∨
      (k = par ∧ ∃ o0, (par, o0) ∈ root ∧ o = push_child cur o0) ∨
      (k = cur ∧ o = created f g len i part par)).
    { intros k o Hk. apply elem_of_app in Hk as [Hk|Hk].
      - apply root_update_elem in Hk as [[Hne Hk]|[-> Hk]]; [|by right; left|done].
        left. split; [done|]. split; [|done]. intros ->. apply Hnew.
        by apply (elem_of_map_2 fst _ (cur, o)).
      - apply list_elem_of_singleton in Hk. injection Hk as -> ->.
        by right; right. }
    split.
    + rewrite E, map_app, root_keys_app, root_update_keys.
      by rewrite (inv_keys _ _ H).
    + intros k o Hk. apply Helem in Hk as [(_ & _ & Hk)|[[-> (o0 & Hk & ->)]|[-> ->]]].
      * by apply (inv_path _ _ H).
      * rewrite push_child_path. by apply (inv_path _ _ H).
      * reflexivity.
    + intros k o cs Hk Hcs. rewrite E, List.filter_app, map_app. simpl.
      apply Helem in Hk as [(Hk1 & _ & Hk)|[[-> (o0 & Hk & ->)]|[-> ->]]].
      * rewrite bool_decide_eq_false_2 by congruence. simpl.
        rewrite app_nil_r. by apply (inv_children _ _ H k o).
      * rewrite bool_decide_eq_true_2 by done. simpl.
        rewrite push_child_children in Hcs.
        destruct (o_children o0) as [cs0|] eqn:E0; [|done].
        injection Hcs as <-. f_equal. by apply (inv_children _ _ H par o0).
      * rewrite bool_decide_eq_false_2 by done. simpl. rewrite app_nil_r.
        rewrite filter_none.
        -- unfold created in Hcs. simpl in Hcs.
           destruct (bool_decide (i = (len - 1)%nat)); [done|].
           by injection Hcs as <-.
        -- intros s Hs. apply bool_decide_eq_false. intros Es.
           destruct (store_inv_parent _ _ s H Hs) as [H0|H0]; congruence.
    + intros pre s post Hsplit. rewrite E in Hsplit.
      apply snoc_split in Hsplit as [(-> & <- & <-)|(post' & -> & Hsplit)].
      * simpl. destruct Hpar as [Hp|Hp]; [by left|right].
        by rewrite <- (inv_keys _ _ H).
      * by apply (inv_order _ _ H pre s post').
    + rewrite root_keys_app, root_update_keys. simpl. intros H0.
      apply elem_of_app in H0 as [H0|H0].
      * by apply (inv_nonempty _ _ H).
      * apply list_elem_of_singleton in H0. congruence.
    + intros k o Hk.
      apply Helem in Hk as [(_ & _ & Hk)|[[-> (o0 & Hk & ->)]|[-> ->]]].
      * by apply (inv_kind _ _ H k).
      * rewrite push_child_type, push_child_children, fmap_is_Some.
        by apply (inv_kind _ _ H par).
      * unfold created. simpl.
        destruct (bool_decide (i = (len - 1)%nat)); simpl.
        -- split; [done|]. intros [? ?]. done.
        -- split; [by eexists|done].
Qed.

End StoreStep.

Section BuildInvariant.

Implicit Types (root : RootMap) (S : list (string * string)).

Lemma first_seen_covers S s : s ∈ S → snd s ∈ map snd (first_seen S).
Proof.
  induction S as [|s' S IH] using rev_ind; [intros H; by apply elem_of_nil in H|].
  rewrite first_seen_snoc. unfold see. intros Hs.
  apply elem_of_app in Hs as [Hs|Hs].
  - case_bool_decide as Hc; [by apply IH|].
    rewrite map_app. apply elem_of_app. left. by apply IH.
  - apply list_elem_of_singleton in Hs. subst s'.
    case_bool_decide as Hc; [done|].
    rewrite map_app. apply elem_of_app. right. by left.
Qed.

Lemma walk_parts_inv f g len parts : ∀ i cur root S,
  store_inv root S →
  cur = "" ∨ cur ∈ root_keys root →
  store_inv (walk_parts f g len i parts cur root)
    (S ++ steps_of_parts cur parts).
Proof.
  induction parts as [|part parts IH]; intros i cur root S H Hcur; simpl.
  - by rewrite app_nil_r.
  - destruct (JS.truthy part) eqn:Ht; [|by apply IH].
    pose proof (visit_part_inv f g len i part cur root S H Ht Hcur) as H'.
    change (S ++ (cur, join_path cur part)
              :: steps_of_parts (join_path cur part) parts)
      with (S ++ [(cur, join_path cur part)]
              ++ steps_of_parts (join_path cur part) parts).
    rewrite app_assoc. apply IH; [done|]. right.
    rewrite (inv_keys _ _ H').
    apply (first_seen_covers _ (cur, join_path cur part)).
    apply elem_of_app. right. by left.
Qed.

Lemma add_file_inv g f root S :
  store_inv root S → store_inv (add_file g root f) (S ++ file_steps f).
Proof. intros H. apply walk_parts_inv; [done|by left]. Qed.

Lemma fold_add_file_inv g files : ∀ root S,
  store_inv root S →
  store_inv (fold_left (add_file g) files root) (S ++ all_steps files).
Proof.
  induction files as [|f files IH]; intros root S H; simpl.
  - by rewrite app_nil_r.
  - unfold all_steps. simpl. rewrite app_assoc. apply IH.
    by apply add_file_inv.
Qed.

(** The invariant holds of the map the builder ends with. *)
Lemma build_root_inv files g :
  store_inv (build_root files g) (all_steps files).
Proof. apply (fold_add_file_inv g files [] []), store_inv_empty. Qed.

End BuildInvariant.

Section Reify.

Implicit Types (root : RootMap) (tbl : list (string * TreeNode)).

Lemma reify_keys root : map fst (reify root) = root_keys root.
Proof.
  induction root as [|[k o] root IH]; simpl; [done|]. by rewrite IH.
Qed.

(** A reified node comes from an entry of the map and is built over the
    entries after it. *)
Lemma reify_elem root k n :
  (k, n) ∈ reify root →
  ∃ pre o post, root = pre ++ (k, o) :: post ∧ n = reify_obj (reify post) o.
Proof.
  induction root as [|[k' o'] root IH]; simpl; intros H.
  - by apply elem_of_nil in H.
  - apply elem_of_cons in H as [H|H].
    + injection H as -> ->. by exists [], o', root.
    + destruct (IH H) as (pre & o & post & -> & ->).
      by exists ((k', o') :: pre), o, post.
Qed.

Lemma tbl_get_Some tbl k n : tbl_get k tbl = Some n → (k, n) ∈ tbl.
Proof.
  induction tbl as [|[k' n'] tbl IH]; simpl; [done|].
  destruct (decide (k' = k)) as [->|Hne].
  - intros [= ->]. by left.
  - intros H. right. by apply IH.
Qed.

Lemma tbl_get_is_Some tbl k : k ∈ map fst tbl → is_Some (tbl_get k tbl).
Proof.
  induction tbl as [|[k' n'] tbl IH]; simpl; intros H.
  - by apply elem_of_nil in H.
  - destruct (decide (k' = k)); [by eexists|]. apply IH.
    apply elem_of_cons in H as [H|H]; [congruence|done].
Qed.

Lemma omap_paths (get : string → option TreeNode) (cs : list string) :
  (∀ r, r ∈ cs → ∃ m, get r = Some m ∧ tn_path m = r) →
  map tn_path (omap get cs) = cs.
Proof.
  induction cs as [|r cs IH]; simpl; intros H; [done|].
  destruct (H r) as (m & -> & Hm); [by left|]. simpl. rewrite Hm. f_equal.
  apply IH. intros r' Hr'. apply H. by right.
Qed.

(** In a duplicate-free list, what follows an element of the front part
    [A] lies behind that element. *)
Lemma NoDup_behind {A} (front back P Q : list A) (r k : A) :
  NoDup (front ++ r :: back) → k ∈ front →
  front ++ r :: back = P ++ k :: Q → r ∈ Q.
Proof.
  revert P. induction front as [|a front IH]; intros P Hnd Hk E.
  - by apply elem_of_nil in Hk.
  - simpl in Hnd. apply NoDup_cons in Hnd as [Ha Hnd].
    destruct P as [|b P]; simpl in E; injection E as -> E.
    + rewrite <- E. apply elem_of_app. right. by left.
    + apply elem_of_cons in Hk as [->|Hk]; [|by apply (IH P)].
      exfalso. apply Ha. rewrite E. apply elem_of_app. right. by left.
Qed.

(** Every node below a reified node is itself a reified node. *)
Lemma reify_closed root :
  ∀ n, n ∈ map snd (reify root) →
  ∀ x, x ∈ all_nodes n → x ∈ map snd (reify root).
Proof.
  induction root as [|[k o] root IH]; simpl; intros n Hn x Hx.
  - by apply elem_of_nil in Hn.
  - apply elem_of_cons in Hn as [->|Hn]; [|right; by apply (IH n)].
    rewrite all_nodes_eq in Hx. apply elem_of_cons in Hx as [->|Hx]; [by left|].
    right. apply elem_of_flat_map in Hx as (m & Hm & Hx).
    apply (IH m); [|done]. unfold node_children, reify_obj in Hm. simpl in Hm.
    destruct (o_children o) as [cs|]; simpl in Hm; [|by apply elem_of_nil in Hm].
    apply list_elem_of_omap in Hm as (r & _ & Hr).
    apply tbl_get_Some in Hr. by apply (elem_of_map_2 snd _ (r, m)).
Qed.

End Reify.

Section BuiltTree.

Implicit Types (root : RootMap) (S : list (string * string)).

(** A reference points to an entry further down the map. *)
Lemma store_refs_forward root S pre k o post cs r :
  store_inv root S → root = pre ++ (k, o) :: post →
  o_children o = Some cs → r ∈ cs → r ∈ root_keys post.
Proof.
  intros H Eroot Hcs Hr.
  assert (Hko : (k, o) ∈ root).
  { rewrite Eroot. apply elem_of_app. right. by left. }
  rewrite (inv_children _ _ H k o cs Hko Hcs) in Hr.
  apply list_elem_of_In, in_map_iff in Hr as (s & <- & Hs).
  apply filter_In in Hs as [Hs Hfst].
  apply bool_decide_eq_true in Hfst.
  apply list_elem_of_In, list_elem_of_split in Hs as (p1 & p2 & Esplit).
  assert (Hk : k ∈ map snd p1).
  { destruct (inv_order _ _ H p1 s p2 Esplit) as [H0|H0]; [|by rewrite <- Hfst].
    exfalso. apply (inv_nonempty _ _ H). rewrite <- H0, Hfst.
    by apply (elem_of_map_2 fst _ (k, o)). }
  assert (Hkeys : map snd p1 ++ snd s :: map snd p2
                  = root_keys pre ++ k :: root_keys post).
  { rewrite <- (map_cons snd), <- map_app, <- Esplit, <- (inv_keys _ _ H).
    rewrite Eroot. unfold root_keys. by rewrite map_app. }
  apply (NoDup_behind (map snd p1) (map snd p2) (root_keys pre) _ _ k);
    [|done..].
  rewrite <- (map_cons snd), <- map_app, <- Esplit.
  apply first_seen_NoDup.
Qed.

(** A reified node bears the path it is stored under, and a directory has
    for children the nodes of the paths first seen directly under it, in
    first-seen order: no reference is lost when the map is read back. *)
Lemma reified_node root S k n :
  store_inv root S → (k, n) ∈ reify root →
  tn_path n = k ∧
  (tn_type n = directory →
   ∃ chs, tn_children n = Some chs ∧
          map tn_path chs
            = map snd (List.filter (fun s => bool_decide (fst s = k))
                         (first_seen S))).
Proof.
  intros H Hn. apply reify_elem in Hn as (pre & o & post & Eroot & ->).
  assert (Hko : (k, o) ∈ root).
  { rewrite Eroot. apply elem_of_app. right. by left. }
  split; [by apply (inv_path _ _ H)|]. simpl. intros Hdir.
  destruct (proj1 (inv_kind _ _ H k o Hko) Hdir) as [cs Hcs].
  rewrite Hcs. simpl. eexists. split; [done|].
  rewrite <- (inv_children _ _ H k o cs Hko Hcs).
  apply omap_paths. intros r Hr.
  pose proof (store_refs_forward _ _ _ _ _ _ _ _ H Eroot Hcs Hr) as Hbehind.
  destruct (tbl_get_is_Some (reify post) r) as [m Hm].
  { by rewrite reify_keys. }
  exists m. split; [done|].
  apply tbl_get_Some, reify_elem in Hm as (pre' & o' & post' & Epost & ->).
  simpl. apply (inv_path _ _ H). rewrite Eroot, Epost.
  apply elem_of_app. right. right. apply elem_of_app. right. by left.
Qed.

(** Every node of the built tree, at any depth, is a node of the map. *)
Lemma built_nodes_in_map files g d :
  d ∈ forest_nodes (buildFileTree files g) →
  ∃ k, (k, d) ∈ reify (build_root files g).
Proof.
  intros Hd. apply elem_of_flat_map in Hd as (n & Hn & Hd).
  unfold buildFileTree in Hn. apply list_elem_of_filter in Hn as [_ Hn].
  pose proof (reify_closed _ n Hn d Hd) as Hin.
  apply list_elem_of_In, in_map_iff in Hin as ([k d'] & E & Hin).
  simpl in E. subst d'. exists k. by apply list_elem_of_In.
Qed.

End BuiltTree.

(** C6. [buildFileTree] is a total function (the embedding has no failure
    case and loses no child reference); the empty list gives the empty
    forest; the result is, in creation order, the created nodes whose path
    has no "/"; every node of the result, at any depth, is one of the
    created nodes; and the children of every directory of the result are
    the paths first seen directly under it, in first-seen order of the
    input, as in [src/b.ts] listed before [src/a.ts]. *)
Theorem build_tree_guarantees :
  (∀ g, buildFileTree [] g = []) ∧
  (∀ files g,
     (∀ n, n ∈ buildFileTree files g ↔
           n ∈ root_values (build_root files g) ∧ no_slash n) ∧
     buildFileTree files g
       = filter no_slash (root_values (build_root files g)) ∧
     (∀ d, d ∈ forest_nodes (buildFileTree files g) →
           d ∈ root_values (build_root files g)) ∧
     (∀ d, d ∈ forest_nodes (buildFileTree files g) →
           tn_type d = directory →
           map tn_path (node_children d)
             = children_in_order files (tn_path d))) ∧
  map tn_path (flat_map node_children (buildFileTree [f_b; f_a] unstaged))
    = ["src/b.ts"; "src/a.ts"].
Proof.
  split; [reflexivity|]. split; [|reflexivity].
  intros files g. split; [|split; [reflexivity|split]].
  - intros n. unfold buildFileTree. rewrite list_elem_of_filter.
    unfold no_slash. tauto.
  - intros d Hd. destruct (built_nodes_in_map files g d Hd) as [k Hk].
    by apply (elem_of_map_2 snd _ (k, d)).
  - intros d Hd Hdir. destruct (built_nodes_in_map files g d Hd) as [k Hk].
    destruct (reified_node _ _ k d (build_root_inv files g) Hk)
      as [Hpath Hch].
    destruct (Hch Hdir) as (chs & Echs & Hpaths).
    unfold node_children. rewrite Echs. simpl.
    unfold children_in_order. by rewrite Hpath.
Qed.

Section OneNodePerPath.

Implicit Types (root : RootMap) (S : list (string * string)).

Lemma path_parts_truthy p :
  Forall (fun s => JS.truthy s = true) (path_parts p).
Proof.
  apply Forall_forall. intros s Hs. unfold path_parts in Hs.
  apply list_elem_of_filter in Hs as [Hs _]. by destruct s.
Qed.

Lemma file_objs_app root1 root2 :
  file_objs (root1 ++ root2) = file_objs root1 ++ file_objs root2.
Proof. apply List.filter_app. Qed.

(** An update that leaves types and file objects alone keeps the file
    objects. *)
Lemma file_objs_update k f root :
  (∀ o, o_type (f o) = o_type o) →
  (∀ o, (k, o) ∈ root → o_type o = file → f o = o) →
  file_objs (root_update k f root) = file_objs root.
Proof.
  intros Hty. unfold file_objs.
  induction root as [|[k' o] root IH]; simpl; intros Hf; [done|].
  destruct (decide (k' = k)) as [->|Hne]; simpl.
  - rewrite Hty. case_bool_decide as Ho; [|done].
    rewrite Hf; [done|by left|done].
  - rewrite IH; [done|]. intros o' Ho'. apply Hf. by right.
Qed.

Lemma visit_part_keys_mono f g len i part par root S k :
  store_inv root S → par = "" ∨ par ∈ root_keys root →
  k ∈ root_keys root → k ∈ root_keys (visit_part f g len i part par root).
Proof.
  intros H Hpar Hk.
  destruct (decide (join_path par part ∈ root_keys root)) as [Hin|Hnew].
  - by rewrite visit_part_old.
  - rewrite visit_part_new by (done || apply (inv_nonempty _ _ H)).
    rewrite root_keys_app, root_update_keys. apply elem_of_app. by left.
Qed.

(** A record whose full path is already a key adds no file object. *)
Lemma walk_parts_keeps_files f g len parts : ∀ i cur root S,
  store_inv root S →
  cur = "" ∨ cur ∈ root_keys root →
  Forall (fun s => JS.truthy s = true) parts →
  (i + List.length parts = len)%nat →
  parts ≠ [] →
  fold_left join_path parts cur ∈ root_keys root →
  file_objs (walk_parts f g len i parts cur root) = file_objs root.
Proof.
  induction parts as [|part rest IH]; intros i cur root S H Hcur Ht Hlen Hne Hfin;
    [done|].
  apply Forall_cons in Ht as [Hpart Hrest]. simpl in *. rewrite Hpart.
  pose proof (visit_part_inv f g len i part cur root S H Hpart Hcur) as H'.
  assert (Hfiles : file_objs (visit_part f g len i part cur root)
                   = file_objs root).
  { destruct (decide (join_path cur part ∈ root_keys root)) as [Hin|Hnew].
    - by rewrite visit_part_old.
    - rewrite visit_part_new by (done || apply (inv_nonempty _ _ H)).
      rewrite file_objs_app.
      assert (Hdir : file_objs [(join_path cur part,
                                 created f g len i part cur)] = []).
      { destruct rest as [|part' rest]; [done|].
        unfold file_objs, created. simpl.
        rewrite (bool_decide_eq_false_2 (i = _)) by (simpl in Hlen; lia).
        reflexivity. }
      rewrite Hdir, app_nil_r. apply file_objs_update.
      + apply push_child_type.
      + intros o Ho Hfile. unfold push_child.
        destruct (o_children o) as [cs|] eqn:Ecs; [|done].
        assert (Hd : o_type o = directory)
          by (apply (inv_kind _ _ H cur o Ho); by eexists).
        congruence. }
  destruct rest as [|part' rest]; [exact Hfiles|].
  rewrite <- Hfiles.
  apply (IH (Datatypes.S i) (join_path cur part) _ _ H'); try done.
  - right. rewrite (inv_keys _ _ H').
    apply (first_seen_covers _ (cur, join_path cur part)).
    apply elem_of_app. right. by left.
  - simpl in *. lia.
  - by apply (visit_part_keys_mono _ _ _ _ _ _ _ S).
Qed.

Lemma root_values_paths root S :
  store_inv root S → map tn_path (root_values root) = root_keys root.
Proof.
  intros H. unfold root_values. rewrite <- reify_keys, map_map.
  apply map_ext_in. intros [k n] Hin. simpl.
  apply list_elem_of_In in Hin.
  by destruct (reified_node _ _ k n H Hin).
Qed.

End OneNodePerPath.

(** ** The shape of the built tree *)

Section Shape.

Implicit Types (root : RootMap) (S : list (string * string)).

Lemma refs_of_cons k o root :
  refs_of ((k, o) :: root) = default [] (o_children o) ++ refs_of root.
Proof. reflexivity. Qed.

Lemma elem_of_refs_of root r :
  r ∈ refs_of root ↔
  ∃ k o, (k, o) ∈ root ∧ r ∈ default [] (o_children o).
Proof.
  unfold refs_of. rewrite elem_of_flat_map. split.
  - intros ([k o] & He & Hr). by exists k, o.
  - intros (k & o & He & Hr). by exists (k, o).
Qed.

Lemma shaped_tail e root : shaped (e :: root) → shaped root.
Proof.
  intros [H1 H2 H3 H4 H5]. destruct e as [k o]. split.
  - simpl in H1. by apply NoDup_cons in H1 as [_ H1].
  - intros k' o' Hin. apply H2. by right.
  - intros pre k' o' post E. apply (H3 ((k, o) :: pre) k' o' post).
    by rewrite E.
  - rewrite refs_of_cons in H4. by apply (proj1 (NoDup_app _ _)) in H4 as (_ & _ & H4).
  - intros k' o' Hin. apply (H5 k'). by right.
Qed.

Lemma NoDup_map_inj_on {A B} (f : A → B) (l : list A) (x y : A) :
  NoDup (map f l) → x ∈ l → y ∈ l → f x = f y → x = y.
Proof.
  induction l as [|a l IH]; simpl; intros Hnd Hx Hy E.
  - by apply elem_of_nil in Hx.
  - apply NoDup_cons in Hnd as [Ha Hnd].
    apply elem_of_cons in Hx as [->|Hx]; apply elem_of_cons in Hy as [->|Hy].
    + done.
    + exfalso. apply Ha. rewrite E. by apply elem_of_map_2.
    + exfalso. apply Ha. rewrite <- E. by apply elem_of_map_2.
    + by apply IH.
Qed.

Lemma NoDup_map_filter {A B} (f : A → B) (P : A → bool) (l : list A) :
  NoDup (map f l) → NoDup (map f (List.filter P l)).
Proof.
  induction l as [|a l IH]; simpl; intros Hnd; [done|].
  apply NoDup_cons in Hnd as [Ha Hnd].
  destruct (P a); simpl; [|by apply IH].
  apply NoDup_cons. split; [|by apply IH].
  intros Hin. apply Ha.
  apply list_elem_of_In, in_map_iff in Hin as (x & E & Hx).
  apply filter_In in Hx as [Hx _]. rewrite <- E.
  by apply elem_of_map_2, list_elem_of_In.
Qed.

(** No path is referred to twice. *)
Lemma store_refs_NoDup root S : store_inv root S → NoDup (refs_of root).
Proof.
  intros H. pose proof (store_inv_NoDup _ _ H) as Hnd.
  assert (Hgen : ∀ l, (∀ e, e ∈ l → e ∈ root) → NoDup (root_keys l) →
                      NoDup (refs_of l)).
  { induction l as [|[k o] l IH]; intros Hsub Hl; [constructor|].
    rewrite refs_of_cons. simpl in Hl. apply NoDup_cons in Hl as [Hk Hl].
    assert (Hko : (k, o) ∈ root) by (apply Hsub; by left).
    apply NoDup_app. split; [|split].
    - destruct (o_children o) as [cs|] eqn:Ecs; simpl; [|constructor].
      rewrite (inv_children _ _ H k o cs Hko Ecs).
      apply NoDup_map_filter, first_seen_NoDup.
    - intros r Hr Hr'. apply elem_of_refs_of in Hr' as (k' & o' & Hin' & Hr').
      assert (Hko' : (k', o') ∈ root) by (apply Hsub; by right).
      destruct (o_children o) as [cs|] eqn:Ecs; simpl in Hr;
        [|by apply elem_of_nil in Hr].
      destruct (o_children o') as [cs'|] eqn:Ecs'; simpl in Hr';
        [|by apply elem_of_nil in Hr'].
      rewrite (inv_children _ _ H k o cs Hko Ecs) in Hr.
      rewrite (inv_children _ _ H k' o' cs' Hko' Ecs') in Hr'.
      apply list_elem_of_In, in_map_iff in Hr as (s & Es & Hs).
      apply list_elem_of_In, in_map_iff in Hr' as (s' & Es' & Hs').
      apply filter_In in Hs as [Hs Hf]. apply filter_In in Hs' as [Hs' Hf'].
      apply bool_decide_eq_true in Hf. apply bool_decide_eq_true in Hf'.
      assert (s = s').
      { apply (NoDup_map_inj_on snd (first_seen S));
          [apply first_seen_NoDup|by apply list_elem_of_In..|congruence]. }
      subst s'. apply Hk. rewrite <- Hf, Hf'.
      by apply (elem_of_map_2 fst _ (k', o')).
    - apply IH; [|done]. intros e He. apply Hsub. by right. }
  by apply Hgen.
Qed.

(** The builder's invariant gives the shape. *)
Lemma store_inv_shaped root S : store_inv root S → shaped root.
Proof.
  intros H. split.
  - by apply (store_inv_NoDup _ _ H).
  - apply (inv_path _ _ H).
  - intros pre k o post E r Hr.
    destruct (o_children o) as [cs|] eqn:Ecs; simpl in Hr;
      [|by apply elem_of_nil in Hr].
    by apply (store_refs_forward _ _ _ _ _ _ _ _ H E Ecs).
  - by apply (store_refs_NoDup _ S).
  - intros k o Hko Hsome. by apply (inv_kind _ _ H k o Hko).
Qed.

End Shape.

Section Unreferenced.

Implicit Types (root : RootMap) (tbl : list (string * TreeNode)).

Lemma reify_path root k n :
  shaped root → (k, n) ∈ reify root → tn_path n = k.
Proof.
  intros H Hn. apply reify_elem in Hn as (pre & o & post & E & ->). simpl.
  apply (shape_path _ H). rewrite E. apply elem_of_app. right. by left.
Qed.

Lemma refs_in_keys root r :
  shaped root → r ∈ refs_of root → r ∈ root_keys root.
Proof.
  intros H Hr. apply elem_of_refs_of in Hr as (k & o & Hko & Hr).
  apply list_elem_of_split in Hko as (pre & post & E).
  pose proof (shape_forward _ H pre k o post E r Hr) as Hpost.
  rewrite E, root_keys_app. apply elem_of_app. right. by right.
Qed.

Lemma entries_paths root (E : list (string * TreeNode)) :
  shaped root → (∀ e, e ∈ E → e ∈ reify root) →
  map tn_path (map snd E) = map fst E.
Proof.
  intros H Hsub. rewrite map_map. apply map_ext_in. intros [k n] Hin.
  simpl. apply (reify_path root); [done|]. by apply Hsub, list_elem_of_In.
Qed.

Lemma tbl_get_elem tbl k n :
  NoDup (map fst tbl) → (k, n) ∈ tbl → tbl_get k tbl = Some n.
Proof.
  induction tbl as [|[k' n'] tbl IH]; simpl; intros Hnd Hin.
  - by apply elem_of_nil in Hin.
  - apply NoDup_cons in Hnd as [Hk Hnd].
    apply elem_of_cons in Hin as [Heq|Hin].
    + injection Heq as <- <-. by destruct (decide (k = k)).
    + destruct (decide (k' = k)) as [->|Hne]; [|by apply IH].
      exfalso. apply Hk. by apply (elem_of_map_2 fst _ (k, n)).
Qed.

Lemma node_children_reify tbl o :
  node_children (reify_obj tbl o)
    = omap (fun r => tbl_get r tbl) (default [] (o_children o)).
Proof. unfold node_children, reify_obj. simpl. by destruct (o_children o). Qed.

Lemma NoDup_of_map {A B} (f : A → B) (l : list A) :
  NoDup (map f l) → NoDup l.
Proof. apply (NoDup_fmap_1 f). Qed.

(** The children of the first entry are the entries of the rest it refers
    to, none of which the rest refers to itself. *)
Lemma children_perm k o rest :
  shaped ((k, o) :: rest) →
  node_children (reify_obj (reify rest) o)
    ≡ₚ map snd (filter (fun e => fst e ∈ default [] (o_children o))
                  (filter (fun e => fst e ∉ refs_of rest) (reify rest))).
Proof.
  intros H. pose proof (shaped_tail _ _ H) as Hr.
  set (cs := default [] (o_children o)).
  assert (Hfwd : ∀ r, r ∈ cs → r ∈ root_keys rest)
    by apply (shape_forward _ H [] k o rest eq_refl).
  pose proof (shape_refs _ H) as Hrefs. rewrite refs_of_cons in Hrefs.
  apply NoDup_app in Hrefs as (Hcs & Hdisj & _). fold cs in Hcs, Hdisj.
  assert (Hkeys : NoDup (map fst (reify rest))).
  { rewrite reify_keys. apply (shape_keys _ Hr). }
  assert (Hpaths : map tn_path (omap (fun r => tbl_get r (reify rest)) cs) = cs).
  { apply omap_paths. intros r Hin.
    destruct (tbl_get_is_Some (reify rest) r) as [m Hm].
    { rewrite reify_keys. by apply Hfwd. }
    exists m. split; [done|]. apply (reify_path rest); [done|].
    by apply tbl_get_Some. }
  rewrite node_children_reify. fold cs.
  apply NoDup_Permutation.
  - apply (NoDup_of_map tn_path). by rewrite Hpaths.
  - apply (NoDup_of_map tn_path). rewrite (entries_paths rest); [|done|].
    + apply (sublist_NoDup _ (map fst (reify rest))); [exact Hkeys|].
      apply (fmap_sublist fst). etrans; apply sublist_filter.
    + intros e He. apply list_elem_of_filter in He as [_ He].
      by apply list_elem_of_filter in He as [_ He].
  - intros m. rewrite list_elem_of_omap. split.
    + intros (r & Hin & Hget). apply tbl_get_Some in Hget.
      apply (elem_of_map_2 snd _ (r, m)).
      apply list_elem_of_filter. split; [done|].
      apply list_elem_of_filter. split; [|done]. simpl. by apply Hdisj.
    + intros Hm. apply list_elem_of_In, in_map_iff in Hm as ([r m'] & E & He).
      simpl in E. subst m'. apply list_elem_of_In in He.
      apply list_elem_of_filter in He as [Hin He].
      apply list_elem_of_filter in He as [_ He].
      exists r. split; [done|]. by apply tbl_get_elem.
Qed.

(** Read from its unreferenced nodes, the map gives every node once. *)
Lemma unreferenced_perm root :
  shaped root → forest_nodes (unreferenced root) ≡ₚ root_values root.
Proof.
  induction root as [|[k o] rest IH]; intros H; [done|].
  pose proof (shaped_tail _ _ H) as Hr. specialize (IH Hr).
  set (cs := default [] (o_children o)).
  assert (Hhead : k ∉ refs_of ((k, o) :: rest)).
  { intros Hk. rewrite refs_of_cons in Hk.
    pose proof (shape_keys _ H) as Hnd. simpl in Hnd.
    apply NoDup_cons in Hnd as [Hfresh _]. apply Hfresh.
    apply elem_of_app in Hk as [Hk|Hk].
    - by apply (shape_forward _ H [] k o rest eq_refl).
    - by apply (refs_in_keys _ _ Hr). }
  unfold unreferenced, root_values in *. simpl reify.
  rewrite filter_cons_True by exact Hhead. simpl map.
  rewrite forest_nodes_cons, all_nodes_eq. simpl.
  apply Permutation_skip. rewrite <- IH.
  assert (Efilter :
    filter (fun e => fst e ∉ default [] (o_children o) ++ refs_of rest)
      (reify rest)
    = filter (fun e => fst e ∉ cs)
        (filter (fun e => fst e ∉ refs_of rest) (reify rest))).
  { rewrite list_filter_filter. apply list_filter_iff. intros e.
    fold cs. rewrite not_elem_of_app. tauto. }
  rewrite Efilter. unfold forest_nodes. rewrite <- flat_map_app.
  apply Permutation_flat_map.
  rewrite (children_perm k o rest H). fold cs. rewrite <- map_app.
  apply Permutation_map, filter_app_complement.
Qed.

End Unreferenced.

Section BuiltShape.

Lemma includes_app c (a b : string) :
  JS.includes c (a +:+ b) = JS.includes c a || JS.includes c b.
Proof.
  induction a as [|x a IH]; [done|].
  change (String x a +:+ b) with (String x (a +:+ b)). simpl.
  by rewrite IH, orb_assoc.
Qed.

(** A path made under a parent has a "/". *)
Lemma includes_join par part :
  par ≠ "" → JS.includes "/" (join_path par part) = true.
Proof.
  intros Hpar. unfold join_path. destruct par as [|x par]; [done|].
  simpl JS.truthy. cbv iota. rewrite !includes_app.
  change (JS.includes "/" "/") with true. simpl. apply orb_true_r.
Qed.

Lemma steps_join parts : ∀ cur s,
  s ∈ steps_of_parts cur parts → ∃ part, snd s = join_path (fst s) part.
Proof.
  induction parts as [|part parts IH]; intros cur s Hs; simpl in Hs.
  - by apply elem_of_nil in Hs.
  - destruct (JS.truthy part); [|by apply (IH cur)].
    apply elem_of_cons in Hs as [->|Hs];
      [by exists part|by apply (IH (join_path cur part) s)].
Qed.

(** A referenced path has a "/": top-level nodes are never children. *)
Lemma refs_have_slash files g r :
  r ∈ refs_of (build_root files g) → JS.includes "/" r = true.
Proof.
  intros Hr. pose proof (build_root_inv files g) as H.
  apply elem_of_refs_of in Hr as (k & o & Hko & Hr).
  destruct (o_children o) as [cs|] eqn:Ecs; simpl in Hr;
    [|by apply elem_of_nil in Hr].
  rewrite (inv_children _ _ H k o cs Hko Ecs) in Hr.
  apply list_elem_of_In, in_map_iff in Hr as (s & <- & Hs).
  apply filter_In in Hs as [Hs Hf]. apply bool_decide_eq_true in Hf.
  apply list_elem_of_In, first_seen_subset in Hs.
  apply elem_of_flat_map in Hs as (f & _ & Hs).
  apply steps_join in Hs as [part ->]. apply includes_join.
  rewrite Hf. intros ->. apply (inv_nonempty _ _ H).
  by apply (elem_of_map_2 fst _ ("", o)).
Qed.

Lemma sublist_filter_map {A B} (f : A → B) (P : B → Prop) (Q : A → Prop)
    `{∀ x, Decision (P x)} `{∀ x, Decision (Q x)} (l : list A) :
  (∀ e, e ∈ l → P (f e) → Q e) →
  filter P (map f l) `sublist_of` map f (filter Q l).
Proof.
  induction l as [|e l IH]; intros Himp; [constructor|]. simpl.
  assert (Hl : ∀ e', e' ∈ l → P (f e') → Q e')
    by (intros e' He'; apply Himp; by right).
  destruct (decide (P (f e))) as [HP|HP].
  - rewrite filter_cons_True by done.
    rewrite (filter_cons_True Q) by (apply Himp; [by left|done]).
    simpl. apply sublist_skip. by apply IH.
  - rewrite filter_cons_False by done.
    destruct (decide (Q e)) as [HQ|HQ].
    + rewrite (filter_cons_True Q) by done. simpl.
      apply sublist_cons. by apply IH.
    + rewrite (filter_cons_False Q) by done. by apply IH.
Qed.

Lemma sublist_flat_map {A B} (f : A → list B) (l1 l2 : list A) :
  l1 `sublist_of` l2 → flat_map f l1 `sublist_of` flat_map f l2.
Proof.
  induction 1 as [|x l1 l2 _ IH|x l1 l2 _ IH]; simpl.
  - constructor.
  - by apply sublist_app.
  - by apply sublist_inserts_l.
Qed.

(** The result is made of unreferenced nodes, in their order. *)
Lemma built_tree_unreferenced files g :
  buildFileTree files g `sublist_of` unreferenced (build_root files g).
Proof.
  unfold buildFileTree, unreferenced, root_values.
  apply sublist_filter_map. intros [k n] Hin Hslash Href. simpl in *.
  apply refs_have_slash in Href.
  rewrite (reify_path _ k n (store_inv_shaped _ _ (build_root_inv files g)) Hin)
    in Hslash.
  congruence.
Qed.

Lemma reify_wf (root : RootMap) :
  (∀ k o, (k, o) ∈ root → is_Some (o_children o) → o_type o = directory) →
  ∀ n, n ∈ map snd (reify root) → wf_node n = true.
Proof.
  induction root as [|[k o] root IH]; simpl; intros Hkind n Hn.
  - by apply elem_of_nil in Hn.
  - assert (Hrest : ∀ m, m ∈ map snd (reify root) → wf_node m = true).
    { apply IH. intros k' o' Hin. apply (Hkind k'). by right. }
    apply elem_of_cons in Hn as [->|Hn]; [|by apply Hrest].
    unfold reify_obj. simpl.
    destruct (o_children o) as [cs|] eqn:Ecs; simpl; [|done].
    rewrite (Hkind k o); [|by left|by rewrite Ecs]. simpl.
    apply forallb_forall. intros m Hm.
    apply list_elem_of_In, list_elem_of_omap in Hm as (r & _ & Hget).
    apply Hrest. apply tbl_get_Some in Hget.
    by apply (elem_of_map_2 snd _ (r, m)).
Qed.

(** The forest [buildFileTree] returns is one of the data model: children
    on directories only, and no path borne by two nodes. *)
Lemma built_tree_shape files g :
  Forall (fun x => wf_node x = true) (buildFileTree files g) ∧
  NoDup (map tn_path (forest_nodes (buildFileTree files g))).
Proof.
  pose proof (build_root_inv files g) as H.
  pose proof (store_inv_shaped _ _ H) as Hs. split.
  - apply Forall_forall. intros n Hn.
    apply (reify_wf (build_root files g)); [apply (shape_kind _ Hs)|].
    unfold buildFileTree in Hn. by apply list_elem_of_filter in Hn as [_ Hn].
  - apply (sublist_NoDup _
             (map tn_path (forest_nodes (unreferenced (build_root files g))))).
    + rewrite (unreferenced_perm _ Hs), (root_values_paths _ _ H).
      apply (shape_keys _ Hs).
    + apply (fmap_sublist tn_path), sublist_flat_map,
        built_tree_unreferenced.
Qed.

End BuiltShape.

(** On the forest [buildFileTree] returns, the flattener shows as many
    nodes as have an uncollapsed ancestor chain, and collapsing a shown,
    expanded directory removes what it showed below itself. *)
Lemma flatten_built_tree files g (c : gset string) :
  let nodes := buildFileTree files g in
  List.length (flattenTree nodes c) = visible_count c nodes ∧
  ∀ d, d ∈ flattenTree nodes c → tn_type d = directory → tn_path d ∉ c →
    List.length (flattenTree nodes c)
      = (List.length (flattenTree nodes (c ∪ {[tn_path d]}))
         + List.length (flattenTree (node_children d) c))%nat.
Proof.
  intros nodes. destruct (built_tree_shape files g) as [Hwf Hnd].
  split; [by apply flatten_length_visible|].
  intros d Hd Hdir Hopen.
  by apply (collapse_removes_forest c (tn_path d) d Hdir eq_refl Hopen).
Qed.

(** C9. The map never holds two nodes for one path: its keys are distinct,
    every node is stored under its own path, and so the created nodes have
    distinct paths, as have the nodes of the returned forest at all depths.
    A step whose running path is already a key changes nothing. A record
    whose full path is already a key adds no file node: a second record for
    [src/a.ts] is dropped, and so is the record [src/a.ts] when that path is
    already a directory. *)
Theorem one_node_per_path :
  (∀ files g,
     NoDup (root_keys (build_root files g)) ∧
     (∀ k o, (k, o) ∈ build_root files g → o_path o = k) ∧
     NoDup (map tn_path (root_values (build_root files g))) ∧
     NoDup (map tn_path (forest_nodes (buildFileTree files g)))) ∧
  (∀ f g len i part par root,
     join_path par part ∈ root_keys root →
     visit_part f g len i part par root = root) ∧
  (∀ files g f,
     final_path f ∈ root_keys (build_root files g) →
     file_objs (build_root (files ++ [f]) g)
       = file_objs (build_root files g)) ∧
  buildFileTree [f_a; f_b; f_a_again] unstaged
    = buildFileTree [f_a; f_b] unstaged ∧
  buildFileTree [f_z; f_a] unstaged = buildFileTree [f_z] unstaged.
Proof.
  split; [|split; [|split; [|split; reflexivity]]].
  - intros files g. pose proof (build_root_inv files g) as H.
    split; [by apply (store_inv_NoDup _ _ H)|].
    split; [apply (inv_path _ _ H)|].
    split; [|apply built_tree_shape].
    rewrite (root_values_paths _ _ H). by apply (store_inv_NoDup _ _ H).
  - intros. by apply visit_part_old.
  - intros files g f Hfin. unfold build_root. rewrite fold_left_app. simpl.
    fold (build_root files g). unfold add_file.
    destruct (path_parts (path f)) as [|part rest] eqn:Eparts.
    + reflexivity.
    + apply (walk_parts_keeps_files _ _ _ _ _ _ _ _ (build_root_inv files g));
        [by left| |simpl; lia|done|].
      * rewrite <- Eparts. apply path_parts_truthy.
      * unfold final_path in Hfin. by rewrite Eparts in Hfin.
Qed.

(** * Further properties *)

(** ** Files pane: the focus stays a row of the list *)

Section PaneValidity.

Variable isWarp : bool.

Lemma pane_step_ok (s : Pane) (e : PaneEvent) :
  pane_ok s → event_ok e → pane_ok (pane_step isWarp s e).
Proof.
  intros (Ht & H0 & H1 & H2) He.
  pose proof (filesPaneHeight_pos isWarp (rows s)) as Hh.
  pose proof (mainAreaHeight_ge_3 isWarp (rows s)) as Hm.
  unfold pane_ok, pane_step, reclampEffect.
  destruct e as [| |n|r]; simpl in *; unfold keyUp, keyDown; simpl;
    repeat (match goal with
            | |- context [?a >=? ?b] => destruct (Z.geb_spec a b)
            | |- context [?a <? ?b] => destruct (Z.ltb_spec a b)
            | |- context [?a =? ?b] => destruct (Z.eqb_spec a b)
            end; simpl in * );
    try pose proof (mainAreaHeight_ge_3 isWarp r); lia.
Qed.

Lemma pane_run_ok (evs : list PaneEvent) : ∀ s,
  pane_ok s → Forall event_ok evs →
  pane_ok (fold_left (pane_step isWarp) evs s).
Proof.
  induction evs as [|e evs IH]; intros s Hs Hev; simpl; [done|].
  apply Forall_cons in Hev as [He Hev].
  apply IH; [by apply pane_step_ok|done].
Qed.

End PaneValidity.

(** X1. Whatever keys, rebuilds and resizes follow the first render, the
    focus of the files pane is a row of the list when there is one (and 0
    when the list is empty), and the window never starts below the focus or
    before row 0. *)
Theorem pane_focus_always_valid (isWarp : bool) (r n : Z)
    (evs : list PaneEvent) :
  0 <= n → Forall event_ok evs →
  let s := fold_left (pane_step isWarp) evs (mkPane r n 0 0) in
  0 <= listScrollTop s <= selectedIndex s ∧
  (0 < total s → selectedIndex s < total s) ∧
  (total s = 0 → selectedIndex s = 0 ∧ listScrollTop s = 0).
Proof.
  intros Hn Hev s.
  assert (Hok : pane_ok s).
  { apply pane_run_ok; [|done]. unfold pane_ok. simpl. lia. }
  destruct Hok as (Ht & H0 & H1 & H2). repeat split; lia.
Qed.

Lemma pane_focus_always_valid_witness :
  let evs := [KeyDown; Resize 12; Rebuild 1; KeyUp; Rebuild 0; KeyDown] in
  let s := fold_left (pane_step false) evs (mkPane 24 20 0 0) in
  Forall event_ok evs ∧ s = mkPane 12 0 0 0 ∧
  0 <= listScrollTop s <= selectedIndex s.
Proof.
  intros evs s.
  assert (Hev : Forall event_ok evs) by (repeat constructor; simpl; lia).
  split; [exact Hev|]. split; [reflexivity|].
  exact (proj1 (pane_focus_always_valid false 24 20 evs ltac:(lia) Hev)).
Defined.

(** ** Commits pane *)

(** X2. In the commits pane, from a state with commits, a valid focus and
    the focus in the window, an up or down key leaves the focus valid and
    in the window. *)
Theorem commit_nav_in_window (isWarp : bool) (s : CommitPane) :
  0 < cp_count s → commitFocusIndex s < cp_count s →
  commit_in_window isWarp s →
  (commit_in_window isWarp (commitUp s) ∧
   0 <= commitFocusIndex (commitUp s) < cp_count s) ∧
  (commit_in_window isWarp (commitDown isWarp s) ∧
   0 <= commitFocusIndex (commitDown isWarp s) < cp_count s).
Proof.
  intros Hc Hf (H0 & H1 & H2).
  unfold commit_in_window, commitUp, commitDown. simpl.
  set (h := commitPaneHeight isWarp (cp_rows s)) in *.
  repeat (match goal with
          | |- context [?a >=? ?b] => destruct (Z.geb_spec a b)
          | |- context [?a <? ?b] => destruct (Z.ltb_spec a b)
          end; simpl); lia.
Qed.

Lemma commit_nav_in_window_witness :
  0 < cp_count sample_commit_pane ∧
  commit_in_window false sample_commit_pane ∧
  commitDown false sample_commit_pane = mkCommitPane 24 5 4 1 ∧
  commit_in_window false (commitDown false sample_commit_pane).
Proof.
  assert (H0 : 0 < cp_count sample_commit_pane) by (simpl; lia).
  assert (H1 : commitFocusIndex sample_commit_pane
               < cp_count sample_commit_pane) by (simpl; lia).
  assert (H2 : commit_in_window false sample_commit_pane).
  { unfold commit_in_window. simpl.
    change (commitPaneHeight false 24) with 4. lia. }
  split; [exact H0|]. split; [exact H2|]. split; [reflexivity|].
  exact (proj1 (proj2 (commit_nav_in_window false _ H0 H1 H2))).
Defined.



(** ** Diff pane *)

Section DiffScroll.

Variables (isWarp : bool) (rows : Z) (diffContent : string).

Lemma page_step_bounds (prev : Z) (k : PageKey) :
  0 <= prev <= maxScroll isWarp rows diffContent →
  0 <= page_step isWarp rows diffContent prev k
    <= maxScroll isWarp rows diffContent.
Proof.
  intros H. unfold page_step, pageDown, pageUp, SCROLL_LINES.
  assert (0 <= maxScroll isWarp rows diffContent)
    by (unfold maxScroll; lia).
  destruct k; lia.
Qed.

Lemma page_run_bounds (keys : list PageKey) : ∀ prev,
  0 <= prev <= maxScroll isWarp rows diffContent →
  0 <= fold_left (page_step isWarp rows diffContent) keys prev
    <= maxScroll isWarp rows diffContent.
Proof.
  induction keys as [|k keys IH]; intros prev H; simpl; [done|].
  by apply IH, page_step_bounds.
Qed.

Lemma array_slice_length {A} (l : list A) (top h : Z) :
  0 <= top → 0 <= h →
  Z.of_nat (List.length (array_slice l top (top + h)))
    = Z.max 0 (Z.min h (Z.of_nat (List.length l) - top)).
Proof.
  intros Ht Hh. unfold array_slice, JS.rel_index.
  rewrite length_take, length_drop.
  destruct (Z.ltb_spec top 0); [lia|].
  destruct (Z.ltb_spec (top + h) 0); lia.
Qed.

End DiffScroll.

(** X4. Whatever page-up and page-down keys follow the reset of the diff
    offset to 0, for a given diff text and terminal height the offset stays
    between 0 and [max(0, lines - mainAreaHeight)], so the diff pane always
    shows a full window of lines, or all of them when the text has fewer. *)
Theorem diff_scroll_in_bounds (isWarp : bool) (rows : Z) (diffContent : string)
    (keys : list PageKey) :
  let top := fold_left (page_step isWarp rows diffContent) keys 0 in
  let n := Z.of_nat (List.length (diffLines diffContent)) in
  0 <= top <= maxScroll isWarp rows diffContent ∧
  Z.of_nat (List.length (visibleDiff isWarp rows diffContent top))
    = Z.min (mainAreaHeight isWarp rows) n.
Proof.
  intros top n.
  assert (Hb : 0 <= top <= maxScroll isWarp rows diffContent).
  { apply page_run_bounds. unfold maxScroll. lia. }
  split; [exact Hb|].
  pose proof (mainAreaHeight_ge_3 isWarp rows) as Hm.
  unfold visibleDiff. rewrite array_slice_length by lia.
  unfold maxScroll in Hb. fold n in Hb |- *. lia.
Qed.

(** ** The focused row is on screen *)

Lemma array_slice_lookup {A} (l : list A) (top h i : Z) :
  0 <= top → top <= i → i <= top + h - 1 →
  array_slice l top (top + h) !! Z.to_nat (i - top) = l !! Z.to_nat i.
Proof.
  intros Ht Hi Hh. unfold array_slice, JS.rel_index.
  destruct (Z.ltb_spec top 0); [lia|].
  destruct (Z.ltb_spec (top + h) 0); [lia|].
  destruct (decide (i < Z.of_nat (List.length l))) as [Hin|Hout].
  - rewrite lookup_take_lt by lia. rewrite lookup_drop. f_equal. lia.
  - rewrite (lookup_ge_None_2 l) by lia.
    apply lookup_ge_None_2. rewrite length_take, length_drop. lia.
Qed.

(** X5. After any run of up and down keys from the first render of a
    non-empty list, the focused row exists and is one of the rows the files
    pane shows, at the position [selectedIndex - listScrollTop]. *)
Theorem focused_row_is_visible (isWarp : bool) (r : Z)
    (items : list ListItem) (keys : list PaneEvent) :
  items ≠ [] → Forall (fun e => e = KeyUp ∨ e = KeyDown) keys →
  let s := fold_left (pane_step isWarp) keys
             (mkPane r (Z.of_nat (List.length items)) 0 0) in
  ∃ row, items !! Z.to_nat (selectedIndex s) = Some row ∧
         visibleItems isWarp (rows s) items (listScrollTop s)
           !! Z.to_nat (selectedIndex s - listScrollTop s) = Some row.
Proof.
  intros Hne Hkeys s.
  assert (Hn : 0 < Z.of_nat (List.length items)) by (destruct items; [done|simpl; lia]).
  destruct (nav_run_in_window isWarp keys r _ Hn Hkeys) as [(H0 & H1 & H2) Hs].
  fold s in H0, H1, H2, Hs.
  assert (Htot : total s = Z.of_nat (List.length items)).
  { subst s. clear -Hkeys Hn. 
    assert (G : ∀ s0, 0 < total s0 → 0 <= selectedIndex s0 < total s0 →
                      focus_in_window isWarp s0 →
                      total (fold_left (pane_step isWarp) keys s0) = total s0).
    { induction Hkeys as [|e keys He _ IH]; intros s0 Ht Hs Hw; simpl; [done|].
      destruct (nav_step_in_window isWarp s0 e Ht (proj2 Hs) Hw He)
        as (Hw' & Hs' & _ & Et).
      rewrite IH; [done|lia|done..]. }
    rewrite G; simpl; [done|lia..|apply initial_focus_in_window]. }
  destruct (lookup_lt_is_Some_2 items (Z.to_nat (selectedIndex s))) as [row Hrow];
    [lia|].
  exists row. split; [done|]. unfold visibleItems.
  by rewrite array_slice_lookup.
Qed.

Lemma focused_row_is_visible_witness :
  let items := allItems [f_a; f_b] [] flat ∅ in
  let s := fold_left (pane_step false) [KeyDown; KeyDown] (mkPane 24 3 0 0) in
  ∃ row, items !! Z.to_nat (selectedIndex s) = Some row ∧
         visibleItems false (rows s) items (listScrollTop s)
           !! Z.to_nat (selectedIndex s - listScrollTop s) = Some row.
Proof.
  apply (focused_row_is_visible false 24 (allItems [f_a; f_b] [] flat ∅)
           [KeyDown; KeyDown]).
  - discriminate.
  - repeat constructor; by right.
Defined.

(** ** Records carried by the rows *)

Section Labels.

Implicit Types (root : RootMap) (o : NodeObj) (fs : list GitChange).

Lemma push_child_labelled g fs r o :
  labelled g fs o → labelled g fs (push_child r o).
Proof.
  unfold labelled, push_child. by destruct (o_children o).
Qed.

Lemma created_labelled g fs f len i part par :
  f ∈ fs → labelled g fs (created f g len i part par).
Proof.
  intros Hf. unfold labelled, created. simpl.
  case_bool_decide as Hc; simpl; [by exists f|done].
Qed.

Lemma visit_part_labelled g fs f len i part par root S :
  store_inv root S →
  par = "" ∨ par ∈ root_keys root →
  f ∈ fs →
  (∀ k o, (k, o) ∈ root → labelled g fs o) →
  ∀ k o, (k, o) ∈ visit_part f g len i part par root → labelled g fs o.
Proof.
  intros H Hpar Hf Hall k o.
  destruct (decide (join_path par part ∈ root_keys root)) as [Hin|Hnew].
  - rewrite visit_part_old by done. apply Hall.
  - rewrite visit_part_new by (done || apply (inv_nonempty _ _ H)).
    intros Hko. apply elem_of_app in Hko as [Hko|Hko].
    + apply root_update_elem in Hko; [|by apply (store_inv_NoDup _ S)].
      destruct Hko as [[_ Hko]|[_ (o0 & Hko & ->)]]; [by apply (Hall k)|].
      apply push_child_labelled. by apply (Hall par).
    + apply list_elem_of_singleton in Hko. injection Hko as _ ->.
      by apply created_labelled.
Qed.

Lemma walk_parts_labelled g fs f len parts : ∀ i cur root S,
  store_inv root S →
  cur = "" ∨ cur ∈ root_keys root →
  f ∈ fs →
  (∀ k o, (k, o) ∈ root → labelled g fs o) →
  ∀ k o, (k, o) ∈ walk_parts f g len i parts cur root → labelled g fs o.
Proof.
  induction parts as [|part parts IH]; intros i cur root S H Hcur Hf Hall;
    simpl; [done|].
  destruct (JS.truthy part) eqn:Ht; [|by apply (IH _ _ _ S)].
  pose proof (visit_part_inv f g len i part cur root S H Ht Hcur) as H'.
  apply (IH (Datatypes.S i) (join_path cur part) _
            (S ++ [(cur, join_path cur part)])); [done| |done|].
  - right. rewrite (inv_keys _ _ H').
    apply (first_seen_covers _ (cur, join_path cur part)).
    apply elem_of_app. right. by left.
  - by apply (visit_part_labelled g fs f len i part cur root S).
Qed.

Lemma fold_add_file_labelled g fs files : ∀ root S,
  store_inv root S →
  (∀ f, f ∈ files → f ∈ fs) →
  (∀ k o, (k, o) ∈ root → labelled g fs o) →
  ∀ k o, (k, o) ∈ fold_left (add_file g) files root → labelled g fs o.
Proof.
  induction files as [|f files IH]; intros root S H Hsub Hall; simpl;
    [done|].
  apply (IH _ (S ++ file_steps f)).
  - by apply add_file_inv.
  - intros f' Hf'. apply Hsub. by right.
  - apply (walk_parts_labelled g fs f _ _ 0%nat "" root S); try done.
    + by left.
    + apply Hsub. by left.
Qed.

(** Every object of the map the builder ends with is labelled. *)
Lemma build_root_labelled files g k o :
  (k, o) ∈ build_root files g → labelled g files o.
Proof.
  apply (fold_add_file_labelled g files files [] []).
  - apply store_inv_empty.
  - done.
  - intros k' o' Hk. by apply elem_of_nil in Hk.
Qed.

(** A file node of the built tree, at any depth, carries one of the records
    and the group. *)
Lemma built_file_node files g d :
  d ∈ forest_nodes (buildFileTree files g) →
  tn_type d = file →
  ∃ f, f ∈ files ∧ tn_file d = Some f ∧ tn_group d = Some g.
Proof.
  intros Hd Hty. apply built_nodes_in_map in Hd as [k Hd].
  apply reify_elem in Hd as (pre & o & post & Eroot & ->).
  assert (Hko : (k, o) ∈ build_root files g).
  { rewrite Eroot. apply elem_of_app. right. by left. }
  apply build_root_labelled in Hko. unfold labelled in Hko.
  simpl in Hty. rewrite Hty in Hko. done.
Qed.

Lemma group_rows_elem label records rows x :
  x ∈ group_rows label records rows →
  x = item_group label (List.length records) ∨ x ∈ rows.
Proof.
  destruct records; simpl; intros H; [by apply elem_of_nil in H|].
  apply elem_of_cons in H as [H|H]; [by left|by right].
Qed.

(** The File rows one group contributes. *)
Lemma push_group_file_rows vm c label g records items f' g' node :
  item_file f' g' node ∈ push_group vm c label g records items →
  item_file f' g' node ∈ items ∨
  ∃ f, f ∈ records ∧ f' = Some f ∧ g' = Some g.
Proof.
  destruct vm.
  - rewrite push_group_flat. intros H.
    apply elem_of_app in H as [H|H]; [by left|right].
    apply group_rows_elem in H as [H|H]; [done|].
    apply list_elem_of_In, in_map_iff in H as (f & E & Hf).
    unfold file_row in E. injection E as <- <- <-.
    exists f. by rewrite list_elem_of_In.
  - rewrite push_group_tree. intros H.
    apply elem_of_app in H as [H|H]; [by left|right].
    apply group_rows_elem in H as [H|H]; [done|].
    apply list_elem_of_In, in_map_iff in H as (d & E & Hd).
    apply list_elem_of_In, flatten_subset in Hd.
    unfold node_item in E. destruct (tn_type d) eqn:Hty; try discriminate E.
    injection E as <- <- <-. by apply built_file_node.
Qed.

(** Every File row carries a record of one of the two lists and its
    group. *)
Lemma file_row_record (b : Browser) f' g' node :
  item_file f' g' node ∈ browser_items b →
  ∃ g f, f ∈ group_files g b ∧ f' = Some f ∧ g' = Some g.
Proof.
  unfold browser_items, allItems. intros H.
  apply push_group_file_rows in H as [H|(f & Hf & -> & ->)];
    [|by exists staged, f].
  apply push_group_file_rows in H as [H|(f & Hf & -> & ->)];
    [by apply elem_of_nil in H|by exists unstaged, f].
Qed.

End Labels.

Section RowRecords.

Implicit Types (items : list ListItem) (keep : option Group → bool).

Lemma rows_present_cons row items :
  rows_present (row :: items) → rows_present items.
Proof. intros H f g node Hin. apply (H f g node). by right. Qed.

Lemma browser_rows_present (b : Browser) : rows_present (browser_items b).
Proof.
  intros f g node H.
  apply file_row_record in H as (g0 & f0 & _ & -> & _). by eexists.
Qed.

Lemma all_present_app {A} (l1 l2 : list (option A)) G1 G2 :
  all_present l1 = Some G1 → all_present l2 = Some G2 →
  all_present (l1 ++ l2) = Some (G1 ++ G2).
Proof.
  revert G1. induction l1 as [|[x|] l1 IH]; simpl; intros G1 H1 H2.
  - injection H1 as <-. done.
  - destruct (all_present l1) as [G|] eqn:E; [|done].
    injection H1 as <-. by rewrite (IH G eq_refl H2).
  - done.
Qed.

Lemma row_files_present keep items :
  rows_present items →
  all_present (row_files keep items) = Some (row_records keep items).
Proof.
  induction items as [|row items IH]; intros H; [done|].
  pose proof (IH (rows_present_cons _ _ H)) as IH'.
  change (row_files keep (row :: items))
    with (match row with
          | item_file f g _ => if keep g then [f] else []
          | _ => []
          end ++ row_files keep items).
  change (row_records keep (row :: items))
    with (match row with
          | item_file (Some f) g _ => if keep g then [f] else []
          | _ => []
          end ++ row_records keep items).
  apply all_present_app; [|done].
  destruct row as [label n|f g node|node]; try done.
  destruct (H f g node) as [f0 ->]; [by left|].
  by destruct (keep g).
Qed.

Lemma filesToExport_of_present sel items :
  rows_present items →
  filesToExport_of sel items = Some (row_targets sel items).
Proof.
  induction items as [|row items IH]; intros H; [done|].
  pose proof (IH (rows_present_cons _ _ H)) as IH'.
  destruct row as [label n|f g node|node]; try done.
  destruct (H f g node) as [f0 ->]; [by left|].
  simpl. rewrite IH'. by case_bool_decide.
Qed.

Lemma row_records_app keep items1 items2 :
  row_records keep (items1 ++ items2)
    = row_records keep items1 ++ row_records keep items2.
Proof. apply flat_map_app. Qed.

Lemma row_targets_app sel items1 items2 :
  row_targets sel (items1 ++ items2)
    = row_targets sel items1 ++ row_targets sel items2.
Proof. apply flat_map_app. Qed.

Lemma row_records_flat keep label g records :
  row_records keep (group_rows label records (map (file_row g) records))
    = if keep (Some g) then records else [].
Proof.
  assert (E : row_records keep (map (file_row g) records)
              = if keep (Some g) then records else []).
  { induction records as [|f records IH]; [by destruct (keep _)|].
    change (map (file_row g) (f :: records))
      with ([file_row g f] ++ map (file_row g) records).
    rewrite row_records_app, IH. unfold row_records, file_row. simpl.
    by destruct (keep (Some g)). }
  destruct records as [|f records]; [by destruct (keep _)|].
  exact E.
Qed.

Lemma row_targets_flat sel label g records :
  row_targets sel (group_rows label records (map (file_row g) records))
    = map (target_of g) (selected_of sel records).
Proof.
  assert (E : row_targets sel (map (file_row g) records)
              = map (target_of g) (selected_of sel records)).
  { induction records as [|f records IH]; [done|].
    change (map (file_row g) (f :: records))
      with ([file_row g f] ++ map (file_row g) records).
    rewrite row_targets_app, IH. unfold row_targets, file_row, target_of.
    simpl. case_bool_decide; simpl; [|done]. f_equal. f_equal.
    by destruct g. }
  destruct records as [|f records]; [done|]. exact E.
Qed.

Lemma flat_items u s c :
  allItems u s flat c
    = group_rows "Changes" u (map (file_row unstaged) u)
      ++ group_rows "Staged Changes" s (map (file_row staged) s).
Proof. unfold allItems. by rewrite !push_group_flat. Qed.

Lemma elem_of_row_records keep items f :
  f ∈ row_records keep items ↔
  ∃ g node, keep g = true ∧ item_file (Some f) g node ∈ items.
Proof.
  unfold row_records. split.
  - intros H. apply elem_of_flat_map in H as (row & Hrow & H).
    destruct row as [label n|[f0|] g node|node];
      try by apply elem_of_nil in H.
    destruct (keep g) eqn:Hk; [|by apply elem_of_nil in H].
    apply list_elem_of_singleton in H. subst f0. by exists g, node.
  - intros (g & node & Hk & Hin). apply elem_of_flat_map.
    exists (item_file (Some f) g node). split; [done|].
    rewrite Hk. by left.
Qed.

Lemma elem_of_row_targets sel items t :
  t ∈ row_targets sel items ↔
  ∃ f g node, item_file (Some f) g node ∈ items ∧ path f ∈ sel ∧
              t = mkTarget (path f) (bool_decide (g = Some staged))
                    (status f).
Proof.
  unfold row_targets. split.
  - intros H. apply elem_of_flat_map in H as (row & Hrow & H).
    destruct row as [label n|[f0|] g node|node];
      try by apply elem_of_nil in H.
    case_bool_decide as Hsel; [|by apply elem_of_nil in H].
    apply list_elem_of_singleton in H. by exists f0, g, node.
  - intros (f & g & node & Hin & Hsel & ->). apply elem_of_flat_map.
    exists (item_file (Some f) g node). split; [done|].
    rewrite (bool_decide_eq_true_2 (path f ∈ sel)) by done. by left.
Qed.

(** The [a] key toggles the records of the File rows in its scope. *)
Lemma pressA_rows (b : Browser) :
  pressA b
    = toggleGroup (row_records (a_scope b) (browser_items b))
        (selectedPaths b).
Proof.
  unfold pressA, a_scope.
  destruct (browser_items b !! focusIndex b) as [[label n|f g node|node]|];
    by rewrite row_files_present by apply browser_rows_present.
Qed.

End RowRecords.

(** X6. Every File row of the list, in either view mode and whatever is
    collapsed, carries a record of the group it is listed under together
    with that group; so the handlers that read [item.file.path] without a
    check never fail, and space on a File row always toggles the path of
    the row's record. *)
Theorem file_rows_carry_records (b : Browser) :
  (∀ f g node,
     item_file f g node ∈ browser_items b →
     ∃ g0 f0, f0 ∈ group_files g0 b ∧ f = Some f0 ∧ g = Some g0) ∧
  (∀ f g node,
     browser_items b !! focusIndex b = Some (item_file f g node) →
     ∃ g0 f0, f0 ∈ group_files g0 b ∧ f = Some f0 ∧ g = Some g0 ∧
              pressSpace b = toggleFile (path f0) (selectedPaths b)) ∧
  (∀ keep,
     all_present (row_files keep (browser_items b))
       = Some (row_records keep (browser_items b))).
Proof.
  split; [intros f g node; apply file_row_record|]. split.
  - intros f g node H.
    destruct (file_row_record b f g node) as (g0 & f0 & Hf & -> & ->).
    { by apply list_elem_of_lookup_2 in H. }
    exists g0, f0. repeat split; try done.
    unfold pressSpace. by rewrite H.
  - intros keep. apply row_files_present, browser_rows_present.
Qed.

(** X7. Space on a File row changes the selection at the path of the row's
    record and nowhere else, and a second press restores the selection:
    unlike the group toggle, the single-file toggle is always undone by
    repeating it. *)
Theorem file_toggle_involutive (b : Browser) f g node :
  browser_items b !! focusIndex b = Some (item_file f g node) →
  ∃ f0, f = Some f0 ∧
    (path f0 ∈ pressSpace b ↔ path f0 ∉ selectedPaths b) ∧
    (∀ p, p ≠ path f0 → (p ∈ pressSpace b ↔ p ∈ selectedPaths b)) ∧
    pressSpace (afterSpace b) = selectedPaths b.
Proof.
  intros H.
  destruct (file_row_record b f g node) as (g0 & f0 & Hf & -> & ->).
  { by apply list_elem_of_lookup_2 in H. }
  exists f0. split; [done|].
  assert (E : pressSpace b = toggleFile (path f0) (selectedPaths b)).
  { unfold pressSpace. by rewrite H. }
  assert (E2 : pressSpace (afterSpace b)
               = toggleFile (path f0) (pressSpace b)).
  { unfold pressSpace at 1.
    change (browser_items (afterSpace b)) with (browser_items b).
    change (focusIndex (afterSpace b)) with (focusIndex b).
    by rewrite H. }
  rewrite E2, E. unfold toggleFile.
  split; [|split].
  - case_bool_decide; set_solver.
  - intros p Hp. case_bool_decide; set_solver.
  - apply leibniz_equiv. intros x. destruct (decide (x = path f0));
      repeat case_bool_decide; set_solver.
Qed.

Lemma file_toggle_involutive_witness :
  ∃ f0, Some f_a = Some f0 ∧
    (path f0 ∈ pressSpace file_row_browser
       ↔ path f0 ∉ selectedPaths file_row_browser) ∧
    (∀ p, p ≠ path f0 →
       (p ∈ pressSpace file_row_browser
          ↔ p ∈ selectedPaths file_row_browser)) ∧
    pressSpace (afterSpace file_row_browser)
      = selectedPaths file_row_browser.
Proof.
  apply (file_toggle_involutive file_row_browser (Some f_a) (Some unstaged)
           None).
  reflexivity.
Defined.

(** X8. The [a] key is an all-or-nothing toggle over the File rows that are
    shown: with [P] the paths of the File rows in its scope (the group of
    the focused File row, every group otherwise), it removes [P] from the
    selection when all of [P] is selected and adds [P] otherwise. The
    membership of a path that no shown File row bears is never changed, so
    files hidden under a collapsed directory are neither selected nor
    deselected by it, and with no File row shown the key does nothing. *)
Theorem select_all_acts_on_shown_rows (b : Browser) :
  let items := browser_items b in
  let P := paths_of (row_records (a_scope b) items) in
  let S := selectedPaths b in
  pressA b = (if bool_decide (P ⊆ S) then S ∖ P else S ∪ P) ∧
  (∀ p, p ∈ P ↔
        ∃ f g node, a_scope b g = true ∧
                    item_file (Some f) g node ∈ items ∧ path f = p) ∧
  (∀ p, (¬ ∃ f g node, item_file (Some f) g node ∈ items ∧ path f = p) →
        (p ∈ pressA b ↔ p ∈ S)) ∧
  ((∀ f g node, item_file f g node ∉ items) → pressA b = S).
Proof.
  intros items P S.
  assert (E : pressA b = if bool_decide (P ⊆ S) then S ∖ P else S ∪ P).
  { rewrite pressA_rows. apply toggleGroup_spec. }
  assert (HP : ∀ p, p ∈ P ↔
             ∃ f g node, a_scope b g = true ∧
                         item_file (Some f) g node ∈ items ∧ path f = p).
  { intros p. unfold P, paths_of.
    rewrite elem_of_list_to_set, list_elem_of_fmap. split.
    - intros (f & -> & Hf).
      apply elem_of_row_records in Hf as (g & node & Hk & Hin).
      by exists f, g, node.
    - intros (f & g & node & Hk & Hin & <-). exists f. split; [done|].
      apply elem_of_row_records. by exists g, node. }
  split; [exact E|]. split; [exact HP|]. split.
  - intros p Hp. assert (HnP : p ∉ P).
    { intros Hin. apply HP in Hin as (f & g & node & _ & Hin & Hpath).
      apply Hp. by exists f, g, node. }
    rewrite E. case_bool_decide; set_solver.
  - intros Hnone. assert (HP0 : P ≡ ∅).
    { apply elem_of_equiv_empty. intros p Hin.
      apply HP in Hin as (f & g & node & _ & Hin & _).
      by apply (Hnone (Some f) g node). }
    rewrite E. apply leibniz_equiv. case_bool_decide; set_solver.
Qed.

(** X9. In flat mode the [a] key on a File row does what space does on the
    header of the row's group: it toggles all records of that group. With
    the focus on a header it toggles the records of both groups together. *)
Theorem select_all_flat (b : Browser) :
  viewMode b = flat →
  (∀ f g node,
     browser_items b !! focusIndex b = Some (item_file f (Some g) node) →
     pressA b = toggleGroup (group_files g b) (selectedPaths b)) ∧
  (∀ label n,
     browser_items b !! focusIndex b = Some (item_group label n) →
     pressA b
       = toggleGroup (unstagedFiles b ++ stagedFiles b) (selectedPaths b)).
Proof.
  intros Hflat.
  assert (E : ∀ keep,
    row_records keep (browser_items b)
      = (if keep (Some unstaged) then unstagedFiles b else [])
        ++ (if keep (Some staged) then stagedFiles b else [])).
  { intros keep. unfold browser_items. rewrite Hflat, flat_items.
    by rewrite row_records_app, !row_records_flat. }
  split.
  - intros f g node H. rewrite pressA_rows, E. unfold a_scope. rewrite H.
    destruct g; simpl.
    + by rewrite app_nil_r.
    + done.
  - intros label n H. rewrite pressA_rows, E. unfold a_scope.
    by rewrite H.
Qed.

Lemma select_all_flat_witness :
  (∀ f g node,
     browser_items file_row_browser !! focusIndex file_row_browser
       = Some (item_file f (Some g) node) →
     pressA file_row_browser
       = toggleGroup (group_files g file_row_browser)
           (selectedPaths file_row_browser)) ∧
  (∀ label n,
     browser_items file_row_browser !! focusIndex file_row_browser
       = Some (item_group label n) →
     pressA file_row_browser
       = toggleGroup (unstagedFiles file_row_browser
                        ++ stagedFiles file_row_browser)
           (selectedPaths file_row_browser)).
Proof. apply (select_all_flat file_row_browser). reflexivity. Defined.


(** ** Status parser *)

Section Porcelain.

Implicit Types (s a b : string) (rs : list GitChange).

Lemma truthy_app a b : JS.truthy a = true → JS.truthy (a +:+ b) = true.
Proof. by destruct a. Qed.

Lemma truthy_length s : JS.truthy s = true ↔ (0 < String.length s)%nat.
Proof. destruct s; simpl; split; (done || lia). Qed.

Lemma substring_all s : String.substring 0 (String.length s) s = s.
Proof. induction s as [|c s IH]; simpl; [done|]. by rewrite IH. Qed.

Lemma substring_prefix a b :
  String.substring 0 (String.length a) (a +:+ b) = a.
Proof.
  induction a as [|c a IH]; simpl; [by destruct b|].
  change (String c (String.substring 0 (String.length a) (a +:+ b))
          = String c a).
  by rewrite IH.
Qed.

Lemma substring_suffix a b :
  String.substring (String.length a) (String.length b) (a +:+ b) = b.
Proof.
  induction a as [|c a IH]; [apply substring_all|exact IH].
Qed.

Lemma slice_prefix a b : JS.slice (a +:+ b) 0 (JS.length a) = a.
Proof.
  unfold JS.slice, JS.rel_index, JS.length. rewrite length_append.
  destruct (Z.ltb_spec 0 0); [lia|].
  destruct (Z.ltb_spec (Z.of_nat (String.length a)) 0); [lia|].
  rewrite Z.min_l by lia. rewrite Z.min_l by lia.
  rewrite Z.sub_0_r, Z.max_l by lia. rewrite Nat2Z.id.
  apply substring_prefix.
Qed.

Lemma slice_suffix a b : JS.slice_from (a +:+ b) (JS.length a) = b.
Proof.
  unfold JS.slice_from, JS.slice, JS.rel_index, JS.length.
  rewrite length_append.
  destruct (Z.ltb_spec (Z.of_nat (String.length a)) 0); [lia|].
  destruct (Z.ltb_spec (Z.of_nat (String.length a + String.length b)) 0);
    [lia|].
  rewrite Z.min_l by lia. rewrite Z.min_id.
  rewrite Z.max_l by lia. rewrite Nat2Z.id.
  replace (Z.to_nat (Z.of_nat (String.length a + String.length b)
                     - Z.of_nat (String.length a)))
    with (String.length b) by lia.
  apply substring_suffix.
Qed.

(** Splitting at a separator: the text before the first separator is the
    first piece. *)
Lemma split_sep_app sep a b :
  JS.includes sep a = false →
  JS.split sep (a +:+ String sep b) = a :: JS.split sep b.
Proof.
  induction a as [|c a IH]; intros H.
  - change (JS.split sep (String sep b) = "" :: JS.split sep b).
    simpl. by rewrite Ascii.eqb_refl.
  - simpl in H. apply orb_false_iff in H as [Hc Ha].
    change (JS.split sep (String c (a +:+ String sep b))
            = String c a :: JS.split sep b).
    simpl. by rewrite Hc, (IH Ha).
Qed.

Lemma split_no_sep sep a :
  JS.includes sep a = false → JS.split sep a = [a].
Proof.
  induction a as [|c a IH]; intros H; [done|].
  simpl in H. apply orb_false_iff in H as [Hc Ha].
  simpl. by rewrite Hc, (IH Ha).
Qed.

(** The pieces of a split do not contain the separator. *)
Lemma split_free sep s :
  Forall (fun p => JS.includes sep p = false) (JS.split sep s).
Proof.
  induction s as [|c s IH]; simpl.
  - by repeat constructor.
  - destruct (Ascii.eqb c sep) eqn:Hc; [by constructor|].
    destruct (JS.split sep s) as [|p ps]; [by repeat constructor; simpl;
      rewrite Hc|].
    apply Forall_cons in IH as [Hp Hps]. constructor; [|done].
    simpl. by rewrite Hc.
Qed.

Lemma includes_substring sep s : ∀ n m,
  JS.includes sep s = false →
  JS.includes sep (String.substring n m s) = false.
Proof.
  induction s as [|c s IH]; intros n m H.
  - by destruct n, m.
  - simpl in H. apply orb_false_iff in H as [Hc Hs].
    destruct n as [|n]; [destruct m as [|m]; [done|]|]; simpl.
    + by rewrite Hc, IH.
    + by apply IH.
Qed.

Lemma nul_free_app a b : nul_free a → nul_free b → nul_free (a +:+ b).
Proof.
  unfold nul_free. intros Ha Hb. rewrite includes_app, Ha, Hb. done.
Qed.

Lemma filter_split_entries (es : list string) :
  Forall (fun e => nul_free e ∧ JS.truthy e = true) es →
  List.filter JS.truthy
    (JS.split "000"%char (fold_right (fun e acc => e +:+ NUL +:+ acc) "" es))
  = es.
Proof.
  induction es as [|e es IH]; intros H; [done|].
  apply Forall_cons in H as [[He Ht] H].
  change (fold_right (fun e acc => e +:+ NUL +:+ acc) "" (e :: es))
    with (e +:+ String "000"%char
                  (fold_right (fun e acc => e +:+ NUL +:+ acc) "" es)).
  rewrite split_sep_app by exact He.
  simpl. by rewrite Ht, (IH H).
Qed.

Lemma status_code_two r :
  String.length (statusCode r) = 2%nat →
  ∃ x y, statusCode r = String x (String y "").
Proof.
  destruct (statusCode r) as [|x [|y [|z t]]]; simpl; intros H;
    try discriminate H.
  by exists x, y.
Qed.

Lemma porcelain_entries_ok r :
  status_record r →
  Forall (fun e => nul_free e ∧ JS.truthy e = true) (porcelain_entries r).
Proof.
  intros (Hlen & Hsc & Hp & Hr). unfold porcelain_entries.
  assert (H1 : nul_free (statusCode r +:+ " " +:+ path r)).
  { apply nul_free_app; [done|]. by apply nul_free_app. }
  assert (H2 : JS.truthy (statusCode r +:+ " " +:+ path r) = true).
  { apply truthy_app, truthy_length. lia. }
  destruct (is_rename (statusCode r)).
  - destruct Hr as (_ & o & -> & Ho & Hfree).
    repeat constructor; try done. by destruct o.
  - destruct Hr as [_ ->]. by repeat constructor.
Qed.

Lemma flat_entries_ok rs :
  Forall status_record rs →
  Forall (fun e => nul_free e ∧ JS.truthy e = true)
    (flat_map porcelain_entries rs).
Proof.
  induction rs as [|r rs IH]; intros H; [constructor|].
  apply Forall_cons in H as [Hr H].
  change (flat_map porcelain_entries (r :: rs))
    with (porcelain_entries r ++ flat_map porcelain_entries rs).
  apply Forall_app. split.
  - by apply porcelain_entries_ok.
  - by apply IH.
Qed.

(** The fields the loop reads off an entry. *)
Lemma entry_fields (sc p : string) :
  String.length sc = 2%nat →
  (JS.length (sc +:+ " " +:+ p) <? 3) = false ∧
  JS.slice (sc +:+ " " +:+ p) 0 2 = sc ∧
  JS.slice_from (sc +:+ " " +:+ p) 3 = p.
Proof.
  intros Hlen. split; [|split].
  - rewrite !JS_length_append. unfold JS.length. rewrite Hlen. simpl.
    apply Z.ltb_ge. lia.
  - replace 2 with (JS.length sc) by (unfold JS.length; lia).
    apply slice_prefix.
  - rewrite <- append_assoc.
    replace 3 with (JS.length (sc +:+ " "))
      by (rewrite JS_length_append; unfold JS.length; simpl; lia).
    apply slice_suffix.
Qed.

Lemma parse_printed rs :
  Forall status_record rs →
  parse_entries (flat_map porcelain_entries rs) = rs.
Proof.
  induction rs as [|r rs IH]; intros H; [done|].
  apply Forall_cons in H as [Hr H]. specialize (IH H).
  pose proof (porcelain_entries_ok r Hr) as Hok.
  destruct Hr as (Hlen & Hsc & Hp & Hr).
  destruct (entry_fields (statusCode r) (path r) Hlen) as (E1 & E2 & E3).
  unfold porcelain_entries in *. simpl.
  apply Forall_cons in Hok as [[_ Ht] Hok].
  rewrite Ht, E1. simpl. rewrite E2, E3.
  destruct (is_rename (statusCode r)).
  - destruct Hr as (Hst & o & Ho & Hne & Hfree). rewrite Ho. simpl.
    assert (Hto : JS.truthy o = true) by by destruct o.
    rewrite Hto, IH. f_equal. destruct r; simpl in *. by subst.
  - destruct Hr as [Hst Ho]. rewrite Ho. simpl. rewrite IH. f_equal.
    destruct r; simpl in *. by subst.
Qed.

(** Printed records parse back (used for the parser's own results). *)
Lemma parse_of_porcelain rs :
  Forall status_record rs → parsePorcelainZ (porcelain rs) = rs.
Proof.
  intros H. unfold parsePorcelainZ, porcelain.
  rewrite filter_split_entries by by apply flat_entries_ok.
  rewrite parse_printed by done.
  destruct rs as [|r rs]; [done|].
  apply Forall_cons in H as [(Hlen & _) _].
  destruct (status_code_two r Hlen) as (x & y & E).
  simpl. unfold porcelain_entries at 1. rewrite E. done.
Qed.

Lemma nul_free_slice s from to : nul_free s → nul_free (JS.slice s from to).
Proof. intros H. unfold JS.slice. by apply includes_substring. Qed.

Lemma parse_entries_records : ∀ (n : nat) (es : list string),
  (List.length es <= n)%nat →
  Forall (fun e => nul_free e ∧ JS.truthy e = true) es →
  Forall status_record (parse_entries es).
Proof.
  induction n as [|n IH]; intros [|e es] Hn H; simpl in *;
    try constructor; try lia.
  apply Forall_cons in H as [[He Ht] H].
  assert (IH1 : Forall status_record (parse_entries es))
    by (apply IH; [lia|done]).
  rewrite Ht. simpl.
  destruct (Z.ltb_spec (JS.length e) 3) as [Hshort|Hlong]; [done|].
  assert (Hlen : String.length (JS.slice e 0 2) = 2%nat).
  { pose proof (JS_length_slice_to e 2 ltac:(lia)) as Hl.
    unfold JS.length in Hl. lia. }
  destruct (is_rename (JS.slice e 0 2)) eqn:Hren.
  - destruct es as [|o es]; [constructor|].
    apply Forall_cons in H as [[Ho Hto] H].
    rewrite Hto. constructor; [|apply IH; [simpl in Hn; lia|done]].
    repeat split; simpl; try done; try by apply nul_free_slice.
    rewrite Hren. split; [done|]. exists o. repeat split; try done.
    by destruct o.
  - constructor; [|done].
    repeat split; simpl; try done; try by apply nul_free_slice.
    by rewrite Hren.
Qed.

Lemma split_entries_ok (output : string) :
  Forall (fun e => nul_free e ∧ JS.truthy e = true)
    (List.filter JS.truthy (JS.split "000"%char output)).
Proof.
  pose proof (split_free "000"%char output) as H.
  induction H as [|e es He H IH]; simpl; [constructor|].
  destruct (JS.truthy e) eqn:Ht; [|done]. by constructor.
Qed.

End Porcelain.

(** X11. Parsing what [git status --porcelain -z] prints for a list of
    records (two status letters, a blank, the path, a NUL, and for a rename
    the old path and a NUL) gives the records back, in order: paths with
    blanks or line breaks included, renames with their old path. *)
Theorem parse_porcelain_roundtrip (rs : list GitChange) :
  Forall status_record rs → parsePorcelainZ (porcelain rs) = rs.
Proof.
  intros H. unfold parsePorcelainZ, porcelain.
  rewrite filter_split_entries by by apply flat_entries_ok.
  rewrite parse_printed by done.
  destruct rs as [|r rs]; [done|].
  apply Forall_cons in H as [(Hlen & _) _].
  destruct (status_code_two r Hlen) as (x & y & E).
  simpl. unfold porcelain_entries at 1. rewrite E. done.
Qed.

Lemma parse_porcelain_roundtrip_witness :
  parsePorcelainZ (porcelain [f_a; f_renamed; f_b]) = [f_a; f_renamed; f_b].
Proof.
  apply (parse_porcelain_roundtrip [f_a; f_renamed; f_b]).
  repeat constructor; simpl; try reflexivity.
  exists "src/old.ts". repeat split; try reflexivity. discriminate.
Defined.

(** X12. Whatever text it is given, the status parser returns records with
    exactly two status letters, with status [R] and a non-empty old path
    for a rename and the trimmed letters and no old path otherwise, and
    with no NUL in a field; printing such a result and parsing it again
    gives it back, so parsing normalises its input in one pass. *)
Theorem parse_porcelain_records (output : string) :
  Forall status_record (parsePorcelainZ output) ∧
  parsePorcelainZ (porcelain (parsePorcelainZ output))
    = parsePorcelainZ output.
Proof.
  assert (H : Forall status_record (parsePorcelainZ output)).
  { unfold parsePorcelainZ. destruct (JS.truthy output); [|constructor].
    apply (parse_entries_records _ _ (Nat.le_refl _)), split_entries_ok. }
  split; [exact H|]. by apply parse_of_porcelain.
Qed.

(** ** Commit history *)

Section CommitHistory.

Implicit Types (s a b x y : string) (cs : list CommitItem).

Lemma trimStart_solid a b : solid a → JS.trimStart (a +:+ b) = a +:+ b.
Proof.
  intros [Hne Hs]. destruct a as [|c a]; [done|].
  simpl in Hs. apply andb_true_iff in Hs as [Hc _].
  change (JS.trimStart (String c (a +:+ b)) = String c (a +:+ b)).
  simpl. by destruct (JS.is_space c).
Qed.

Lemma trimEnd_solid a : no_space a = true → JS.trimEnd a = a.
Proof.
  induction a as [|c a IH]; simpl; [done|]. intros Hs.
  apply andb_true_iff in Hs as [Hc Hs]. rewrite (IH Hs).
  destruct a; [|done]. by destruct (JS.is_space c).
Qed.

Lemma trimEnd_app x y :
  JS.trimEnd y = y → y ≠ "" → JS.trimEnd (x +:+ y) = x +:+ y.
Proof.
  intros Hy Hne. induction x as [|c x IH]; [done|].
  change (JS.trimEnd (String c (x +:+ y)) = String c (x +:+ y)).
  simpl. rewrite IH. destruct (x +:+ y) eqn:E; [|done].
  destruct x; [|done]. by destruct y.
Qed.

Lemma split_join sep (l : list string) :
  l ≠ [] →
  Forall (fun s => JS.includes sep s = false) l →
  JS.split sep (array_join (String sep "") l) = l.
Proof.
  induction l as [|s l IH]; intros Hne H; [done|].
  apply Forall_cons in H as [Hs H].
  destruct l as [|s' l]; [by apply split_no_sep|].
  change (array_join (String sep "") (s :: s' :: l))
    with (s +:+ String sep (array_join (String sep "") (s' :: l))).
  rewrite split_sep_app by done. by rewrite IH.
Qed.

Lemma split_log_line c :
  Forall (fun s => bar_free s ∧ line_free s)
    [hash c; author c; message c; date c] →
  JS.split "|"%char (log_line c)
    = [hash c; author c; message c; date c].
Proof.
  intros H.
  apply (split_join "|"%char [hash c; author c; message c; date c]);
    [done|].
  eapply Forall_impl; [exact H|]. by intros s [Hs _].
Qed.

Lemma commit_of_log_line c :
  log_record c → commit_of_line (log_line c) = c.
Proof.
  intros (_ & _ & H). unfold commit_of_line.
  rewrite split_log_line by done. by destruct c.
Qed.

Lemma line_free_app a b : line_free a → line_free b → line_free (a +:+ b).
Proof.
  unfold line_free. intros Ha Hb. by rewrite includes_app, Ha, Hb.
Qed.

Lemma log_line_free c : log_record c → line_free (log_line c).
Proof.
  intros (_ & _ & H).
  apply Forall_cons in H as [[_ H1] H].
  apply Forall_cons in H as [[_ H2] H].
  apply Forall_cons in H as [[_ H3] H].
  apply Forall_cons in H as [[_ H4] _].
  unfold log_line. repeat (apply line_free_app; [done|]). done.
Qed.

Lemma log_output_cons c cs :
  ∃ rest, log_output (c :: cs) = hash c +:+ rest.
Proof.
  destruct cs as [|c' cs].
  - by eexists.
  - change (log_output (c :: c' :: cs))
      with ((hash c +:+ "|" +:+ author c +:+ "|" +:+ message c +:+ "|"
               +:+ date c) +:+ LF +:+ log_output (c' :: cs)).
    rewrite append_assoc. by eexists.
Qed.

Lemma log_output_trimEnd cs :
  cs ≠ [] → Forall log_record cs →
  JS.trimEnd (log_output cs) = log_output cs ∧ log_output cs ≠ "".
Proof.
  induction cs as [|c cs IH]; intros Hne H; [done|].
  apply Forall_cons in H as [(Hh & Hd & Hc) H].
  assert (Hline : JS.trimEnd (log_line c) = log_line c ∧ log_line c ≠ "").
  { unfold log_line. rewrite <- !append_assoc. split.
    - apply trimEnd_app; [apply trimEnd_solid, Hd|apply Hd].
    - intros E. destruct Hh as [Hh _]. by destruct (hash c). }
  destruct cs as [|c' cs]; [exact Hline|].
  destruct (IH ltac:(done) H) as [IH1 IH2].
  change (log_output (c :: c' :: cs))
    with (log_line c +:+ LF +:+ log_output (c' :: cs)).
  rewrite <- append_assoc. split.
  - by apply trimEnd_app.
  - intros E. destruct Hline as [_ Hl]. by destruct (log_line c).
Qed.

Lemma log_output_trim cs :
  cs ≠ [] → Forall log_record cs →
  JS.trim (log_output cs) = log_output cs ∧ log_output cs ≠ "".
Proof.
  intros Hne H. destruct (log_output_trimEnd cs Hne H) as [H1 H2].
  split; [|done]. unfold JS.trim.
  destruct cs as [|c cs]; [done|].
  destruct (log_output_cons c cs) as [rest E].
  apply Forall_cons in H as [(Hh & _) _].
  rewrite E, trimStart_solid by done. by rewrite <- E.
Qed.

Lemma map_commit_of_line cs :
  Forall log_record cs → map commit_of_line (map log_line cs) = cs.
Proof.
  induction 1 as [|c cs Hc H IH]; [done|].
  simpl. by rewrite commit_of_log_line, IH.
Qed.

End CommitHistory.

(** X13. Reading the commit history back: for commits whose four fields
    contain no [|] and no line feed, and whose hash and date are non-empty
    and free of white space, parsing what [git log] prints with the format
    [%h|%an|%s|%ad] gives exactly those commits, in order; an empty subject
    or author is kept as the empty string. *)
Theorem commit_history_roundtrip (cs : list CommitItem) :
  Forall log_record cs → getCommitHistory (Some (log_output cs)) = cs.
Proof.
  intros H. unfold getCommitHistory.
  destruct cs as [|c cs]; [done|].
  destruct (log_output_trim (c :: cs) ltac:(done) H) as [E Hne].
  assert (Ht : JS.truthy (log_output (c :: cs)) = true)
    by by destruct (log_output (c :: cs)).
  rewrite E, Ht. simpl negb. cbv iota. unfold log_output.
  rewrite (split_join "010"%char) by
    (done || (apply Forall_map; eapply Forall_impl; [exact H|];
              apply log_line_free)).
  by apply map_commit_of_line.
Qed.

Lemma commit_history_roundtrip_witness :
  getCommitHistory (Some (log_output [commit_1; commit_2]))
    = [commit_1; commit_2].
Proof.
  apply (commit_history_roundtrip [commit_1; commit_2]).
  repeat constructor; simpl; try reflexivity; discriminate.
Defined.



(** ** Multi-file export *)

Section ExportCalls.

Lemma filter_split_perm {A} (f : A → bool) (l : list A) :
  List.filter f l ++ List.filter (fun x => negb (f x)) l ≡ₚ l.
Proof.
  induction l as [|x l IH]; simpl; [done|].
  destruct (f x); simpl.
  - by rewrite IH.
  - rewrite <- Permutation_middle. by rewrite IH.
Qed.

Lemma guarded_call_paths (pre ps : list string) :
  (∀ ps', paths_of_call (pre ++ ps') = ps') →
  flat_map paths_of_call
    (if (0 <? List.length ps)%nat then [pre ++ ps] else []) = ps.
Proof.
  intros H. destruct ps as [|p ps]; [done|].
  simpl. by rewrite H, app_nil_r.
Qed.

Lemma untracked_call_paths nullPath (l : list DiffTarget) :
  flat_map paths_of_call
    (map (fun p => ["diff"; "--no-color"; "--no-index"; "--"; nullPath;
                    t_path p]) l)
  = map t_path l.
Proof. induction l as [|p l IH]; simpl; [done|]. by rewrite IH. Qed.

Lemma export_calls_paths nullPath (paths : list DiffTarget) :
  flat_map paths_of_call (exportMultipleDiffs_calls nullPath paths)
    ≡ₚ map t_path paths.
Proof.
  unfold exportMultipleDiffs_calls.
  destruct (List.length paths =? 0)%nat eqn:Ep; [by destruct paths|].
  rewrite !flat_map_app.
  rewrite (guarded_call_paths ["diff"; "--no-color"; "--"]) by done.
  rewrite (guarded_call_paths ["diff"; "--no-color"; "--cached"; "--"])
    by done.
  rewrite untracked_call_paths.
  rewrite <- !map_app.
  apply Permutation_map.
  rewrite app_assoc.
  rewrite (Permutation_app_comm
             (List.filter (fun p => negb (t_staged p)) _)).
  rewrite filter_split_perm.
  rewrite Permutation_app_comm. apply filter_split_perm.
Qed.

End ExportCalls.


(** ** Default file names *)

Section FileNames.

Implicit Types (a b : string) (n : nat) (now : Date).

Lemma append_inv_head a b1 b2 : a +:+ b1 = a +:+ b2 → b1 = b2.
Proof.
  induction a as [|c a IH]; [done|]. intros H.
  change (String c (a +:+ b1) = String c (a +:+ b2)) in H.
  injection H as H. by apply IH.
Qed.

Lemma append_inj a1 : ∀ a2 b1 b2,
  String.length a1 = String.length a2 →
  a1 +:+ b1 = a2 +:+ b2 → a1 = a2 ∧ b1 = b2.
Proof.
  induction a1 as [|c a1 IH]; intros [|c2 a2] b1 b2 Hlen H;
    try discriminate Hlen; [done|].
  change (String c (a1 +:+ b1) = String c2 (a2 +:+ b2)) in H.
  injection H as -> H. injection Hlen as Hlen.
  destruct (IH a2 b1 b2 Hlen H) as [-> ->]. done.
Qed.

Lemma number_of_year n :
  (10 * 100 <= n < 100 * 100)%nat → number_of (JS.of_nat n) = n.
Proof.
  intros H.
  assert (A : forallb (fun k => (number_of (JS.of_nat k) =? k)%nat)
                (seq (10 * 100) (90 * 100)) = true)
    by (vm_compute; reflexivity).
  rewrite forallb_forall in A. specialize (A n).
  apply Nat.eqb_eq, A, in_seq. lia.
Qed.

Lemma number_of_pad2 n : (n < 100)%nat → number_of (pad2 n) = n.
Proof.
  intros H.
  assert (A : forallb (fun k => (number_of (pad2 k) =? k)%nat)
                (seq 0 100) = true)
    by (vm_compute; reflexivity).
  rewrite forallb_forall in A. specialize (A n).
  apply Nat.eqb_eq, A, in_seq. lia.
Qed.

(** The date and time parts of a file name determine the clock reading. *)
Lemma stamp_inj now1 now2 (r1 r2 : string) :
  four_digit_year now1 → four_digit_year now2 →
  JS.of_nat (year now1) +:+ pad2 (month now1 + 1) +:+ pad2 (day now1)
    +:+ "_" +:+ pad2 (hours now1) +:+ pad2 (minutes now1)
    +:+ pad2 (seconds now1) +:+ r1
  = JS.of_nat (year now2) +:+ pad2 (month now2 + 1) +:+ pad2 (day now2)
    +:+ "_" +:+ pad2 (hours now2) +:+ pad2 (minutes now2)
    +:+ pad2 (seconds now2) +:+ r2 →
  now1 = now2.
Proof.
  intros (Hy1 & Hm1 & Hd1 & Hh1 & Hmi1 & Hs1)
         (Hy2 & Hm2 & Hd2 & Hh2 & Hmi2 & Hs2) H.
  assert (L2 : ∀ n m, (n < 100)%nat → (m < 100)%nat →
             String.length (pad2 n) = String.length (pad2 m)).
  { intros n m Hn Hm. destruct (pad2_digits n Hn) as [-> _].
    by destruct (pad2_digits m Hm) as [-> _]. }
  assert (P2 : ∀ n m, (n < 100)%nat → (m < 100)%nat →
             pad2 n = pad2 m → n = m).
  { intros n m Hn Hm E. rewrite <- (number_of_pad2 n), <- (number_of_pad2 m)
      by done. by rewrite E. }
  apply append_inj in H as [Ey H].
  2:{ destruct (year_digits _ Hy1) as [-> _].
      by destruct (year_digits _ Hy2) as [-> _]. }
  apply append_inj in H as [Em H]; [|apply L2; lia].
  apply append_inj in H as [Ed H]; [|apply L2; lia].
  apply (append_inj "_" "_") in H as [_ H]; [|done].
  apply append_inj in H as [Eh H]; [|apply L2; lia].
  apply append_inj in H as [Emi H]; [|apply L2; lia].
  apply append_inj in H as [Es _]; [|apply L2; lia].
  apply P2 in Em, Ed, Eh, Emi, Es; try lia.
  assert (Ey' : year now1 = year now2).
  { rewrite <- (number_of_year (year now1)), <- (number_of_year (year now2))
      by done. by rewrite Ey. }
  destruct now1, now2; simpl in *. f_equal; lia.
Qed.

Lemma timestamped_name_inj now1 now2 pfx :
  four_digit_year now1 → four_digit_year now2 →
  getTimestampedFileName now1 pfx = getTimestampedFileName now2 pfx →
  now1 = now2.
Proof.
  intros H1 H2 E. unfold getTimestampedFileName in E.
  apply append_inv_head in E. apply (append_inv_head "_") in E.
  by apply (stamp_inj now1 now2 ".txt" ".txt").
Qed.

Lemma commit_name_inj now1 now2 h :
  four_digit_year now1 → four_digit_year now2 →
  getCommitFileName now1 h = getCommitFileName now2 h →
  now1 = now2.
Proof.
  intros H1 H2 E. unfold getCommitFileName in E.
  apply (append_inv_head "diff_") in E. apply append_inv_head in E.
  apply (append_inv_head "_") in E.
  rewrite !append_assoc in E.
  by apply (stamp_inj now1 now2 ".txt" ".txt").
Qed.

End FileNames.

(** X16. With a four-digit year, the default export names tell clock
    readings apart: for one prefix (or one commit hash) two readings give
    the same file name only when they are the same second, so default-named
    exports made in different seconds never write to the same file. *)
Theorem default_names_distinct (now1 now2 : Date) (pfx : string) :
  four_digit_year now1 → four_digit_year now2 → now1 ≠ now2 →
  getTimestampedFileName now1 pfx ≠ getTimestampedFileName now2 pfx ∧
  getCommitFileName now1 pfx ≠ getCommitFileName now2 pfx.
Proof.
  intros H1 H2 Hne. split; intros E; apply Hne.
  - by apply (timestamped_name_inj now1 now2 pfx).
  - by apply (commit_name_inj now1 now2 pfx).
Qed.

Lemma default_names_distinct_witness :
  getTimestampedFileName sample_date "diff"
    ≠ getTimestampedFileName sample_date_later "diff" ∧
  getCommitFileName sample_date "diff"
    ≠ getCommitFileName sample_date_later "diff".
Proof.
  apply (default_names_distinct sample_date sample_date_later "diff").
  - unfold four_digit_year. simpl. lia.
  - unfold four_digit_year. simpl. lia.
  - discriminate.
Defined.

(** ** Path prompt sessions *)

Section Prompt.

Implicit Types (st : InputState) (env : Env) (key : Key)
  (evs : list (Env * string * Key)).

Lemma insertAtCursor_mode text st :
  inputMode (insertAtCursor text st) = inputMode st.
Proof. done. Qed.

(** A key press in path mode keeps the mode or returns to normal, and
    returns to normal exactly on Esc and on Enter (Tab being handled first
    in the code-dump prompt). *)
Lemma pathModeInput_mode env input key st :
  let st' := fst (pathModeInput env input key st) in
  (inputMode st' = inputMode st ∨ inputMode st' = normal) ∧
  (inputMode st ≠ normal → inputMode st' = normal →
   k_escape key = true ∨ k_return key = true).
Proof.
  unfold pathModeInput.
  destruct (k_escape key); [simpl; by auto|].
  destruct (k_tab key && bool_decide (inputMode st = export_code_dump));
    [simpl; by auto|].
  destruct (k_return key); [simpl; by auto|].
  destruct (k_backspace key || k_delete key).
  { simpl. destruct (cursorPosition st >? 0); simpl; split; auto;
      intros Hn E; by destruct (Hn E). }
  destruct (k_ctrl key && bool_decide (input = "v")).
  { simpl. destruct (clipboard env); simpl; split; auto;
      intros Hn E; by destruct (Hn E). }
  destruct (k_ctrl key && bool_decide (input = "u"));
    [simpl; split; auto; intros Hn E; by destruct (Hn E)|].
  destruct (k_leftArrow key);
    [simpl; split; auto; intros Hn E; by destruct (Hn E)|].
  destruct (k_rightArrow key);
    [simpl; split; auto; intros Hn E; by destruct (Hn E)|].
  destruct (k_home key);
    [simpl; split; auto; intros Hn E; by destruct (Hn E)|].
  destruct (k_end key);
    [simpl; split; auto; intros Hn E; by destruct (Hn E)|].
  destruct (JS.truthy input && negb (k_ctrl key) && negb (k_meta key));
    simpl; split; auto; intros Hn E; by destruct (Hn E).
Qed.

(** Only Enter calls an export routine, and the routine is the one the
    Enter branch picks. *)
Lemma pathModeInput_call env input key st call :
  snd (pathModeInput env input key st) = Some call →
  k_return key = true ∧ k_escape key = false ∧
  confirmExport env st = Some call.
Proof.
  unfold pathModeInput.
  destruct (k_escape key); [done|].
  destruct (k_tab key && bool_decide (inputMode st = export_code_dump));
    [done|].
  destruct (k_return key); [done|].
  repeat (match goal with
          | |- context [if ?b then _ else _] => destruct b
          end; try done).
Qed.

Lemma confirm_single env st :
  confirmExport env st = Some handleExportSingle →
  inputMode st = export_path ∧ focusPane env = files ∧
  selectedCount env = 0%nat.
Proof.
  unfold confirmExport.
  destruct (inputMode st); try done.
  destruct (focusPane env); try done.
  destruct (selectedCount env =? 0)%nat eqn:E; [|done].
  intros _. by apply Nat.eqb_eq in E.
Qed.

(** The guard under which [E] opens the prompt holds of the state it
    leaves. *)
Lemma useInput_guard st env input key :
  prompt_guard st env →
  prompt_guard (useInput st (env, input, key)) env.
Proof.
  intros Hg. unfold prompt_guard, useInput.
  destruct (inputMode st) eqn:Emode.
  - unfold normalModeInput.
    repeat (match goal with
            | |- context [if ?b then _ else _] => destruct b eqn:?
            | |- context [match focusPane env with _ => _ end] =>
                destruct (focusPane env) eqn:?
            end; simpl; try congruence).
    intros _ _. by apply Nat.eqb_neq.
  - destruct (pathModeInput_mode env input key st) as [[E|E] _];
      rewrite E; [|done].
    rewrite Emode. first [done | intros _; by apply Hg].
  - destruct (pathModeInput_mode env input key st) as [[E|E] _];
      rewrite E; [|done].
    rewrite Emode. first [done | intros _; by apply Hg].
  - destruct (pathModeInput_mode env input key st) as [[E|E] _];
      rewrite E; [|done].
    rewrite Emode. first [done | intros _; by apply Hg].
Qed.

Lemma prompt_call_not_single st ev :
  prompt_guard st (fst (fst ev)) →
  prompt_call st ev ≠ Some handleExportSingle.
Proof.
  destruct ev as [[env input] key]. simpl. intros Hg H.
  assert (Hc : confirmExport env st = Some handleExportSingle).
  { destruct (inputMode st); try done;
      by apply pathModeInput_call in H as (_ & _ & H). }
  apply confirm_single in Hc as (Hm & Hf & Hz). by apply Hg.
Qed.

Lemma guard_same_view st env env' :
  same_view env env' → prompt_guard st env → prompt_guard st env'.
Proof.
  intros [Hf Hc] Hg Hm Hfiles. rewrite <- Hc. apply Hg; [done|].
  by rewrite Hf.
Qed.

Lemma prompt_calls_not_single evs : ∀ st,
  match evs with
  | ev :: _ => prompt_guard st (fst (fst ev))
  | [] => True
  end →
  prompt_coherent st evs →
  handleExportSingle ∉ prompt_calls st evs.
Proof.
  induction evs as [|ev evs IH]; intros st Hg Hco;
    [by apply not_elem_of_nil|].
  simpl in Hco. destruct Hco as [Hnext Hco]. simpl.
  apply not_elem_of_app. split.
  - pose proof (prompt_call_not_single st ev Hg) as Hns.
    destruct (prompt_call st ev) as [call|]; [|by apply not_elem_of_nil].
    intros Hin. apply list_elem_of_singleton in Hin. by subst call.
  - apply IH; [|done]. destruct evs as [|ev' evs]; [done|].
    destruct ev as [[env input] key].
    pose proof (useInput_guard st env input key Hg) as Hg'.
    destruct (decide (inputMode (useInput st (env, input, key)) = normal))
      as [En|Hn].
    + intros Hm. by rewrite En in Hm.
    + apply (guard_same_view _ env); [by apply Hnext|exact Hg'].
Qed.

End Prompt.

(** X17. The path prompt is left only by Esc or Enter, and only Enter calls
    an export routine from it. Along any run of key presses that starts in
    normal mode and in which the focused pane and the number of selected
    paths stay as they are while the prompt is open (no handler of the path
    mode sets them), the routine so called is never [handleExportSingle]:
    the prompt opens on the files pane only with a non-empty selection, so
    that branch of the Enter handler is not reached. *)
Theorem prompt_never_exports_single (st : InputState)
    (evs : list (Env * string * Key)) :
  inputMode st = normal →
  prompt_coherent st evs →
  (handleExportSingle ∉ prompt_calls st evs) ∧
  (∀ st0 env input key,
     inputMode st0 ≠ normal →
     (inputMode (useInput st0 (env, input, key)) = normal →
      k_escape key = true ∨ k_return key = true) ∧
     (∀ call, prompt_call st0 (env, input, key) = Some call →
              k_return key = true ∧ k_escape key = false)).
Proof.
  intros Hm Hco. split.
  - apply prompt_calls_not_single; [|done].
    destruct evs as [|ev evs]; [done|]. intros E. by rewrite Hm in E.
  - intros st0 env input key Hn. split.
    + intros E. apply (proj2 (pathModeInput_mode env input key st0) Hn).
      unfold useInput in E. by destruct (inputMode st0).
    + intros call Hc. simpl in Hc.
      destruct (inputMode st0); try done;
        by apply pathModeInput_call in Hc as (? & ? & _).
Qed.

Lemma prompt_never_exports_single_witness :
  (handleExportSingle ∉ prompt_calls initialInput sample_session) ∧
  (∀ st0 env input key,
     inputMode st0 ≠ normal →
     (inputMode (useInput st0 (env, input, key)) = normal →
      k_escape key = true ∨ k_return key = true) ∧
     (∀ call, prompt_call st0 (env, input, key) = Some call →
              k_return key = true ∧ k_escape key = false)).
Proof.
  apply (prompt_never_exports_single initialInput sample_session).
  - reflexivity.
  - simpl. repeat split.
Defined.

(** ** Focus under collapse and expand *)

Section StablePrefix.

Context {X : Type}.
Implicit Types (shown : X → Prop) (l A B : list X).

Lemma first_at_app_l shown A B i :
  first_at shown (A ++ B) i → (i <= List.length A)%nat →
  first_at shown A i.
Proof.
  intros H Hi j x Hj Hx. apply (H j x Hj).
  rewrite lookup_app_l; [done|]. by apply lookup_lt_Some in Hx.
Qed.

Lemma first_at_app_r shown A B i :
  first_at shown (A ++ B) i → (List.length A <= i)%nat →
  (∀ x, x ∈ A → ¬ shown x) ∧ first_at shown B (i - List.length A).
Proof.
  intros H Hi. split.
  - intros x Hx. apply list_elem_of_lookup_1 in Hx as [j Hj].
    apply (H j x); [apply lookup_lt_Some in Hj; lia|].
    rewrite lookup_app_l; [done|]. by apply lookup_lt_Some in Hj.
  - intros j x Hj Hx. apply (H (List.length A + j)%nat x); [lia|].
    rewrite lookup_app_r by lia.
    by replace (List.length A + j - List.length A)%nat with j by lia.
Qed.

(** Two lists built of two segments each agree up to index [i] when each
    segment is unchanged if nothing in it is [shown] and agrees up to the
    first [shown] element otherwise. *)
Lemma take_app_stable shown (d : X) A A' B B' i :
  (A ++ B) !! i = Some d →
  first_at shown (A ++ B) i →
  ((∀ x, x ∈ A → ¬ shown x) → A' = A) →
  (∀ k, A !! k = Some d → first_at shown A k →
        take (S k) A' = take (S k) A) →
  (∀ k, B !! k = Some d → first_at shown B k →
        take (S k) B' = take (S k) B) →
  take (S i) (A' ++ B') = take (S i) (A ++ B).
Proof.
  intros Hd Hfirst HA0 HA HB.
  apply lookup_app_Some in Hd as [Hd|[Hge Hd]].
  - pose proof (lookup_lt_Some _ _ _ Hd) as Hlt.
    pose proof (HA i Hd (first_at_app_l _ _ _ _ Hfirst ltac:(lia))) as E.
    assert (Hlen : (S i <= List.length A')%nat).
    { apply (f_equal List.length) in E. rewrite !length_take in E. lia. }
    by rewrite !take_app_le by lia.
  - destruct (first_at_app_r _ _ _ _ Hfirst Hge) as [Hnone Hfb].
    rewrite (HA0 Hnone). rewrite !take_app_ge by lia.
    f_equal. replace (S i - List.length A)%nat
      with (S (i - List.length A)) by lia.
    by apply HB.
Qed.

End StablePrefix.

Section CollapseFocus.

Variables (p : string) (c c' : gset string).
Hypothesis agree : agree_except p c c'.

Implicit Types (n d : TreeNode) (nodes : list TreeNode).

Lemma expanded_agree n : ¬ dir_node p n → expanded c' n = expanded c n.
Proof.
  intros Hn. unfold expanded.
  destruct (decide (tn_type n = directory)) as [Hd|Hd].
  - f_equal. f_equal. apply bool_decide_ext. symmetry. apply agree.
    intros E. by apply Hn.
  - by rewrite !(bool_decide_eq_false_2 _ Hd).
Qed.

(** A tree in which no directory of path [p] is shown is flattened the
    same way under both sets. *)
Lemma traverse_unshown n :
  (∀ x, x ∈ traverse_node c n → ¬ dir_node p x) →
  traverse_node c' n = traverse_node c n.
Proof.
  induction n as [n IH] using TreeNode_children_ind. intros H.
  rewrite !traverse_node_eq in *.
  rewrite expanded_agree by (apply H; by left). f_equal.
  destruct (expanded c n); [|done].
  apply flat_map_ext_Forall. rewrite Forall_forall in IH.
  apply Forall_forall. intros y Hy. apply IH; [done|].
  intros x Hx. apply H. right. apply elem_of_flat_map. by exists y.
Qed.

Lemma flatten_unshown nodes :
  (∀ x, x ∈ flattenTree nodes c → ¬ dir_node p x) →
  flattenTree nodes c' = flattenTree nodes c.
Proof.
  intros H. apply flat_map_ext_Forall, Forall_forall. intros y Hy.
  apply traverse_unshown. intros x Hx. apply H.
  apply elem_of_flat_map. by exists y.
Qed.

Lemma flatten_stable_aux d (l : list TreeNode) :
  Forall (fun y => ∀ i, traverse_node c y !! i = Some d →
                        first_at (dir_node p) (traverse_node c y) i →
                        take (S i) (traverse_node c' y)
                          = take (S i) (traverse_node c y)) l →
  ∀ i, flattenTree l c !! i = Some d →
       first_at (dir_node p) (flattenTree l c) i →
       take (S i) (flattenTree l c') = take (S i) (flattenTree l c).
Proof.
  induction 1 as [|y ys Hy _ IH]; intros i Hd Hfirst; [done|].
  rewrite !flattenTree_app_cons in *.
  apply (take_app_stable (dir_node p) d); try done.
  apply traverse_unshown.
Qed.

Lemma traverse_stable d n : ∀ i,
  traverse_node c n !! i = Some d →
  first_at (dir_node p) (traverse_node c n) i →
  take (S i) (traverse_node c' n) = take (S i) (traverse_node c n).
Proof.
  induction n as [n IH] using TreeNode_children_ind. intros i Hd Hfirst.
  rewrite !traverse_node_eq in *.
  destruct i as [|i]; [done|]. simpl in Hd.
  assert (Hn : ¬ dir_node p n) by (apply (Hfirst 0%nat); [lia|done]).
  rewrite (expanded_agree n Hn).
  destruct (expanded c n); [|done].
  change (n :: take (S i) (flattenTree (node_children n) c')
          = n :: take (S i) (flattenTree (node_children n) c)).
  f_equal. apply (flatten_stable_aux d _ IH i Hd).
  intros j x Hj Hx. apply (Hfirst (S j) x); [lia|done].
Qed.

Lemma flatten_stable d nodes i :
  flattenTree nodes c !! i = Some d →
  first_at (dir_node p) (flattenTree nodes c) i →
  take (S i) (flattenTree nodes c') = take (S i) (flattenTree nodes c).
Proof.
  apply flatten_stable_aux, Forall_forall. intros y _ k. apply traverse_stable.
Qed.

End CollapseFocus.

Section RowFocus.

Variables (p : string) (c c' : gset string).
Hypothesis agree : agree_except p c c'.

Implicit Types (nodes : list TreeNode) (d : TreeNode).

Lemma lookup_map {A B} (f : A → B) (l : list A) : ∀ i,
  map f l !! i = f <$> (l !! i).
Proof. induction l as [|x l IH]; intros [|i]; simpl; try done. Qed.

Lemma node_item_directory x d :
  node_item x = item_directory d → x = d ∧ tn_type d = directory.
Proof.
  unfold node_item. destruct (tn_type x) eqn:E; intros H;
    try discriminate H.
  injection H as <-. done.
Qed.

Lemma node_item_dir_row x : dir_row p (node_item x) → dir_node p x.
Proof.
  intros (d & E & Hp). by apply node_item_directory in E as [-> Hd].
Qed.

Lemma dir_node_row x : dir_node p x → dir_row p (node_item x).
Proof.
  intros [Hd Hp]. exists x. unfold node_item. by rewrite Hd.
Qed.

Lemma tree_rows_unshown nodes :
  (∀ r, r ∈ map node_item (flattenTree nodes c) → ¬ dir_row p r) →
  map node_item (flattenTree nodes c')
    = map node_item (flattenTree nodes c).
Proof.
  intros H. f_equal. apply (flatten_unshown p c c' agree).
  intros x Hx Hd. apply (H (node_item x)); [by apply elem_of_map_2|].
  by apply dir_node_row.
Qed.

Lemma tree_rows_stable d nodes i :
  map node_item (flattenTree nodes c) !! i = Some (item_directory d) →
  first_at (dir_row p) (map node_item (flattenTree nodes c)) i →
  take (S i) (map node_item (flattenTree nodes c'))
    = take (S i) (map node_item (flattenTree nodes c)).
Proof.
  intros Hd Hfirst. rewrite !firstn_map. f_equal.
  rewrite lookup_map in Hd.
  destruct (flattenTree nodes c !! i) as [x|] eqn:Ex; [|done].
  injection Hd as Hd. apply node_item_directory in Hd as [-> _].
  apply (flatten_stable p c c' agree d); [done|].
  intros j x Hj Hx Hdir. apply (Hfirst j (node_item x) Hj).
  - by rewrite lookup_map, Hx.
  - by apply dir_node_row.
Qed.

Lemma group_rows_unshown label records nodes :
  (∀ r, r ∈ group_rows label records
               (map node_item (flattenTree nodes c)) → ¬ dir_row p r) →
  group_rows label records (map node_item (flattenTree nodes c'))
    = group_rows label records (map node_item (flattenTree nodes c)).
Proof.
  destruct records as [|f records]; [done|]. simpl. intros H. f_equal.
  apply tree_rows_unshown. intros r Hr. apply H. by right.
Qed.

Lemma group_rows_stable d label records nodes i :
  group_rows label records (map node_item (flattenTree nodes c)) !! i
    = Some (item_directory d) →
  first_at (dir_row p)
    (group_rows label records (map node_item (flattenTree nodes c))) i →
  take (S i) (group_rows label records
                (map node_item (flattenTree nodes c')))
    = take (S i) (group_rows label records
                    (map node_item (flattenTree nodes c))).
Proof.
  destruct records as [|f records]; [done|]. simpl.
  destruct i as [|i]; [done|]. simpl. intros Hd Hfirst. f_equal.
  apply (tree_rows_stable d); [done|].
  intros j x Hj Hx. apply (Hfirst (S j) x); [lia|done].
Qed.

Lemma tree_items_stable d u s i :
  allItems u s tree c !! i = Some (item_directory d) →
  first_at (dir_row p) (allItems u s tree c) i →
  take (S i) (allItems u s tree c') = take (S i) (allItems u s tree c).
Proof.
  unfold allItems. rewrite !push_group_tree. simpl.
  intros Hd Hfirst.
  apply (take_app_stable (dir_row p) (item_directory d)); try done.
  - apply group_rows_unshown.
  - intros k. apply group_rows_stable.
  - intros k. apply group_rows_stable.
Qed.

End RowFocus.

Lemma flat_no_directory u s c d : item_directory d ∉ allItems u s flat c.
Proof.
  rewrite flat_items. intros H.
  apply elem_of_app in H as [H|H];
    apply group_rows_elem in H as [H|H]; try discriminate H;
    apply list_elem_of_In, in_map_iff in H as (f & E & _);
    discriminate E.
Qed.

Lemma toggle_agree p (c : gset string) :
  agree_except p c (toggleCollapsed p c).
Proof.
  intros q Hq. unfold toggleCollapsed. case_bool_decide; set_solver.
Qed.

(** X18. Enter on a Directory row leaves every row up to and including
    that row as it was, so the focus stays on the directory it collapsed or
    expanded, provided no Directory row above it bears the same path. The
    collapsed set is shared by the two groups: when [src] is listed under
    "Changes" and under "Staged Changes", Enter on the staged row also
    collapses the unstaged one, and in the scenario the focused index is
    then past the end of the list. *)
Theorem enter_keeps_rows_above (b : Browser) (d : TreeNode) :
  browser_items b !! focusIndex b = Some (item_directory d) →
  first_at (dir_row (tn_path d)) (browser_items b) (focusIndex b) →
  take (S (focusIndex b)) (browser_items (afterEnter b))
    = take (S (focusIndex b)) (browser_items b) ∧
  browser_items (afterEnter b) !! focusIndex b = Some (item_directory d) ∧
  (tn_path d ∈ collapsedDirs (afterEnter b)
     ↔ tn_path d ∉ collapsedDirs b) ∧
  browser_items on_staged_src !! focusIndex on_staged_src
    = Some (item_directory
              (mkTreeNode "src" "src" directory
                 (Some [mkTreeNode "c.ts" "src/c.ts" file None (Some f_c)
                          (Some staged) 1])
                 None None 0)) ∧
  browser_items (afterEnter on_staged_src) !! focusIndex on_staged_src
    = None.
Proof.
  intros Hd Hfirst.
  assert (Htree : viewMode b = tree).
  { destruct (viewMode b) eqn:E; [|done].
    apply list_elem_of_lookup_2 in Hd. unfold browser_items in Hd.
    rewrite E in Hd. by apply flat_no_directory in Hd. }
  assert (Ec : pressEnter b = toggleCollapsed (tn_path d) (collapsedDirs b)).
  { unfold pressEnter. by rewrite Htree, Hd. }
  assert (Etake : take (S (focusIndex b)) (browser_items (afterEnter b))
                  = take (S (focusIndex b)) (browser_items b)).
  { unfold browser_items in *. simpl. rewrite Htree, Ec in *.
    apply (tree_items_stable (tn_path d) _ _ (toggle_agree _ _) d);
      done. }
  split; [exact Etake|]. split; [|split; [|split; reflexivity]].
  - apply (f_equal (fun l => l !! focusIndex b)) in Etake.
    rewrite !lookup_take in Etake.
    destruct (decide (focusIndex b < S (focusIndex b))%nat); [|lia].
    by rewrite Etake.
  - simpl. rewrite Ec. unfold toggleCollapsed.
    case_bool_decide; set_solver.
Qed.

Lemma enter_keeps_rows_above_witness :
  take (S (focusIndex on_unstaged_src))
    (browser_items (afterEnter on_unstaged_src))
    = take (S (focusIndex on_unstaged_src)) (browser_items on_unstaged_src) ∧
  browser_items (afterEnter on_unstaged_src) !! focusIndex on_unstaged_src
    = Some (item_directory node_src) ∧
  (tn_path node_src ∈ collapsedDirs (afterEnter on_unstaged_src)
     ↔ tn_path node_src ∉ collapsedDirs on_unstaged_src) ∧
  browser_items on_staged_src !! focusIndex on_staged_src
    = Some (item_directory
              (mkTreeNode "src" "src" directory
                 (Some [mkTreeNode "c.ts" "src/c.ts" file None (Some f_c)
                          (Some staged) 1])
                 None None 0)) ∧
  browser_items (afterEnter on_staged_src) !! focusIndex on_staged_src
    = None.
Proof.
  apply (enter_keeps_rows_above on_unstaged_src node_src).
  - reflexivity.
  - intros [|j] x Hj Hx (y & E & _); [|simpl in Hj; lia].
    vm_compute in Hx. injection Hx as <-. discriminate E.
Defined.

(** ** Tree mode shows every record *)

Section FileObjects.

Implicit Types (root : RootMap) (f : GitChange) (g : Group).

Lemma join_path_longer cur part :
  JS.truthy part = true →
  (String.length cur < String.length (join_path cur part))%nat.
Proof.
  intros Hp. unfold join_path. destruct cur as [|x cur]; simpl.
  - destruct part; [done|]. simpl. lia.
  - rewrite length_append. simpl. lia.
Qed.

Lemma fold_join_longer parts : ∀ cur,
  Forall (fun s => JS.truthy s = true) parts →
  (String.length cur <= String.length (fold_left join_path parts cur))%nat.
Proof.
  induction parts as [|part parts IH]; intros cur H; simpl; [lia|].
  apply Forall_cons in H as [Hp H].
  pose proof (join_path_longer cur part Hp).
  pose proof (IH (join_path cur part) H). lia.
Qed.

Lemma visit_part_keys f g len i part par root S k :
  store_inv root S → par = "" ∨ par ∈ root_keys root →
  k ∈ root_keys (visit_part f g len i part par root) →
  k ∈ root_keys root ∨ k = join_path par part.
Proof.
  intros H Hpar.
  destruct (decide (join_path par part ∈ root_keys root)) as [Hin|Hnew].
  - rewrite visit_part_old by done. by left.
  - rewrite visit_part_new by (done || apply (inv_nonempty _ _ H)).
    rewrite root_keys_app, root_update_keys. intros Hk.
    apply elem_of_app in Hk as [Hk|Hk]; [by left|right].
    by apply list_elem_of_singleton in Hk.
Qed.

Lemma push_child_keeps_files root S par child :
  store_inv root S →
  file_objs (root_update par (push_child child) root) = file_objs root.
Proof.
  intros H. apply file_objs_update.
  - apply push_child_type.
  - intros o Ho Hfile. unfold push_child.
    destruct (o_children o) as [cs|] eqn:Ecs; [|done].
    assert (Hd : o_type o = directory)
      by (apply (inv_kind _ _ H par o Ho); by eexists).
    congruence.
Qed.

(** A record whose full path is new adds one file object, last, carrying
    the record and the group. *)
Lemma walk_parts_adds_file f g len parts : ∀ i cur root S,
  store_inv root S →
  cur = "" ∨ cur ∈ root_keys root →
  Forall (fun s => JS.truthy s = true) parts →
  (i + List.length parts = len)%nat →
  parts ≠ [] →
  fold_left join_path parts cur ∉ root_keys root →
  store_files (walk_parts f g len i parts cur root)
    = store_files root
      ++ [(fold_left join_path parts cur, Some f, Some g)].
Proof.
  induction parts as [|part rest IH];
    intros i cur root S H Hcur Ht Hlen Hne Hfin; [done|].
  apply Forall_cons in Ht as [Hpart Hrest]. simpl in *. rewrite Hpart.
  pose proof (visit_part_inv f g len i part cur root S H Hpart Hcur) as H'.
  destruct rest as [|part' rest].
  - simpl in *.
    rewrite visit_part_new by (done || apply (inv_nonempty _ _ H)).
    unfold store_files. rewrite file_objs_app, map_app.
    rewrite (push_child_keeps_files root S) by done. f_equal.
    unfold file_objs, created. simpl.
    rewrite (bool_decide_eq_true_2 (i = _)) by lia. reflexivity.
  - assert (Hfiles : file_objs (visit_part f g len i part cur root)
                     = file_objs root).
    { destruct (decide (join_path cur part ∈ root_keys root)) as [Hin|Hnew].
      - by rewrite visit_part_old.
      - rewrite visit_part_new by (done || apply (inv_nonempty _ _ H)).
        rewrite file_objs_app, (push_child_keeps_files root S) by done.
        unfold file_objs at 2, created. simpl.
        rewrite (bool_decide_eq_false_2 (i = _)) by (simpl in Hlen; lia).
        simpl. by rewrite app_nil_r. }
    rewrite (IH (Datatypes.S i) (join_path cur part) _ _ H'); try done.
    + unfold store_files. by rewrite Hfiles.
    + right. rewrite (inv_keys _ _ H').
      apply (first_seen_covers _ (cur, join_path cur part)).
      apply elem_of_app. right. by left.
    + simpl in *. lia.
    + intros Hk.
      apply (visit_part_keys _ _ _ _ _ _ _ S) in Hk as [Hk|Hk]; try done.
      apply Forall_cons in Hrest as [Hp' Hrest].
      pose proof (join_path_longer (join_path cur part) part' Hp').
      pose proof (fold_join_longer rest
                    (join_path (join_path cur part) part') Hrest).
      simpl in Hk. rewrite Hk in *. lia.
Qed.

(** A running path of a record is its full path or the directory of a
    later step. *)
Lemma steps_running parts : ∀ cur s,
  Forall (fun s => JS.truthy s = true) parts →
  s ∈ steps_of_parts cur parts →
  snd s = fold_left join_path parts cur ∨
  ∃ s', s' ∈ steps_of_parts cur parts ∧ fst s' = snd s.
Proof.
  induction parts as [|part rest IH]; intros cur s Ht Hs; simpl in *.
  - by apply elem_of_nil in Hs.
  - apply Forall_cons in Ht as [Hp Hrest]. rewrite Hp in *.
    apply elem_of_cons in Hs as [->|Hs].
    + destruct rest as [|part' rest]; [by left|right].
      apply Forall_cons in Hrest as [Hp' _]. simpl. rewrite Hp'.
      eexists. split; [right; by left|done].
    + destruct (IH _ _ Hrest Hs) as [E|(s' & Hs' & E)]; [by left|right].
      exists s'. split; [by right|done].
Qed.

Lemma conflict_free_app_l files1 files2 :
  conflict_free (files1 ++ files2) → conflict_free files1.
Proof.
  intros (H1 & H2 & H3). split; [|split].
  - by apply Forall_app in H1 as [H1 _].
  - rewrite map_app in H2. by apply NoDup_app in H2 as (H2 & _).
  - intros f s Hf Hs. apply H3.
    + apply elem_of_app. by left.
    + unfold all_steps. rewrite flat_map_app. apply elem_of_app. by left.
Qed.

Lemma build_root_snoc files f g :
  build_root (files ++ [f]) g = add_file g (build_root files g) f.
Proof. unfold build_root. by rewrite fold_left_app. Qed.

(** The keys of the map are running paths of the records. *)
Lemma build_root_key files g k :
  k ∈ root_keys (build_root files g) →
  (∃ f, f ∈ files ∧ k = final_path f) ∨
  (∃ s, s ∈ all_steps files ∧ fst s = k).
Proof.
  intros Hk. rewrite (inv_keys _ _ (build_root_inv files g)) in Hk.
  apply list_elem_of_In, in_map_iff in Hk as (s & <- & Hs).
  apply list_elem_of_In, first_seen_subset in Hs.
  pose proof Hs as Hall.
  apply elem_of_flat_map in Hs as (f & Hf & Hs).
  destruct (steps_running _ _ _ (path_parts_truthy (path f)) Hs)
    as [E|(s' & Hs' & E)].
  - left. by exists f.
  - right. exists s'. split; [|done].
    apply elem_of_flat_map. by exists f.
Qed.

(** With no conflicts the file objects are the records, in order, each
    under its full path. *)
Lemma conflict_free_store files g :
  conflict_free files →
  store_files (build_root files g)
    = map (fun f => (final_path f, Some f, Some g)) files.
Proof.
  induction files as [|f files IH] using rev_ind; intros Hcf; [done|].
  specialize (IH (conflict_free_app_l _ _ Hcf)).
  destruct Hcf as (H1 & H2 & H3).
  rewrite build_root_snoc, map_app. simpl. rewrite <- IH.
  apply (walk_parts_adds_file f g _ _ 0%nat "" _ (all_steps files)).
  - apply build_root_inv.
  - by left.
  - apply path_parts_truthy.
  - done.
  - apply Forall_app in H1 as [_ H1]. by apply Forall_cons in H1 as [H1 _].
  - intros Hk. fold (final_path f) in Hk.
    apply build_root_key in Hk as [(f' & Hf' & E)|(s & Hs & E)].
    + rewrite map_app in H2. apply NoDup_app in H2 as (_ & Hdisj & _).
      apply (Hdisj (final_path f')); [by apply elem_of_map_2|].
      rewrite <- E. by left.
    + apply (H3 f s); [apply elem_of_app; right; by left| |done].
      unfold all_steps. rewrite flat_map_app. apply elem_of_app. by left.
Qed.

End FileObjects.

Section Completeness.

Implicit Types (root : RootMap) (files : list GitChange) (g : Group).

Lemma steps_join_part parts : ∀ cur s,
  s ∈ steps_of_parts cur parts →
  ∃ part, part ∈ parts ∧ snd s = join_path (fst s) part.
Proof.
  induction parts as [|part parts IH]; intros cur s Hs; simpl in Hs.
  - by apply elem_of_nil in Hs.
  - destruct (JS.truthy part).
    + apply elem_of_cons in Hs as [->|Hs]; [exists part; split; [by left|done]|].
      destruct (IH _ _ Hs) as (q & Hq & E). exists q. split; [by right|done].
    + destruct (IH _ _ Hs) as (q & Hq & E). exists q. split; [by right|done].
Qed.

Lemma path_parts_no_slash p part :
  part ∈ path_parts p → JS.includes "/"%char part = false.
Proof.
  unfold path_parts. intros H. apply list_elem_of_filter in H as [_ H].
  pose proof (split_free "/"%char p) as Hfree.
  rewrite Forall_forall in Hfree. by apply Hfree.
Qed.

Lemma store_files_key root k o :
  (k, o) ∈ root → o_type o = file →
  (k, o_file o, o_group o) ∈ store_files root.
Proof.
  intros Hko Hty. unfold store_files, file_objs.
  apply (elem_of_map_2 (fun e => (fst e, o_file (snd e), o_group (snd e)))
           _ (k, o)).
  apply list_elem_of_In, filter_In. split; [by apply list_elem_of_In|].
  simpl. by apply bool_decide_eq_true.
Qed.

(** With no conflicts every node under a directory is referenced by it. *)
Lemma slash_referenced files g k :
  conflict_free files →
  k ∈ root_keys (build_root files g) →
  JS.includes "/"%char k = true →
  k ∈ refs_of (build_root files g).
Proof.
  intros Hcf Hk Hslash.
  pose proof (build_root_inv files g) as H.
  pose proof Hk as Hk'. rewrite (inv_keys _ _ H) in Hk'.
  apply list_elem_of_In, in_map_iff in Hk' as (s & Es & Hs).
  apply list_elem_of_In in Hs.
  pose proof (first_seen_subset _ _ Hs) as Hall.
  pose proof Hall as Hall'.
  apply elem_of_flat_map in Hall' as (f & Hf & Hsf).
  apply steps_join_part in Hsf as (part & Hpart & Ejoin).
  apply path_parts_no_slash in Hpart.
  assert (Hpar : fst s ≠ "").
  { intros E. rewrite E in Ejoin. unfold join_path in Ejoin. simpl in Ejoin.
    congruence. }
  destruct (store_inv_parent _ _ s H Hs) as [E|Hin]; [done|].
  apply list_elem_of_In, in_map_iff in Hin as ([par o] & Epar & Ho).
  simpl in Epar. subst par. apply list_elem_of_In in Ho.
  assert (Hdir : o_type o = directory).
  { destruct (o_type o) eqn:Hty; [done|]. exfalso.
    pose proof (store_files_key _ _ _ Ho Hty) as Hsf.
    rewrite (conflict_free_store files g Hcf) in Hsf.
    apply list_elem_of_In, in_map_iff in Hsf as (f' & E' & Hf').
    injection E' as E' _ _. destruct Hcf as (_ & _ & H3).
    apply (H3 f' s); [by apply list_elem_of_In|done|done]. }
  apply (inv_kind _ _ H _ o Ho) in Hdir as [cs Hcs].
  apply elem_of_refs_of. exists (fst s), o. split; [done|].
  rewrite Hcs. simpl. rewrite (inv_children _ _ H _ o cs Ho Hcs).
  rewrite <- Es. apply elem_of_map_2.
  apply list_elem_of_In, filter_In. split; [by apply list_elem_of_In|].
  by apply bool_decide_eq_true.
Qed.

Lemma filter_map_eq {A B} (f : A → B) (P : B → Prop) (Q : A → Prop)
    `{∀ x, Decision (P x)} `{∀ x, Decision (Q x)} (l : list A) :
  (∀ e, e ∈ l → P (f e) ↔ Q e) →
  filter P (map f l) = map f (filter Q l).
Proof.
  induction l as [|e l IH]; intros Hiff; [done|]. simpl.
  assert (Hl : ∀ e', e' ∈ l → P (f e') ↔ Q e')
    by (intros e' He'; apply Hiff; by right).
  destruct (decide (Q e)) as [Hq|Hq].
  - rewrite filter_cons_True by (apply Hiff; [by left|done]).
    rewrite (filter_cons_True Q) by done. simpl. by rewrite IH.
  - rewrite filter_cons_False by (rewrite Hiff; [done|by left]).
    rewrite (filter_cons_False Q) by done. by apply IH.
Qed.

(** With no conflicts the forest holds every node of the map. *)
Lemma conflict_free_forest files g :
  conflict_free files →
  forest_nodes (buildFileTree files g) ≡ₚ root_values (build_root files g).
Proof.
  intros Hcf. pose proof (build_root_inv files g) as H.
  pose proof (store_inv_shaped _ _ H) as Hs.
  rewrite <- (unreferenced_perm _ Hs).
  unfold buildFileTree, unreferenced, root_values.
  rewrite (filter_map_eq snd _ (fun e => fst e ∉ refs_of (build_root files g))).
  { done. }
  intros [k n] Hin. simpl. rewrite (reify_path _ k n Hs Hin). split.
  - intros Hno Href. apply refs_have_slash in Href. congruence.
  - intros Hnr. destruct (JS.includes "/"%char k) eqn:E; [|done].
    exfalso. apply Hnr. apply slash_referenced; [done| |done].
    rewrite <- reify_keys. by apply (elem_of_map_2 fst _ (k, n)).
Qed.

Lemma row_pair_values root :
  flat_map row_pair (map node_item (root_values root)) = store_pairs root.
Proof.
  unfold store_pairs, store_files, file_objs, root_values.
  induction root as [|[k o] root IH]; [done|].
  simpl. rewrite IH. unfold node_item. simpl.
  destruct (o_type o); simpl; [done|]. by destruct (o_file o).
Qed.

Lemma conflict_free_pairs files g :
  conflict_free files →
  store_pairs (build_root files g) = map (fun f => (f, Some g)) files.
Proof.
  intros Hcf. unfold store_pairs. rewrite conflict_free_store by done.
  clear Hcf. induction files as [|f files IH]; [done|].
  simpl. by rewrite IH.
Qed.

(** The records of the File rows of one group in tree mode with nothing
    collapsed. *)
Lemma tree_rows_pairs files g :
  conflict_free files →
  flat_map row_pair
    (map node_item (flattenTree (buildFileTree files g) ∅))
  ≡ₚ map (fun f => (f, Some g)) files.
Proof.
  intros Hcf. destruct (built_tree_shape files g) as [Hwf _].
  rewrite flatten_all by (done || set_solver).
  rewrite <- (conflict_free_pairs files g Hcf), <- row_pair_values.
  apply Permutation_flat_map, Permutation_map.
  by apply conflict_free_forest.
Qed.

Lemma flat_rows_pairs files g :
  flat_map row_pair (map (file_row g) files)
    = map (fun f => (f, Some g)) files.
Proof. induction files as [|f files IH]; [done|]. simpl. by rewrite IH. Qed.

Lemma group_rows_pairs label files rows :
  (files = [] → rows = []) →
  flat_map row_pair (group_rows label files rows) = flat_map row_pair rows.
Proof.
  destruct files; [|done]. intros H. by rewrite H.
Qed.

Lemma items_pairs u s c :
  conflict_free u → conflict_free s →
  flat_map row_pair (allItems u s tree ∅)
    ≡ₚ flat_map row_pair (allItems u s flat c).
Proof.
  intros Hu Hs. rewrite flat_items. unfold allItems.
  rewrite !push_group_tree. simpl. rewrite !flat_map_app.
  rewrite !group_rows_pairs by (by intros ->).
  rewrite !flat_rows_pairs.
  by rewrite (tree_rows_pairs u unstaged Hu), (tree_rows_pairs s staged Hs).
Qed.

Lemma row_records_pairs keep items :
  row_records keep items
    = flat_map (fun e => if keep (snd e) then [fst e] else [])
        (flat_map row_pair items).
Proof.
  induction items as [|row items IH]; [done|].
  change (row :: items) with ([row] ++ items).
  rewrite row_records_app, !flat_map_app, IH. f_equal.
  by destruct row as [label n|[f|] g node|node]; simpl;
    rewrite ?app_nil_r.
Qed.

Lemma row_targets_pairs sel items :
  row_targets sel items
    = flat_map (fun e => if bool_decide (path (fst e) ∈ sel)
                         then [mkTarget (path (fst e))
                                 (bool_decide (snd e = Some staged))
                                 (status (fst e))]
                         else [])
        (flat_map row_pair items).
Proof.
  induction items as [|row items IH]; [done|].
  change (row :: items) with ([row] ++ items).
  rewrite row_targets_app, !flat_map_app, IH. f_equal.
  by destruct row as [label n|[f|] g node|node]; simpl;
    rewrite ?app_nil_r.
Qed.

End Completeness.

(** X19. Tree mode loses no record: when the paths of each group have a
    non-empty part, are distinct, and none is a directory on the way to
    another, the File rows of tree mode with no directory collapsed carry
    exactly the records of flat mode, each once. So the [a] key and the
    multi-file export act on the same files in both view modes, the order
    of the rows apart. *)
Theorem tree_shows_every_record (u s : list GitChange) (c : gset string) :
  conflict_free u → conflict_free s →
  row_records (fun _ => true) (allItems u s tree ∅) ≡ₚ u ++ s ∧
  (∀ keep,
     row_records keep (allItems u s tree ∅)
       ≡ₚ row_records keep (allItems u s flat c)) ∧
  (∀ sel,
     row_targets sel (allItems u s tree ∅)
       ≡ₚ row_targets sel (allItems u s flat c)).
Proof.
  intros Hu Hs.
  pose proof (items_pairs u s c Hu Hs) as Hp.
  assert (Hk : ∀ keep,
    row_records keep (allItems u s tree ∅)
      ≡ₚ row_records keep (allItems u s flat c)).
  { intros keep. rewrite !row_records_pairs.
    by apply Permutation_flat_map. }
  split; [|split; [exact Hk|]].
  - rewrite (Hk (fun _ => true)), flat_items.
    by rewrite row_records_app, !row_records_flat.
  - intros sel. rewrite !row_targets_pairs. by apply Permutation_flat_map.
Qed.

Lemma tree_shows_every_record_witness :
  row_records (fun _ => true)
    (allItems conflict_free_sample [f_c] tree ∅)
    ≡ₚ conflict_free_sample ++ [f_c] ∧
  (∀ keep,
     row_records keep (allItems conflict_free_sample [f_c] tree ∅)
       ≡ₚ row_records keep (allItems conflict_free_sample [f_c] flat ∅)) ∧
  (∀ sel,
     row_targets sel (allItems conflict_free_sample [f_c] tree ∅)
       ≡ₚ row_targets sel (allItems conflict_free_sample [f_c] flat ∅)).
Proof.
  apply (tree_shows_every_record conflict_free_sample [f_c] ∅).
  - split; [|split].
    + repeat constructor; discriminate.
    + vm_compute. repeat constructor; simpl; intros H;
        repeat (apply elem_of_cons in H as [H|H]; [discriminate H|]);
        by apply elem_of_nil in H.
    + intros f s Hf Hs. vm_compute in Hs.
      repeat (apply elem_of_cons in Hf as [->|Hf]);
        [| |by apply elem_of_nil in Hf];
        repeat (apply elem_of_cons in Hs as [->|Hs]);
        try discriminate; by apply elem_of_nil in Hs.
  - split; [|split].
    + repeat constructor; discriminate.
    + vm_compute. repeat constructor; simpl; intros H;
        by apply elem_of_nil in H.
    + intros f s Hf Hs. vm_compute in Hs.
      repeat (apply elem_of_cons in Hf as [->|Hf]);
        [|by apply elem_of_nil in Hf];
        repeat (apply elem_of_cons in Hs as [->|Hs]);
        try discriminate; by apply elem_of_nil in Hs.
Defined.

(** ** Editing the path buffer *)

Section Editing.

Implicit Types (s a b t : string) (st : InputState) (env : Env).

Lemma append_nil_r s : s +:+ "" = s.
Proof.
  induction s as [|c s IH]; [done|].
  change (String c (s +:+ "") = String c s). by rewrite IH.
Qed.

Lemma substring_split s : ∀ n,
  (n <= String.length s)%nat →
  String.substring 0 n s +:+ String.substring n (String.length s - n) s = s.
Proof.
  induction s as [|c s IH]; intros [|n] Hn; simpl in *; try done; try lia.
  - by rewrite substring_all.
  - change (String c (String.substring 0 n s
                      +:+ String.substring n (String.length s - n) s)
            = String c s).
    rewrite IH; [done|lia].
Qed.

(** The parts before and after a position make up the buffer. *)
Lemma slice_split s (c : Z) :
  0 <= c <= JS.length s → JS.slice s 0 c +:+ JS.slice_from s c = s.
Proof.
  intros Hc. unfold JS.slice_from, JS.slice, JS.rel_index, JS.length in *.
  destruct (Z.ltb_spec 0 0); [lia|].
  destruct (Z.ltb_spec c 0); [lia|].
  destruct (Z.ltb_spec (Z.of_nat (String.length s)) 0); [lia|].
  rewrite (Z.min_l 0), (Z.min_l c), Z.min_id by lia.
  rewrite Z.sub_0_r, !Z.max_l by lia. simpl Z.to_nat at 1.
  replace (Z.to_nat (Z.of_nat (String.length s) - c))
    with (String.length s - Z.to_nat c)%nat by lia.
  apply substring_split. lia.
Qed.

Lemma slice_whole s :
  JS.slice s 0 (JS.length s) = s ∧ JS.slice_from s (JS.length s) = "".
Proof.
  pose proof (slice_prefix s "") as H1.
  pose proof (slice_suffix s "") as H2.
  by rewrite append_nil_r in H1, H2.
Qed.

Lemma type_plain env input st :
  inputMode st ≠ normal → JS.truthy input = true →
  useInput st (env, input, key_plain) = insertAtCursor input st.
Proof.
  intros Hm Ht. unfold useInput, pathModeInput. simpl. rewrite Ht. simpl.
  by destruct (inputMode st).
Qed.

Lemma backspace_plain env st :
  inputMode st ≠ normal → 0 < cursorPosition st →
  useInput st (env, "", key_backspace)
    = mkInput (inputMode st)
        (JS.slice (pathInput st) 0 (cursorPosition st - 1)
           +:+ JS.slice_from (pathInput st) (cursorPosition st))
        (cursorPosition st - 1) (dumpMode st).
Proof.
  intros Hm Hc. unfold useInput, pathModeInput. simpl.
  rewrite (proj2 (Z.gtb_gt _ _)) by lia. simpl.
  by destruct (inputMode st).
Qed.

Lemma type_inputs_appends env inputs : ∀ st,
  inputMode st ≠ normal →
  cursorPosition st = JS.length (pathInput st) →
  Forall (fun t => JS.truthy t = true) inputs →
  inputMode (type_inputs env inputs st) = inputMode st ∧
  pathInput (type_inputs env inputs st)
    = pathInput st +:+ typed_text inputs ∧
  cursorPosition (type_inputs env inputs st)
    = JS.length (pathInput (type_inputs env inputs st)).
Proof.
  induction inputs as [|t inputs IH]; intros st Hm Hc Ht.
  - simpl. by rewrite append_nil_r.
  - apply Forall_cons in Ht as [Ht Hts].
    change (type_inputs env (t :: inputs) st)
      with (type_inputs env inputs (useInput st (env, t, key_plain))).
    rewrite type_plain by done.
    destruct (slice_whole (pathInput st)) as [E1 E2].
    assert (Ep : pathInput (insertAtCursor t st) = pathInput st +:+ t).
    { unfold insertAtCursor. simpl. by rewrite Hc, E1, E2, append_nil_r. }
    destruct (IH (insertAtCursor t st)) as (IH1 & IH2 & IH3); try done.
    { rewrite Ep, JS_length_append. unfold insertAtCursor. simpl. lia. }
    split; [done|]. split; [|done].
    rewrite IH2, Ep, append_assoc. done.
Qed.

End Editing.

(** X20. Editing the path buffer: a typed text is inserted at the cursor,
    between the part of the buffer before it and the part after it, and the
    cursor moves past it; Backspace after one typed character restores
    buffer and cursor; and text typed into a freshly opened prompt is read
    back as typed, with the cursor at its end. *)
Theorem typing_edits_at_cursor (env : Env) (st : InputState)
    (input : string) :
  inputMode st ≠ normal → cursor_in_bounds st → JS.truthy input = true →
  let st1 := useInput st (env, input, key_plain) in
  pathInput st1
    = JS.slice (pathInput st) 0 (cursorPosition st) +:+ input
      +:+ JS.slice_from (pathInput st) (cursorPosition st) ∧
  cursorPosition st1 = cursorPosition st + JS.length input ∧
  (JS.length input = 1 → useInput st1 (env, "", key_backspace) = st) ∧
  (∀ mode d inputs,
     mode ≠ normal → Forall (fun t => JS.truthy t = true) inputs →
     let st' := type_inputs env inputs (entryInput mode d) in
     pathInput st' = typed_text inputs ∧
     cursorPosition st' = JS.length (typed_text inputs)).
Proof.
  intros Hm Hb Ht st1. unfold st1. rewrite type_plain by done.
  split; [done|]. split; [done|]. split.
  - intros Hlen. pose proof Hb as [Hb1 Hb2].
    rewrite backspace_plain by (simpl; (done || lia)).
    unfold insertAtCursor. simpl.
    set (A := JS.slice (pathInput st) 0 (cursorPosition st)).
    set (B := JS.slice_from (pathInput st) (cursorPosition st)).
    assert (HA : JS.length A = cursorPosition st)
      by (apply JS_length_slice_to; lia).
    replace (cursorPosition st + JS.length input - 1)
      with (JS.length A) by lia.
    rewrite slice_prefix.
    replace (cursorPosition st + JS.length input)
      with (JS.length (A +:+ input)) by (rewrite JS_length_append; lia).
    rewrite <- append_assoc, slice_suffix.
    unfold A, B. rewrite slice_split by lia.
    fold A. rewrite HA. by destruct st.
  - intros mode d inputs Hmode Hts.
    destruct (type_inputs_appends env inputs (entryInput mode d))
      as (_ & E2 & E3); try done.
    by rewrite E3, E2.
Qed.

Lemma typing_edits_at_cursor_witness :
  let st1 := useInput mid_buffer_input (blank_led_env, "-", key_plain) in
  pathInput st1
    = JS.slice (pathInput mid_buffer_input) 0
        (cursorPosition mid_buffer_input) +:+ "-"
      +:+ JS.slice_from (pathInput mid_buffer_input)
            (cursorPosition mid_buffer_input) ∧
  cursorPosition st1 = cursorPosition mid_buffer_input + JS.length "-" ∧
  (JS.length "-" = 1 →
   useInput st1 (blank_led_env, "", key_backspace) = mid_buffer_input) ∧
  (∀ mode d inputs,
     mode ≠ normal → Forall (fun t => JS.truthy t = true) inputs →
     let st' := type_inputs blank_led_env inputs (entryInput mode d) in
     pathInput st' = typed_text inputs ∧
     cursorPosition st' = JS.length (typed_text inputs)).
Proof.
  apply (typing_edits_at_cursor blank_led_env mid_buffer_input "-").
  - discriminate.
  - unfold cursor_in_bounds. simpl. vm_compute. split; discriminate.
  - reflexivity.
Defined.

(** ** Code dump *)

Section OrderedMap.

Context {V : Type}.
Implicit Types (m : list (string * V)) (k : string).

Lemma map_has_true k m : map_has k m = true ↔ k ∈ map fst m.
Proof.
  induction m as [|[k' v] m IH]; simpl.
  - split; [done|]. intros H. by apply elem_of_nil in H.
  - destruct (decide (k' = k)) as [->|Hne].
    + split; [intros _; by left|done].
    + rewrite IH. split; [by right|].
      intros H. apply elem_of_cons in H as [H|H]; [congruence|done].
Qed.

Lemma map_has_false k m : map_has k m = false ↔ k ∉ map fst m.
Proof.
  rewrite <- map_has_true. by destruct (map_has k m).
Qed.

(** An update changes the first entry under the key. *)
Lemma map_update_split k f m :
  k ∈ map fst m →
  ∃ pre v post, m = pre ++ (k, v) :: post ∧
                map_update k f m = pre ++ (k, f v) :: post.
Proof.
  induction m as [|[k' v] m IH]; simpl; intros Hk.
  - by apply elem_of_nil in Hk.
  - destruct (decide (k' = k)) as [->|Hne].
    + by exists [], v, m.
    + apply elem_of_cons in Hk as [Hk|Hk]; [congruence|].
      destruct (IH Hk) as (pre & v0 & post & -> & ->).
      by exists ((k', v) :: pre), v0, post.
Qed.

Lemma map_update_keys k f m : map fst (map_update k f m) = map fst m.
Proof.
  induction m as [|[k' v] m IH]; simpl; [done|].
  destruct (decide (k' = k)); simpl; [done|]. by rewrite IH.
Qed.

(** Setting entries with fresh, distinct keys appends them. *)
Lemma fold_map_set_fresh (es : list (string * V)) : ∀ m,
  NoDup (map fst m ++ map fst es) →
  fold_left (fun out e => map_set (fst e) (snd e) out) es m = m ++ es.
Proof.
  induction es as [|[k v] es IH]; intros m Hnd; simpl.
  - by rewrite app_nil_r.
  - assert (Hk : map_has k m = false).
    { apply map_has_false. intros Hk.
      apply NoDup_app in Hnd as (_ & Hdisj & _).
      apply (Hdisj k Hk). by left. }
    unfold map_set at 2. simpl. rewrite Hk. rewrite IH.
    + by rewrite <- app_assoc.
    + rewrite map_app. simpl. rewrite <- app_assoc. exact Hnd.
Qed.

(** A map built by [set] holds only values that were set. *)
Lemma fold_map_set_elem (es : list (string * V)) : ∀ m e,
  e ∈ fold_left (fun out e => map_set (fst e) (snd e) out) es m →
  e ∈ m ∨ e ∈ es.
Proof.
  induction es as [|[k v] es IH]; intros m e He; simpl in He; [by left|].
  apply IH in He as [He|He]; [|right; by right].
  unfold map_set in He. simpl in He.
  destruct (map_has k m) eqn:Hk.
  - apply map_has_true in Hk.
    destruct (map_update_split k (fun _ => v) m Hk)
      as (pre & v0 & post & Em & Eu).
    rewrite Eu in He. rewrite Em.
    apply elem_of_app in He as [He|He].
    + left. apply elem_of_app. by left.
    + apply elem_of_cons in He as [->|He]; [right; by left|].
      left. apply elem_of_app. right. by right.
  - apply elem_of_app in He as [He|He]; [by left|].
    apply list_elem_of_singleton in He. subst e. right. by left.
Qed.

End OrderedMap.

Section Merged.

Context `{PathModule}.

Implicit Types (pairMap : list (string * FilePair)) (allFiles : list string).

(** The first loop sorts every file into one of the three lists. *)
Lemma classes_cover allFiles :
  List.filter is_header allFiles ++ List.filter is_source allFiles
    ++ List.filter is_other allFiles ≡ₚ allFiles.
Proof.
  induction allFiles as [|f l IH]; [done|]. simpl.
  unfold is_source, is_other.
  destruct (is_header f); simpl.
  - by rewrite IH.
  - destruct (array_includes SOURCE_EXTENSIONS _); simpl.
    + rewrite <- Permutation_middle. by rewrite IH.
    + rewrite app_assoc, <- Permutation_middle, <- app_assoc.
      by rewrite IH.
Qed.

Lemma add_header_fresh (hs : list string) : ∀ pairMap,
  NoDup (map fst pairMap ++ map pair_key hs) →
  fold_left add_header hs pairMap
    = pairMap ++ map (fun h => (pair_key h, header_pair h)) hs.
Proof.
  induction hs as [|h hs IH]; intros pairMap Hnd; simpl.
  - by rewrite app_nil_r.
  - assert (Hk : map_has (pair_key h) pairMap = false).
    { apply map_has_false. intros Hk.
      apply NoDup_app in Hnd as (_ & Hdisj & _).
      apply (Hdisj _ Hk). by left. }
    unfold add_header at 2. fold (pair_key h). rewrite Hk.
    unfold map_set. rewrite Hk. rewrite IH.
    + by rewrite <- app_assoc.
    + rewrite map_app, <- app_assoc. exact Hnd.
Qed.

Lemma pair_files_headers (hs : list string) :
  pair_files (map (fun h => (pair_key h, header_pair h)) hs) = hs.
Proof.
  induction hs as [|h hs IH]; [done|].
  change (pair_files (map (fun h => (pair_key h, header_pair h)) (h :: hs)))
    with (h :: pair_files (map (fun h => (pair_key h, header_pair h)) hs)).
  by rewrite IH.
Qed.

(** The second loop places every source either in its pair or among the
    unmatched ones, when no two sources share a key and the pairs it can
    reach have no source yet. *)
Lemma add_source_cover (srcs : list string) : ∀ pairMap unmatched,
  NoDup (map pair_key srcs) →
  (∀ k fp, (k, fp) ∈ pairMap → k ∈ map pair_key srcs → source fp = None) →
  let acc := fold_left add_source srcs (pairMap, unmatched) in
  pair_files (fst acc) ++ snd acc
    ≡ₚ pair_files pairMap ++ unmatched ++ srcs.
Proof.
  induction srcs as [|s srcs IH]; intros pairMap unmatched Hnd Hnone; simpl.
  - by rewrite app_nil_r.
  - apply NoDup_cons in Hnd as [Hs Hnd].
    unfold add_source at 2.
    destruct (map_has (pair_key s) pairMap) eqn:Hk.
    + apply map_has_true in Hk.
      destruct (map_update_split (pair_key s)
                  (fun fp => mkFilePair (baseName fp) (dirPath fp) (header fp)
                               (Some s)) pairMap Hk)
        as (pre & fp0 & post & Em & Eu).
      rewrite Eu. rewrite IH; [|done|].
      * assert (Hsrc : source fp0 = None).
        { apply (Hnone (pair_key s)); [|by left].
          rewrite Em. apply elem_of_app. right. by left. }
        rewrite Em. unfold pair_files. rewrite !flat_map_app. simpl.
        rewrite Hsrc. simpl.
        rewrite <- !app_assoc. apply Permutation_app_head.
        rewrite (Permutation_app_comm unmatched (s :: srcs)). simpl.
        rewrite !app_assoc. rewrite <- Permutation_middle.
        rewrite <- (Permutation_middle _ _ s).
        apply Permutation_skip.
        rewrite <- !app_assoc. do 2 apply Permutation_app_head.
        apply Permutation_app_comm.
      * intros k fp Hin Hks.
        apply elem_of_app in Hin as [Hin|Hin].
        { apply (Hnone k); [|by right]. rewrite Em.
          apply elem_of_app. by left. }
        apply elem_of_cons in Hin as [Hin|Hin].
        { injection Hin as -> ->. done. }
        apply (Hnone k); [|by right]. rewrite Em.
        apply elem_of_app. right. by right.
    + rewrite IH; [|done|].
      * apply Permutation_app_head. rewrite <- app_assoc.
        by apply Permutation_app_head.
      * intros k fp Hin Hks. apply (Hnone k); [done|by right].
Qed.

Lemma headers_built allFiles (hs : list string) : ∀ pairMap,
  (∀ h, h ∈ hs → h ∈ allFiles ∧ is_header h = true) →
  pairs_built allFiles pairMap →
  pairs_built allFiles (fold_left add_header hs pairMap).
Proof.
  induction hs as [|h hs IH]; intros pairMap Hhs Hpm; [done|].
  simpl. apply IH; [intros h' Hh'; apply Hhs; by right|].
  unfold add_header. fold (pair_key h).
  destruct (map_has (pair_key h) pairMap) eqn:Hk; [done|].
  unfold map_set. rewrite Hk. intros k fp Hin.
  apply elem_of_app in Hin as [Hin|Hin]; [by apply Hpm|].
  apply list_elem_of_singleton in Hin. injection Hin as -> ->.
  destruct (Hhs h ltac:(by left)) as [Hall Hhead].
  split; [|by exists h]. exists h. by split_and!.
Qed.

Lemma sources_built allFiles (srcs : list string) : ∀ pairMap unmatched,
  (∀ s, s ∈ srcs → s ∈ allFiles ∧ is_source s = true) →
  pairs_built allFiles pairMap →
  (∀ s, s ∈ unmatched → s ∈ allFiles ∧ is_source s = true) →
  let acc := fold_left add_source srcs (pairMap, unmatched) in
  pairs_built allFiles (fst acc) ∧
  ∀ s, s ∈ snd acc → s ∈ allFiles ∧ is_source s = true.
Proof.
  induction srcs as [|s srcs IH]; intros pairMap unmatched Hsrcs Hpm Hum;
    [done|].
  simpl. destruct (Hsrcs s ltac:(by left)) as [Hall Hsrc].
  assert (Hrest : ∀ s', s' ∈ srcs → s' ∈ allFiles ∧ is_source s' = true)
    by (intros s' Hs'; apply Hsrcs; by right).
  unfold add_source at 2.
  destruct (map_has (pair_key s) pairMap) eqn:Hk.
  - apply map_has_true in Hk.
    destruct (map_update_split (pair_key s)
                (fun fp => mkFilePair (baseName fp) (dirPath fp) (header fp)
                             (Some s)) pairMap Hk)
      as (pre & fp0 & post & Em & Eu).
    rewrite Eu. apply IH; [done| |done].
    intros k fp Hin.
    assert (Hold : ∀ e, e ∈ pre ++ post → e ∈ pairMap).
    { intros e He. rewrite Em. apply elem_of_app in He as [He|He];
        apply elem_of_app; [by left|right; by right]. }
    apply elem_of_app in Hin as [Hin|Hin];
      [apply Hpm, Hold, elem_of_app; by left|].
    apply elem_of_cons in Hin as [Hin|Hin];
      [|apply Hpm, Hold, elem_of_app; by right].
    injection Hin as -> ->.
    destruct (Hpm (pair_key s) fp0) as [(h & Hh & Hin & Hhd & Hd & Hb & _)
                                          (h' & Hh' & Ek)].
    { rewrite Em. apply elem_of_app. right. by left. }
    assert (h' = h) by congruence. subst h'.
    split; [|by exists h]. exists h. simpl. split_and!; try done.
    intros s' Es'. injection Es' as <-. done.
  - apply IH; [done|done|]. intros s' Hs'.
    apply elem_of_app in Hs' as [Hs'|Hs']; [by apply Hum|].
    apply list_elem_of_singleton in Hs'. by subst s'.
Qed.

Lemma filter_class (f : string → bool) allFiles x :
  x ∈ List.filter f allFiles → x ∈ allFiles ∧ f x = true.
Proof.
  intros Hx. apply list_elem_of_In, filter_In in Hx as [Hx Hf].
  by rewrite list_elem_of_In.
Qed.

Lemma dump_entries_built mode allFiles :
  Forall (entry_built allFiles) (dump_entries mode allFiles).
Proof.
  unfold dump_entries.
  pose proof (sources_built allFiles (List.filter is_source allFiles)
                (fold_left add_header (List.filter is_header allFiles) [])
                [] (filter_class is_source allFiles)) as Hs.
  destruct (fold_left add_source _ _) as [pairMap unmatched].
  destruct Hs as [Hpm Hum].
  { apply headers_built; [apply filter_class|].
    intros k fp Hin. by apply elem_of_nil in Hin. }
  { intros s Hin. by apply elem_of_nil in Hin. }
  apply Forall_forall. intros e He.
  apply elem_of_app in He as [He|He].
  - apply list_elem_of_In, in_map_iff in He as ([k fp] & <- & Hin).
    apply list_elem_of_In in Hin. by apply (Hpm k fp).
  - apply elem_of_app in He as [He|He].
    + apply list_elem_of_In, in_map_iff in He as (s & <- & Hin).
      apply list_elem_of_In in Hin. by apply Hum.
    + apply list_elem_of_In, in_map_iff in He as (f & <- & Hin).
      apply list_elem_of_In in Hin. by apply filter_class.
Qed.

Lemma dump_entries_cover mode allFiles :
  NoDup (map pair_key (List.filter is_header allFiles)) →
  NoDup (map pair_key (List.filter is_source allFiles)) →
  flat_map (fun e => entry_files (snd e)) (dump_entries mode allFiles)
    ≡ₚ allFiles.
Proof.
  intros Hh Hs. unfold dump_entries.
  pose proof (add_header_fresh (List.filter is_header allFiles) [] Hh) as E0.
  simpl in E0. rewrite E0.
  pose proof (add_source_cover (List.filter is_source allFiles)
                (map (fun h => (pair_key h, header_pair h))
                   (List.filter is_header allFiles)) [] Hs) as Hc.
  destruct (fold_left add_source _ _) as [pairMap unmatched].
  rewrite !flat_map_app.
  assert (E1 : ∀ pm, flat_map (fun e => entry_files (snd e))
                 (map (fun e => (pair_output_name mode (snd e),
                                 merged_pair (snd e))) pm)
               = pair_files pm).
  { unfold pair_files. induction pm as [|e l IH]; [done|].
    simpl. by rewrite IH. }
  assert (E2 : ∀ l, flat_map (fun e => entry_files (snd e))
                 (map (fun s => (file_output_name mode s,
                                 standalone_source s)) l) = l).
  { induction l as [|e l IH]; [done|]. simpl. by rewrite IH. }
  assert (E3 : ∀ l, flat_map (fun e => entry_files (snd e))
                 (map (fun f => (file_output_name mode f, other_file f)) l)
               = l).
  { induction l as [|e l IH]; [done|]. simpl. by rewrite IH. }
  rewrite E1, E2, E3. rewrite app_assoc, Hc.
  - rewrite pair_files_headers. simpl. rewrite <- app_assoc.
    apply classes_cover.
  - intros k fp Hin _.
    apply list_elem_of_In, in_map_iff in Hin as (h & E & _).
    by injection E as _ <-.
Qed.

End Merged.



